(** * Post-processing of segmentation predictions: labelled images, overlap
      queries and the fusion passes

    A shallow embedding of [src/inference/postprocessing.py] and the
    properties of its label-image operations. *)

From Stdlib Require Import ZArith QArith Qminmax Lia PrimFloat.
From Stdlib Require Uint63.
From stdpp Require Import base tactics option list sorting relations strings gmap.

Close Scope Q_scope.
Open Scope Z_scope.

(** * Arrays

    The post-processing code works on two-dimensional NumPy arrays.  An
    integer array (a label image) is a list of rows of [Z]; a boolean array
    (a mask) is a list of rows of [bool].  A pixel position is a pair
    (row, column). *)

Abbreviation image := (list (list Z)).
Abbreviation bmask := (list (list bool)).
Abbreviation pos := (nat * nat)%type.

Definition px {A} (a : list (list A)) (p : pos) : option A :=
  a !! p.1 ≫= (.!! p.2).

(** Element-wise application of a function. *)
Definition amap {A B} (f : A → B) (a : list (list A)) : list (list B) :=
  fmap (M := list) f <$> a.

Definition row_of {A} (a : list (list A)) (r : nat) : list A := default [] (a !! r).

Definition shape {A} (a : list (list A)) : list nat := length <$> a.

(** [a.size] *)
Definition np_size {A} (a : list (list A)) : nat := length (concat a).

(** All positions of an array, in raster order. *)
Definition positions {A} (a : list (list A)) : list pos :=
  r ← seq 0 (length a); (λ c, (r, c)) <$> seq 0 (length (row_of a r)).

Definition width {A} (a : list (list A)) : nat :=
  foldr (λ row w, max (length row) w) 0%nat a.

(** ** Connectivity

    [skimage.measure.label] with its default connectivity joins two pixels
    of a 2-D image when they are 8-neighbours and hold the same value. *)

Definition near (p q : pos) : Prop :=
  (p.1 ≤ S q.1 ∧ q.1 ≤ S p.1 ∧ p.2 ≤ S q.2 ∧ q.2 ≤ S p.2)%nat.

Definition link (a : image) (p q : pos) : Prop :=
  near p q ∧ ∃ v, v ≠ 0 ∧ px a p = Some v ∧ px a q = Some v.

Definition connected (a : image) : relation pos := rtc (link a).

(** The 3x3 window around a position (at the border the window folds onto
    the position's own row or column, which adds no new neighbour). *)
Definition window (p : pos) : list pos :=
  let (r, c) := p in
  [(pred r, pred c); (pred r, c); (pred r, S c);
   (r, pred c); (r, c); (r, S c);
   (S r, pred c); (S r, c); (S r, S c)].

(** ** Reference model of [skimage.measure.label]

    Every foreground pixel starts with its own raster index as identifier.
    [relax] replaces the identifier of every pixel by the least identifier
    among the equal-valued pixels of its window; [sweep] passes over the
    image once in raster order and hands the identifiers on along the rows
    and from each row to the next, which saves rounds.  [settle] repeats
    the two until nothing changes.  Each component then carries the index
    of its first pixel, and [rank] numbers the components 1, 2, ... in that
    order. *)

Abbreviation cell := (Z * Z)%type.
Abbreviation grid := (list (list cell)).

Definition idx (w : nat) (p : pos) : Z :=
  Z.of_nat p.1 * Z.of_nat w + Z.of_nat p.2 + 1.

Definition init_grid (a : image) : grid :=
  let w := width a in
  imap (λ r row, imap (λ c v, (v, if decide (v = 0) then 0 else idx w (r, c))) row) a.

Fixpoint zpad {A B} (f : A → option B → A) (l : list A) (k : list B) : list A :=
  match l with
  | [] => []
  | x :: l' => f x (head k) :: zpad f l' (tail k)
  end.

Definition shr {A} (k : list A) : list A :=
  match k with [] => [] | x :: _ => x :: k end.

Definition pull (x : cell) (o : option cell) : cell :=
  match o with
  | Some y => if decide (y.1 = x.1) then (x.1, Z.min x.2 y.2) else x
  | None => x
  end.

Definition absorb (x : cell) (os : list (option cell)) : cell :=
  foldr (λ o acc, pull acc o) x os.

Definition around (g : grid) (r : nat) : list (list cell) :=
  let up := row_of g (pred r) in
  let mid := row_of g r in
  let down := row_of g (S r) in
  [shr up; up; tail up; shr mid; mid; tail mid; shr down; down; tail down].

Definition relax (g : grid) : grid :=
  imap (λ r row, foldr (λ k acc, zpad pull acc k) row (around g r)) g.

Fixpoint run_right (prev : option cell) (row : list cell) : list cell :=
  match row with
  | [] => []
  | x :: rest => let x' := pull x prev in x' :: run_right (Some x') rest
  end.

Fixpoint run_down (prev : list cell) (g : grid) : grid :=
  match g with
  | [] => []
  | row :: g' =>
      let row' :=
        run_right None (foldr (λ k acc, zpad pull acc k) row [shr prev; prev; tail prev]) in
      row' :: run_down row' g'
  end.

Definition sweep (g : grid) : grid := run_down [] g.

Definition step (g : grid) : grid := relax (sweep g).

Fixpoint settle (d : nat) (g : grid) : grid * bool :=
  match d with
  | O => let g' := step g in (g', bool_decide (g' = g))
  | S d' => let '(g1, ok) := settle d' g in
            if ok then (g1, true) else settle d' g1
  end.

Definition total (g : grid) : Z :=
  foldr (λ row s, foldr (λ x t, x.2 + t) 0 row + s) 0 g.

Definition is_root (w : nat) (g : grid) (p : pos) : Prop :=
  snd <$> px g p = Some (idx w p).

#[global] Instance is_root_dec w g p : Decision (is_root w g p).
Proof. unfold is_root. apply _. Defined.

Definition roots (w : nat) (g : grid) : list Z :=
  idx w <$> filter (is_root w g) (positions g).

Definition rank (rs : list Z) (x : cell) : Z :=
  if decide (x.1 = 0) then 0
  else Z.of_nat (length (filter (λ y, y < x.2) rs)) + 1.

Definition label (a : image) : image :=
  let g0 := init_grid a in
  let d := Z.to_nat (Z.log2_up (Z.succ (total g0))) in
  let g := (settle d g0).1 in
  let rs := roots (width a) g in
  amap (rank rs) g.

(** The settled grid of an image. *)
Definition settled (a : image) : grid :=
  (settle (Z.to_nat (Z.log2_up (Z.succ (total (init_grid a))))) (init_grid a)).1.

(** One cell against another: the same value and an identifier that is not
    larger. *)
Definition below (x y : cell) : Prop := x.1 = y.1 ∧ x.2 ≤ y.2.

(** What the relaxation maintains for the cell [x] at position [p]. *)
Definition okcell (a : image) (p : pos) (x : cell) : Prop :=
  px a p = Some x.1 ∧
  (x.1 = 0 → x.2 = 0) ∧
  (x.1 ≠ 0 → ∃ q, connected a p q ∧ x.2 = idx (width a) q).

(** The invariant of the relaxation: the grid keeps the pixel values, a
    background cell has identifier 0 and a foreground cell has the index of
    a pixel of its own component. *)
Definition sound (a : image) (g : grid) : Prop :=
  amap fst g = a ∧
  ∀ p x, px g p = Some x →
    (x.1 = 0 → x.2 = 0) ∧
    (x.1 ≠ 0 → ∃ q, connected a p q ∧ x.2 = idx (width a) q).

(** Labels are the consecutive integers 1..n, each of them used. *)
Definition consecutive (a : image) : Prop :=
  ∃ n : nat,
    (∀ p v, px a p = Some v → 0 ≤ v ≤ Z.of_nat n) ∧
    (∀ k, 1 ≤ k ≤ Z.of_nat n → ∃ p, px a p = Some k).

(** Every label is a single 8-connected piece. *)
Definition one_piece (a : image) : Prop :=
  ∀ p q v, v ≠ 0 → px a p = Some v → px a q = Some v → connected a p q.

(** * NumPy operations used by the post-processing code *)

(** A NumPy array as the code tells them apart: [marker.dtype != bool]. *)
Inductive ndarray :=
  | IntArray (a : image)
  | BoolArray (m : bmask).

(** Python exceptions.  [Fault] is no Python exception: it marks what the
    embedding does not cover (an address with no array behind it, an array
    that is not two-dimensional). *)
Inductive exn :=
  | ValueError (msg : string)
  | IndexError (msg : string)
  | TypeError (msg : string)
  | KeyError (key : string)
  | UnboundLocalError (name : string)
  | Fault (what : string).

Abbreviation result A := (exn + A)%type.

Definition zip2 {A B C} (f : A → B → C) (a : list (list A)) (b : list (list B))
  : list (list C) := zip_with (zip_with f) a b.

(** [a == v] and [a > v] *)
Definition np_eq (a : image) (v : Z) : bmask := amap (λ x, bool_decide (x = v)) a.
Definition np_gt (a : image) (v : Z) : bmask := amap (λ x, bool_decide (v < x)) a.

(** ** Broadcasting

    A binary operation on two arrays of different shapes stretches every
    axis of length one to the length of the other operand's axis and
    raises when an axis differs otherwise.  The shape of an array of the
    embedding is (number of rows, length of the longest row); the array
    without rows stands for the shape (0, 0). *)
Definition bcast_len (n m : nat) : option nat :=
  if decide (n = m) then Some n
  else if decide (n = 1%nat) then Some m
  else if decide (m = 1%nat) then Some n
  else None.

Definition stretch {A} (n : nat) (l : list A) : list A :=
  match l with
  | [x] => replicate n x
  | _ => l
  end.

Definition broadcast_to {A} (rows cols : nat) (a : list (list A)) : list (list A) :=
  stretch rows (stretch cols <$> a).

Definition broadcast2 {A B C} (f : A → B → C) (a : list (list A)) (b : list (list B))
  : result (list (list C)) :=
  if decide (shape a = shape b) then inr (zip2 f a b)
  else
    match bcast_len (length a) (length b), bcast_len (width a) (width b) with
    | Some rows, Some cols =>
        inr (zip2 f (broadcast_to rows cols a) (broadcast_to rows cols b))
    | _, _ => inl (ValueError "operands could not be broadcast together")
    end.

(** [m1 & m2], [m1 * m2] and [np.logical_or] on boolean arrays. *)
Definition np_and (m1 m2 : bmask) : result bmask := broadcast2 andb m1 m2.

Definition np_or (m1 m2 : bmask) : result bmask := broadcast2 orb m1 m2.

(** [np.sum(m)] of a boolean array, [np.any(m)] *)
Definition np_sum (m : bmask) : Z :=
  foldr (λ row s, foldr (λ (b : bool) t, (if b then 1 else 0) + t) 0 row + s) 0 m.
Definition np_any (m : bmask) : bool := existsb (existsb id) m.

(** [a[m] = v] with a boolean mask [m] *)
Definition setitem (m : bmask) (v : Z) (a : image) : result image :=
  if decide (shape m = shape a)
  then inr (zip2 (λ x (b : bool), if b then v else x) a m)
  else inl (IndexError "boolean index did not match indexed array").

(** [a[i] = v] with an integer array [i]: NumPy's integer-array indexing
    selects along the first axis, so every entry of [i] names a row of [a]
    (negative entries count from the end) and that whole row is set. *)
Definition row_index (h : nat) (i : Z) : option nat :=
  if decide (0 ≤ i < Z.of_nat h) then Some (Z.to_nat i)
  else if decide (- Z.of_nat h ≤ i < 0) then Some (Z.to_nat (i + Z.of_nat h))
  else None.

Definition setitem_rows (i : image) (v : Z) (a : image) : result image :=
  match mapM (row_index (length a)) (concat i) with
  | None => inl (IndexError "index is out of bounds for axis 0")
  | Some rows =>
      inr (imap (λ r row, if decide (r ∈ rows) then replicate (length row) v else row) a)
  end.

(** [np.unique(a)]: the values of [a], ascending and without repetition. *)
Fixpoint insert_sorted (x : Z) (l : list Z) : list Z :=
  match l with
  | [] => [x]
  | y :: l' =>
      if decide (x < y) then x :: l
      else if decide (x = y) then l
      else y :: insert_sorted x l'
  end.

Definition np_unique (a : image) : list Z := foldr insert_sorted [] (concat a).

(** [np.max] of a one-dimensional array *)
Definition np_max (l : list Z) : result Z :=
  match l with
  | [] => inl (ValueError "zero-size array to reduction operation maximum which has no identity")
  | x :: l' => inr (foldr Z.max x l')
  end.

(** ** Integer dtypes

    The arrays of the embedding hold their entries as integers.  Where the
    code computes with a NumPy scalar taken from an array, the dtype of the
    array decides the result: integer arithmetic on such scalars wraps
    around at the bounds of the dtype (NumPy 2 keeps the dtype of the scalar
    when a Python integer is added to it), and so does a cast to a narrower
    dtype. *)
Inductive dtype := U8 | U16 | U32 | U64 | I8 | I16 | I32 | I64.

Definition dtype_min (dt : dtype) : Z :=
  match dt with
  | U8 | U16 | U32 | U64 => 0
  | I8 => - 2 ^ 7
  | I16 => - 2 ^ 15
  | I32 => - 2 ^ 31
  | I64 => - 2 ^ 63
  end.

Definition dtype_max (dt : dtype) : Z :=
  match dt with
  | U8 => 2 ^ 8 - 1
  | U16 => 2 ^ 16 - 1
  | U32 => 2 ^ 32 - 1
  | U64 => 2 ^ 64 - 1
  | I8 => 2 ^ 7 - 1
  | I16 => 2 ^ 15 - 1
  | I32 => 2 ^ 31 - 1
  | I64 => 2 ^ 63 - 1
  end.

(** The value of the dtype that is congruent to [v] modulo the number of
    values of the dtype. *)
Definition wrap (dt : dtype) (v : Z) : Z :=
  (v - dtype_min dt) mod (dtype_max dt - dtype_min dt + 1) + dtype_min dt.

(** [a.astype(np.uint16)] and [m.astype(int)] *)
Definition uint16 (v : Z) : Z := v mod 65536.
Definition astype_uint16 (a : image) : image := amap uint16 a.
Definition astype_int (m : bmask) : image := amap (λ b : bool, if b then 1 else 0) m.

(** ** scikit-image *)

(** The regions of a label image: one per positive value that occurs in
    it, in ascending order.  A region is identified by its label; its
    [area] is the number of pixels that hold the label. *)
Definition regionprops (a : image) : list Z := filter (λ v, 0 < v) (np_unique a).
Definition area (a : image) (l : Z) : Z := np_sum (np_eq a l).

(** [measure.regionprops(a)]: the regions of [a].  On an array without
    elements the search for the objects ([ndimage.find_objects]) takes the
    maximum of the array and raises. *)
Definition measure_regionprops (a : image) : result (list Z) :=
  if decide (np_size a = 0%nat)
  then inl (ValueError "zero-size array to reduction operation maximum which has no identity")
  else inr (regionprops a).

(** [dilation(a, square(n))] for odd [n]: the maximum over the n x n
    window around each pixel, the window being cut at the border of the
    image. *)
Definition span {A} (k i : nat) (l : list A) : list A :=
  take (i + k + 1 - (i - k)) (drop (i - k) l).

Definition max_list (l : list Z) : Z :=
  match l with [] => 0 | x :: l' => foldr Z.max x l' end.

Definition dilation (a : image) (n : nat) : image :=
  let k := (n / 2)%nat in
  imap (λ r row,
    imap (λ c _, max_list ((λ row', max_list (span k c row')) <$> span k r a)) row) a.

(** ** Overlap ratios

    [np.sum(x) / np.sum(y)] is a floating-point quotient of two counts; the
    embedding keeps the exact rational and the two special values. *)
Inductive ratio :=
  | Fin (q : Q)
  | Inf
  | Nan.

Definition np_divide (n d : Z) : ratio :=
  if decide (d = 0) then (if decide (n = 0) then Nan else Inf)
  else Fin (inject_Z n / inject_Z d)%Q.

Definition ratio_pos (x : ratio) : bool :=
  match x with Fin q => negb (Qle_bool q 0) | Inf => true | Nan => false end.
Definition ratio_le (x : ratio) (m : Q) : bool :=
  match x with Fin q => Qle_bool q m | _ => false end.

(** * The store

    Arrays live in a store and are passed by address, so that an in-place
    assignment is visible through every alias.  [copy], [deepcopy],
    [astype] and [label] allocate a new array. *)

Abbreviation loc := nat.
Abbreviation heap := (list image).

Definition M (A : Type) : Type := heap → result A * heap.

#[global] Instance M_ret : MRet M := λ A x h, (inr x, h).
#[global] Instance M_bind : MBind M := λ A B f m h,
  match m h with
  | (inr x, h') => f x h'
  | (inl e, h') => (inl e, h')
  end.

Definition raise {A} (e : exn) : M A := λ h, (inl e, h).
Definition lift {A} (x : result A) : M A := λ h, (x, h).

Definition new (a : image) : M loc := λ h, (inr (length h), h ++ [a]).
Definition load (l : loc) : M image := λ h,
  match h !! l with
  | Some a => (inr a, h)
  | None => (inl (Fault "no array at this address"), h)
  end.
Definition store (l : loc) (a : image) : M unit := λ h, (inr tt, <[l := a]> h).

(** An in-place update [x[...] = v] of the array at [l]. *)
Definition update (l : loc) (f : image → result image) : M unit :=
  a ← load l; a' ← lift (f a); store l a'.

(** [for x in xs: body], with the variables the body reassigns threaded
    through as [s]. *)
Fixpoint for_each {A S} (xs : list A) (s : S) (body : A → S → M S) : M S :=
  match xs with
  | [] => mret s
  | x :: xs' => s' ← body x s; for_each xs' s' body
  end.

(** * postprocessing.py *)

(** Python's [l[start:stop]] *)
Definition py_bound (len i : Z) : Z :=
  if decide (i < 0) then Z.max (i + len) 0 else Z.min i len.

Definition py_slice {A} (l : list A) (start stop : Z) : list A :=
  let len := Z.of_nat (length l) in
  let i := py_bound len start in
  let j := py_bound len stop in
  take (Z.to_nat (j - i)) (drop (Z.to_nat i) l).

(** Modelled from the spec: [net_utils.utils.get_nucleus_ids], which is not
    among the sources.  It yields the region ids of a label image, that is
    its positive values, ascending and each once. *)
Definition get_nucleus_ids (a : image) : list Z := filter (λ v, 0 < v) (np_unique a).

Definition foi_margin (cell_type : string) : Z :=
  if decide (cell_type ∈ ["DIC-C2DH-HeLa"%string; "Fluo-C2DL-Huh7"%string; "Fluo-C2DL-MSC"%string;
                          "Fluo-C3DH-H157"%string; "Fluo-N2DH-GOWT1"%string; "Fluo-N3DH-CE"%string;
                          "Fluo-N3DH-CHO"%string; "PhC-C2DH-U373"%string])
  then 50
  else if decide (cell_type ∈ ["BF-C2DL-HSC"%string; "BF-C2DL-MuSC"%string; "Fluo-C3DL-MDA231"%string;
                               "Fluo-N2DL-HeLa"%string; "PhC-C2DL-PSC"%string])
  then 25
  else 0.

(** [foi_correction], for the two-dimensional masks of the embedding
    ([len(mask.shape) == 2]).  [mask] is updated in place and returned. *)
Definition foi_correction (mask : loc) (cell_type : string) : M loc :=
  let E := foi_margin cell_type in
  a ← load mask;
  let foi :=
    (λ row, py_slice row E (Z.of_nat (width a) - E))
      <$> py_slice a E (Z.of_nat (length a) - E) in
  let ids_foi := get_nucleus_ids foi in
  let ids_prediction := get_nucleus_ids a in
  for_each ids_prediction tt (λ id_prediction _,
    if decide (id_prediction ∉ ids_foi)
    then cur ← load mask; update mask (setitem (np_eq cur id_prediction) 0)
    else mret tt);;
  mret mask.

(** [get_minimum_area_to_remove]: the value computed from the areas is
    overwritten by the constant of the last assignment. *)
Definition np_mean (l : list Z) : Q :=
  Qdiv (inject_Z (foldr Z.add 0 l)) (inject_Z (Z.of_nat (length l))).

Definition get_minimum_area_to_remove (connected_components : image) (percentage : Q)
  : result Q :=
  if decide (np_size connected_components = 0%nat)
  then inl (ValueError "connected_components cannot be empty")
  else
    match measure_regionprops connected_components with
    | inl e => inl e
    | inr props =>
        let areas := area connected_components <$> props in
        let min_area :=
          if existsb (λ x, negb (Z.eqb x 0)) areas
          then Qmult percentage (np_mean areas) else 0%Q in
        let min_area := Qmax min_area 4%Q in
        let min_area := 30%Q in
        inr min_area
    end.

(** [remove_smaller_areas] *)
Definition remove_smaller_areas (seeds : loc) (area_threshold : Q) : M loc :=
  s ← load seeds;
  if decide (np_size s = 0%nat) then raise (ValueError "seeds cannot be empty")
  else if Qlt_le_dec area_threshold 0
  then raise (ValueError "area_threshold must be a non-negative integer")
  else
    props ← lift (measure_regionprops s);
    filtered_seeds ← new s;
    for_each props tt (λ prop _,
      s ← load seeds;
      if Qle_bool (inject_Z (area s prop)) area_threshold
      then cur ← load filtered_seeds;
           update filtered_seeds (setitem (np_eq cur prop) 0)
      else mret tt);;
    f ← load filtered_seeds;
    new (label f).

(** [refine_objects_by_overlapping] *)
Definition refine_objects_by_overlapping (base_image refiner_image : loc)
    (max_cell_area : Z) : M loc :=
  b ← load base_image;
  refined_image ← new b;
  r ← load refiner_image;
  let refiner_mask := np_gt r 0 in
  start ← load refined_image;
  props ← lift (measure_regionprops start);
  for_each props tt (λ region_prop _,
    cur ← load refined_image;
    if decide (area cur region_prop < max_cell_area) then
      let current_label_mask := np_eq cur region_prop in
      overlap_mask ← lift (np_and current_label_mask refiner_mask);
      if np_any overlap_mask then
        update refined_image (setitem current_label_mask 0);;
        update refined_image (setitem overlap_mask region_prop)
      else
        update refined_image (setitem current_label_mask 0)
    else mret tt);;
  mret refined_image.

(** [get_maximum_label] *)
Definition get_maximum_label (image : image) : result Z :=
  let unique_labels := np_unique image in
  np_max unique_labels.

(** [get_overlapping_components]: the loop over [unique_labels], which
    returns at the first label that passes the test. *)
Fixpoint scan_overlapping (labels : image) (marker : bmask)
    (maximum_cells_overlap : Q) (unique_labels : list Z)
  : result (option (Z * bmask * ratio)) :=
  match unique_labels with
  | [] => inr None
  | label_value :: rest =>
      if decide (label_value = 0)
      then scan_overlapping labels marker maximum_cells_overlap rest
      else
        let current_image_mask := np_eq labels label_value in
        match np_and current_image_mask marker with
        | inl e => inl e
        | inr both =>
            let overlap_ratio := np_divide (np_sum both) (np_sum marker) in
            if ratio_pos overlap_ratio && ratio_le overlap_ratio maximum_cells_overlap
               && bool_decide (4000 ≤ np_sum current_image_mask)
            then inr (Some (label_value, current_image_mask, overlap_ratio))
            else scan_overlapping labels marker maximum_cells_overlap rest
        end
  end.

Definition get_overlapping_components (original_image : image) (marker : ndarray)
    (maximum_cells_overlap : Q) : result (option (Z * bmask * ratio)) :=
  match marker with
  | IntArray _ => inl (ValueError "Mask of the marker has to be boolean.")
  | BoolArray marker =>
      let labels := label original_image in
      let unique_labels := uint16 <$> np_unique labels in
      scan_overlapping labels marker maximum_cells_overlap unique_labels
  end.

(** [get_nuclei_connected_components] *)
Fixpoint scan_nuclei (labels : image) (marker : bmask)
    (minimum_component_dim : Z) (unique_labels : list Z)
  : result (option (Z * bmask * ratio)) :=
  match unique_labels with
  | [] => inr None
  | label_value :: rest =>
      if decide (label_value = 0)
      then scan_nuclei labels marker minimum_component_dim rest
      else
        let current_image_mask := np_eq labels label_value in
        match np_and current_image_mask marker with
        | inl e => inl e
        | inr both =>
            let overlap_ratio := np_divide (np_sum both) (np_sum marker) in
            if ratio_pos overlap_ratio
               && bool_decide (minimum_component_dim ≤ np_sum current_image_mask)
            then inr (Some (label_value, current_image_mask, overlap_ratio))
            else scan_nuclei labels marker minimum_component_dim rest
        end
  end.

Definition get_nuclei_connected_components (original_image : image) (marker : ndarray)
    (minimum_component_dim : Z) : result (option (Z * bmask * ratio)) :=
  match marker with
  | IntArray _ => inl (ValueError "Mask of the marker has to be boolean.")
  | BoolArray marker =>
      let labels := label original_image in
      let unique_labels := uint16 <$> np_unique labels in
      scan_nuclei labels marker minimum_component_dim unique_labels
  end.

(** [add_objects_by_overlapping].  [dt] is the dtype of [base_image], which
    the working copy [image] shares: [next_usable_label] is a scalar of that
    dtype, and adding 1 to it wraps around at the bounds of the dtype.
    [add_objects_body] is the body of the loop for one region [reg_prop]; it
    returns the next usable label.  The calls of [save_image] write files
    and have no effect on the arrays. *)
Definition add_objects_body (dt : dtype) (image single_channel_image : loc) (mask : bmask)
    (cells_overlap : Q) (min_cell_area : Z) (reg_prop next_usable_label : Z) : M Z :=
  sc ← load single_channel_image;
  let current_mask := np_eq sc reg_prop in
  overlap_mask ← lift (np_and current_mask mask);
  if decide (0 < np_sum overlap_mask) then
    cur ← load image;
    found ← lift (get_overlapping_components cur (BoolArray current_mask) cells_overlap);
    match found with
    | None => mret next_usable_label
    | Some (component_label, component_mask, overlap_ratio) =>
        if decide (min_cell_area ≤ np_sum component_mask) then
          let dilated_current_mask := dilation (astype_int current_mask) 9 in
          update image (setitem_rows dilated_current_mask 0);;
          update image (setitem current_mask next_usable_label);;
          mret (wrap dt (next_usable_label + 1))
        else mret next_usable_label
    end
  else
    update image (setitem current_mask next_usable_label);;
    mret (wrap dt (next_usable_label + 1)).

Definition add_objects_by_overlapping (dt : dtype) (base_image single_channel_image : loc)
    (cells_overlap : Q) (min_cell_area : Z) : M loc :=
  b ← load base_image;
  image ← new b;
  start ← load image;
  let mask := np_gt start 0 in
  max_label ← lift (get_maximum_label b);
  let next_usable_label := wrap dt (max_label + 1) in
  sc ← load single_channel_image;
  props ← lift (measure_regionprops sc);
  for_each props next_usable_label
    (add_objects_body dt image single_channel_image mask cells_overlap min_cell_area);;
  w ← load image;
  new (label w).

(** [add_nuclei_by_overlapping], with the dtype [dt] of [base_image] as
    above.  [component_label] is a scalar of [np.uint16]; the assignment
    casts it to the dtype of the working copy. *)
Definition add_nuclei_by_overlapping (dt : dtype) (base_image single_channel_image : loc)
    (cells_overlap : Q) (min_cell_area : Z) : M loc :=
  b ← load base_image;
  image ← new b;
  start ← load image;
  let mask := np_gt start 0 in
  max_label ← lift (get_maximum_label b);
  let next_usable_label := wrap dt (max_label + 1) in
  sc ← load single_channel_image;
  props ← lift (measure_regionprops sc);
  for_each props next_usable_label (λ reg_prop next_usable_label,
    sc ← load single_channel_image;
    let current_mask := np_eq sc reg_prop in
    overlap_mask ← lift (np_and current_mask mask);
    if decide (0 < np_sum overlap_mask) then
      cur ← load image;
      found ← lift (get_nuclei_connected_components cur (BoolArray current_mask) min_cell_area);
      match found with
      | Some (component_label, component_mask, overlap_ratio) =>
          final_mask ← lift (np_or component_mask current_mask);
          update image (setitem final_mask (wrap dt component_label));;
          mret next_usable_label
      | None => mret next_usable_label
      end
    else
      update image (setitem current_mask next_usable_label);;
      mret (wrap dt (next_usable_label + 1)));;
  w ← load image;
  new (label w).

(** ** Fusion *)

(** A prediction of the network: an array of probabilities with a leading
    channel axis.  The values are kept as exact rationals; the code only
    compares them with a threshold.  Predictions are never assigned to, so
    they are passed by value. *)
Abbreviation prediction := (list (list (list Q))).

(** The dictionaries handed to [fusion_post_processing]. *)
Abbreviation pydict := (gmap string prediction).

Definition getitem (d : pydict) (key : string) : M prediction :=
  match d !! key with
  | Some v => mret v
  | None => raise (KeyError key)
  end.

(** [np.squeeze] drops the axes of length one.  On an array of the
    embedding without such an axis it is the identity. *)
Definition has_unit_axis {A} (a : list (list A)) : bool :=
  bool_decide (length a = 1%nat) || bool_decide (a ≠ [] ∧ width a = 1%nat).

(** [simple_binary_mask_post_processing].  [original_image] and [args] are
    not used by the code.  A mask with a unit axis is squeezed to fewer than
    two dimensions.  With no dimension left (a channel of one pixel)
    [measure.label] refuses the array; with one dimension left it labels
    the array, [remove_smaller_areas] makes its two checks and
    [regionprops] refuses the array. *)
Definition simple_binary_mask_post_processing {Args} (mask original_image : prediction)
    (args : Args) (denoise : bool) (areas_to_remove : Q) : M loc :=
  let threshold := (2 # 10)%Q in
  let binary_ch := 1%nat in
  match mask !! binary_ch with
  | None => raise (IndexError "index 1 is out of bounds for axis 0")
  | Some channel =>
      let processed_mask := amap (λ x, negb (Qle_bool x threshold)) channel in
      if has_unit_axis processed_mask then
        if decide (shape processed_mask = [1%nat])
        then raise (ValueError "Connectivity for 0D image should be in [1, ..., 0]. Got 0.")
        else if negb denoise then raise (Fault "array with fewer than two dimensions")
        else if decide (np_size processed_mask = 0%nat)
        then raise (ValueError "seeds cannot be empty")
        else if Qlt_le_dec areas_to_remove 0
        then raise (ValueError "area_threshold must be a non-negative integer")
        else raise (TypeError "Only 2-D and 3-D images supported.")
      else
        prediction_instance ← new (label (astype_int processed_mask));
        prediction_instance ←
          (if denoise then remove_smaller_areas prediction_instance areas_to_remove
           else mret prediction_instance);
        a ← load prediction_instance;
        new (astype_uint16 a)
  end.

(** [fusion_post_processing].  [refined_evs_prediction] is a local variable
    that only the branch of [just_evs] assigns; reading it unassigned is an
    [UnboundLocalError].  The base image of [add_nuclei_by_overlapping] comes
    from the cast to [np.uint16]; the one of [add_objects_by_overlapping] is
    the copy that [refine_objects_by_overlapping] makes of the result of
    [measure.label], an array of [np.int64]. *)
Definition fusion_post_processing {Args} (prediction_dict sc_prediction_dict
    nuclei_prediction_dict : pydict) (args : Args) (just_evs : bool) : M (loc * loc) :=
  original_image ← getitem prediction_dict "original_image";
  sc_original_image ← getitem sc_prediction_dict "original_image";
  nuclei_original_image ← getitem nuclei_prediction_dict "original_image";
  mask ← getitem prediction_dict "mask";
  sc_mask ← getitem sc_prediction_dict "mask";
  nuclei_mask ← getitem nuclei_prediction_dict "mask";
  prediction_instance ←
    simple_binary_mask_post_processing mask original_image args true 30%Q;
  refined_evs_prediction ←
    (if just_evs then
       sc_prediction_instance ←
         simple_binary_mask_post_processing sc_mask sc_original_image args true 30%Q;
       nuclei_prediction_instance ←
         simple_binary_mask_post_processing nuclei_mask nuclei_original_image args true 1000%Q;
       prediction_instance ←
         add_nuclei_by_overlapping U16 prediction_instance nuclei_prediction_instance
           100%Q 1000;
       processed_prediction ←
         refine_objects_by_overlapping prediction_instance sc_prediction_instance 1000;
       refined_evs_prediction ←
         add_objects_by_overlapping I64 processed_prediction sc_prediction_instance
           1%Q 1000;
       mret (Some refined_evs_prediction)
     else mret None);
  match refined_evs_prediction with
  | None => raise (UnboundLocalError "refined_evs_prediction")
  | Some refined_evs_prediction =>
      a ← load refined_evs_prediction;
      first ← new (astype_uint16 a);
      a ← load refined_evs_prediction;
      second ← new (astype_uint16 a);
      mret (first, second)
  end.

(** * Notions used in the statements *)

(** The formula of the specification: the larger of 4 and [percentage]
    times the mean region area. *)
Definition computeMinimumArea_formula (a : image) (percentage : Q) : Q :=
  Qmax 4%Q (Qmult percentage (np_mean (area a <$> regionprops a))).

(** [m] leaves the first [n] arrays of the store as they are, and every
    value it returns satisfies [Q]. *)
Definition frame {A} (n : nat) (m : M A) (Q : A → Prop) : Prop :=
  ∀ h, (n ≤ length h)%nat →
    (length h ≤ length (m h).2)%nat ∧
    (∀ l, (l < n)%nat → (m h).2 !! l = h !! l) ∧
    (∀ x, (m h).1 = inr x → Q x).

(** Set to 0 the pixels whose value is in [dead]. *)
Definition erase (dead : Z → Prop) `{∀ v, Decision (dead v)} (a : image) : image :=
  amap (λ v, if decide (dead v) then 0 else v) a.

(** [a[a == v] = w] *)
Definition recolor (v w : Z) (a : image) : image :=
  amap (λ x, if decide (x = v) then w else x) a.

(** The inset of [foi_correction]: the positions at least [E] away from
    every border of the image. *)
Definition in_inset (E : Z) (a : image) (p : pos) : Prop :=
  E ≤ Z.of_nat p.1 < Z.of_nat (length a) - E ∧
  E ≤ Z.of_nat p.2 < Z.of_nat (width a) - E.

(** A label image holds no negative value. *)
Definition nonneg (a : image) : Prop := ∀ p v, px a p = Some v → 0 ≤ v.

(** The regions that [remove_smaller_areas] deletes. *)
Definition too_small (s : image) (area_threshold : Q) (v : Z) : Prop :=
  v ∈ regionprops s ∧ Qle_bool (inject_Z (area s v)) area_threshold = true.

#[global] Instance too_small_dec s area_threshold v : Decision (too_small s area_threshold v).
Proof. unfold too_small. apply _. Defined.

(** The array at [l] satisfies [P]. *)
Definition holds (l : loc) (P : image → Prop) (h : heap) : Prop :=
  ∃ a, h !! l = Some a ∧ P a.

(** [m] maintains [P] on the array at [l]. *)
Definition keeps {A} (l : loc) (P : image → Prop) (m : M A) : Prop :=
  ∀ h, holds l P h → holds l P (m h).2.

(** Every pixel of [a] is 0 or holds what [b] holds there. *)
Definition thinned (b a : image) : Prop :=
  shape a = shape b ∧ ∀ p v, px a p = Some v → v = 0 ∨ px b p = Some v.

(** The reading of "one connected component of the non-zero pixels": two
    foreground pixels carry the same label exactly when a path of non-zero
    pixels joins them. *)
Definition whole_components (a : image) : Prop :=
  ∀ p q v w, px a p = Some v → px a q = Some w → v ≠ 0 → w ≠ 0 →
    (v = w ↔ connected (astype_int (np_gt a 0)) p q).

(** Checks that decide the two conditions of a label image. *)
Definition nonneg_b (s : image) : bool :=
  forallb (forallb (λ v, bool_decide (0 ≤ v))) s.

Definition one_piece_b (s : image) : bool :=
  let out := label s in
  let ps := positions s in
  forallb (λ p, forallb (λ q,
    implb (bool_decide (px s p = px s q)) (bool_decide (px out p = px out q))) ps) ps.

(** ** The overlap query *)

(** The overlap ratio of the component [l] of [labels] with the marker, and
    the test the loop of [get_overlapping_components] makes on it. *)
Definition overlap_ratio (labels : image) (marker : bmask) (l : Z) : ratio :=
  np_divide (np_sum (zip2 andb (np_eq labels l) marker)) (np_sum marker).

Definition passes (labels : image) (marker : bmask) (maximum_cells_overlap : Q)
    (l : Z) : bool :=
  ratio_pos (overlap_ratio labels marker l)
  && ratio_le (overlap_ratio labels marker l) maximum_cells_overlap
  && bool_decide (4000 ≤ area labels l).

(** The relabelled image has fewer than 2^16 labels, so that the cast of
    the labels to [np.uint16] changes none of them. *)
Definition few_components (a : image) : Prop :=
  ∀ p v, px (label a) p = Some v → v < 65536.

Definition few_components_b (a : image) : bool :=
  forallb (forallb (λ v, bool_decide (v < 65536))) (label a).

(** Every value of [a] is below [next_usable_label], so that this label is
    new to [a]. *)
Definition labels_below (next_usable_label : Z) (a : image) : Prop :=
  ∀ p v, px a p = Some v → v < next_usable_label.

Definition labels_below_b (next_usable_label : Z) (a : image) : bool :=
  forallb (forallb (λ v, bool_decide (v < next_usable_label))) a.

(** The specification's reading of the query: the first label of the label
    image itself, in ascending order, whose region passes the test. *)
Definition findOverlappingComponent_spec (a : image) (marker : bmask)
    (maximum_cells_overlap : Q) : option Z :=
  head (filter (λ l, passes a marker maximum_cells_overlap l = true) (regionprops a)).

(** Test images. *)
Definition full (rows cols : nat) (v : Z) : image := replicate rows (replicate cols v).
Definition full_mask (rows cols : nat) (b : bool) : bmask :=
  replicate rows (replicate cols b).

(** The image of [rows] x [cols] zeros with the value [v] at position [p]. *)
Definition dot (rows cols : nat) (p : pos) (v : Z) : image :=
  imap (λ r row, imap (λ c x, if decide ((r, c) = p) then v else x) row) (full rows cols 0).

(** Inputs on which the adding passes are run below.  [host64] is one cell
    of 4096 pixels, [speck64] a one-pixel object on top of it. *)
Definition host64 : image := full 64 64 1.
Definition speck64 : image := dot 64 64 (32, 32)%nat 1.

(** [host32] is one cell of 1024 pixels below two empty rows; [nuclei32]
    holds two nuclei: region 1 is the pixel (1, 0), which touches the cell
    without overlapping it, and region 2 is the pixel (10, 10) inside the
    cell. *)
Definition host32 : image := full 2 32 0 ++ full 32 32 1.
Definition nuclei32 : image :=
  [replicate 32 0] ++ [1 :: replicate 31 0] ++ full 8 32 0
  ++ [replicate 10 0 ++ 2 :: replicate 21 0] ++ full 23 32 0.

(** The image of [rows] x [cols] zeros with a block of [n] x [n] pixels of
    value [v] whose top left corner is [p]. *)
Definition block (p : pos) (n : nat) (v : Z) (a : image) : image :=
  imap (λ r row, imap (λ c x,
    if decide (p.1 ≤ r < p.1 + n ∧ p.2 ≤ c < p.2 + n)%nat then v else x) row) a.

(** A 100 x 100 label image with a region of 10 x 10 pixels at (50, 50)
    and a region of 5 x 5 pixels at (1, 1). *)
Definition foi_example : image :=
  block (1, 1)%nat 5 2 (block (50, 50)%nat 10 1 (full 100 100 0)).

(** A small label image with three regions of 2, 2 and 3 pixels. *)
Definition three_regions : image := [[1; 1; 0; 2]; [0; 0; 0; 2]; [3; 3; 3; 0]].

(** Predictions of 2 x 2 pixels, with the mask in channel 1. *)
Definition demo_dict : pydict :=
  {[ "original_image"%string := [[[0%Q; 0%Q]; [0%Q; 0%Q]]];
     "mask"%string := [[[0%Q; 0%Q]; [0%Q; 0%Q]]; [[1%Q; 1%Q]; [1%Q; 0%Q]]] ]}.

(** * The remaining helpers of postprocessing.py *)

(** [np.any(mask_current_label & mask)].  The mask may be boolean or
    integer: with an integer array the boolean operand is promoted to 0 and
    1 and [&] is the bitwise and, of which [np.any] tests whether some entry
    is not zero. *)
Definition any_overlap (mask_current_label : bmask) (mask : ndarray) : result bool :=
  match mask with
  | BoolArray m =>
      match np_and mask_current_label m with
      | inl e => inl e
      | inr both => inr (np_any both)
      end
  | IntArray m =>
      match broadcast2 (λ (b : bool) v, Z.land (if b then 1 else 0) v)
              mask_current_label m with
      | inl e => inl e
      | inr both => inr (existsb (existsb (λ v, negb (v =? 0))) both)
      end
  end.

(** [get_partially_covered_regions]: the loop over [np.unique(labeled_image)],
    which returns at the first label whose region meets the mask. *)
Fixpoint scan_partially_covered (labeled_image : image) (mask : ndarray)
    (labels : list Z) : result (option bmask) :=
  match labels with
  | [] => inr None
  | label :: rest =>
      if decide (label = 0)
      then scan_partially_covered labeled_image mask rest
      else
        let mask_current_label := np_eq labeled_image label in
        match any_overlap mask_current_label mask with
        | inl e => inl e
        | inr overlap =>
            if overlap then inr (Some mask_current_label)
            else scan_partially_covered labeled_image mask rest
        end
  end.

Definition get_partially_covered_regions (labeled_image : image) (mask : ndarray)
  : result (option bmask) :=
  scan_partially_covered labeled_image mask (np_unique labeled_image).

(** [np.unique(a, return_counts=True)] *)
Definition np_unique_counts (a : image) : list Z * list Z :=
  let labels := np_unique a in
  (labels, (λ l, np_sum (np_eq a l)) <$> labels).

(** [np.zeros_like(a)] *)
Definition np_zeros_like (a : image) : image := amap (λ _, 0) a.

(** [filter_regions_by_size].  [stamp_filtered] is its last loop,
    [for idx, val in enumerate(filtered_counts)], on the local array
    [filtered_mask]. *)
Fixpoint stamp_filtered (mask : image) (labels : list Z) (idx : nat)
    (filtered_counts : list bool) (filtered_mask : image) : result image :=
  match filtered_counts with
  | [] => inr filtered_mask
  | val :: rest =>
      if val then
        match labels !! idx with
        | None => inl (IndexError "index is out of bounds for axis 0")
        | Some l =>
            match setitem (np_eq mask l) l filtered_mask with
            | inl e => inl e
            | inr filtered_mask => stamp_filtered mask labels (S idx) rest filtered_mask
            end
        end
      else stamp_filtered mask labels (S idx) rest filtered_mask
  end.

Definition filter_regions_by_size (mask : image) (min_dim max_dim : Z) : result image :=
  let '(labels, counts) := np_unique_counts mask in
  if decide (min_dim < 1)
  then inl (ValueError "Minimum dimension must be greater than or equal to 1.")
  else if decide (max_dim < min_dim)
  then inl (ValueError
              "Maximum dimension must be greater than or equal to minimum dimension.")
  else
    let filtered_counts :=
      (λ count, bool_decide (min_dim < count) && bool_decide (count < max_dim))
        <$> counts in
    let filtered_mask := np_zeros_like mask in
    stamp_filtered mask labels 0 filtered_counts filtered_mask.

(** * Notions used in the statements on these helpers and on the passes *)

(** The test of the loop of [get_nuclei_connected_components]. *)
Definition passes_nuclei (labels : image) (marker : bmask) (minimum_component_dim : Z)
    (l : Z) : bool :=
  ratio_pos (overlap_ratio labels marker l)
  && bool_decide (minimum_component_dim ≤ area labels l).

(** The region of [label] meets the boolean mask [m]. *)
Definition meets (labeled_image : image) (m : bmask) (label : Z) : Prop :=
  ∃ p, px labeled_image p = Some label ∧ px m p = Some true.

(** The values that [filter_regions_by_size] keeps: those held by more than
    [min_dim] and fewer than [max_dim] pixels. *)
Definition size_ok (mask : image) (min_dim max_dim : Z) (v : Z) : Prop :=
  min_dim < area mask v ∧ area mask v < max_dim.

#[global] Instance size_ok_dec mask min_dim max_dim v :
  Decision (size_ok mask min_dim max_dim v).
Proof. unfold size_ok. apply _. Defined.

(** What [refine_objects_by_overlapping] makes of the base image [b] with the
    refiner [r]: a region of fewer than [max_cell_area] pixels keeps its
    pixels on the foreground of the refiner only. *)
Definition cut_small (b : image) (max_cell_area : Z) (x y : Z) : Z :=
  if decide (0 < x ∧ area b x < max_cell_area ∧ y ≤ 0) then 0 else x.

(** The same while the loop runs: only the regions of [D] have had their
    turn. *)
Definition cut_listed (b : image) (max_cell_area : Z) (D : list Z) (x y : Z) : Z :=
  if decide (x ∈ D ∧ area b x < max_cell_area ∧ y ≤ 0) then 0 else x.

Definition refined (b r : image) (max_cell_area : Z) : image :=
  zip2 (cut_small b max_cell_area) b r.

(** No pixel is foreground in both images. *)
Definition apart (b sc : image) : Prop :=
  ∀ p x y, px b p = Some x → px sc p = Some y → 0 < x → 0 < y → False.

Definition apart_b (b sc : image) : bool :=
  forallb (forallb (λ v : bool, negb v))
    (zip2 (λ x y, bool_decide (0 < x) && bool_decide (0 < y)) b sc).

(** The base image with the regions of [sc] stamped on it, the k-th region
    (in ascending label order, from 0) with the label [next + k]. *)
Definition stamped (b sc : image) (next : Z) : image :=
  zip2 (λ x y, if decide (0 < y)
               then next + Z.of_nat (length (filter (λ v, v < y) (regionprops sc)))
               else x) b sc.

(** The same while the loop runs: only the regions of [D] have been
    stamped. *)
Definition stamped_listed (b sc : image) (next : Z) (D : list Z) : image :=
  zip2 (λ x y, if decide (y ∈ D)
               then next + Z.of_nat (length (filter (λ v, v < y) (regionprops sc)))
               else x) b sc.

(** A prediction channel that [np.squeeze] leaves two-dimensional, cut at
    the threshold 0.2 of [simple_binary_mask_post_processing]. *)
Definition thresholded (channel : list (list Q)) : bmask :=
  amap (λ x, negb (Qle_bool x (2 # 10)%Q)) channel.

(** The label image that [simple_binary_mask_post_processing] computes from
    the channel before its cast to [uint16]: the regions of the thresholded
    channel, without those of at most [T] pixels, relabelled. *)
Definition simple_labels (channel : list (list Q)) (T : Q) : image :=
  let lab := label (astype_int (thresholded channel)) in
  label (erase (too_small lab T) lab).

(** * Post-processing of the distance maps

    [border_cell_post_processing] works on arrays of floating-point numbers.
    The embedding takes them as arrays of [np.float64]: an entry is a
    binary64 number, and the arithmetic and the comparisons of the code are
    those of binary64.  The decimal constants of the code are read as Python
    reads them, rounded to the nearest binary64 number. *)

Abbreviation fimage := (list (list float)).

(** The functions of SciPy, scikit-image, OpenCV and NumPy that the code
    calls and that the embedding does not define:
    [gaussian_filter(a, sigma=0.5)], [np.tan] on one entry,
    [watershed(image=a, markers=m, mask=k, watershed_line=False)],
    [cv2.Canny(a, 1, 1) > 0] for an array [a] of [np.uint8], and [np.sum] of
    a one-dimensional array of floats. *)
Record library := {
  gaussian_filter : fimage → fimage;
  np_tan : float → float;
  watershed : fimage → image → bmask → result image;
  cv2_Canny : image → bmask;
  np_sum_floats : list float → float;
}.


(** The settings that the code reads from [args]. *)
Record wt_args := {
  th_seed : float;
  th_cell : float;
  apply_merging : bool;
}.

(** [np.clip(x, 0, 1)] on one entry ([nan] stays [nan]) *)
Definition np_clip01 (x : float) : float :=
  if (x <? 0)%float then 0%float else if (1 <? x)%float then 1%float else x.

(** [np.max(a)] of an array *)
Definition np_amax (a : image) : result Z := np_max (concat a).

(** [a.astype(np.uint8)] *)
Definition astype_uint8 (a : image) : image := amap (λ v, v mod 256) a.

(** [a[m]] with a boolean mask [m]: the entries of [a] where [m] is true, in
    raster order. *)
Definition getitem_mask {A} (a : list (list A)) (m : bmask) : result (list A) :=
  if decide (shape m = shape a)
  then inr (fst <$> filter (λ xb, xb.2 = true) (zip (concat a) (concat m)))
  else inl (IndexError "boolean index did not match indexed array").

(** [binary_dilation(m, np.ones((3, 3)))] *)
Definition binary_dilation3 (m : bmask) : bmask := np_gt (dilation (astype_int m) 3) 0.

(** The conversion of a count to a float. *)
Definition float_of_count (n : Z) : float := of_uint63 (Uint63.of_Z n).

(** The seeds of the cleaned map at a threshold:
    [measure.label(cell_prediction_cleaned > th_seed, background=0)] *)
Definition seeds_above (cell_prediction_cleaned : fimage) (th_seed : float) : image :=
  label (astype_int (amap (λ x, (th_seed <? x)%float) cell_prediction_cleaned)).

(** The inner loop of the seed recovery: the regions of at most 4 pixels
    are erased from [seeds].  The area of a region is taken when the loop
    reaches it. *)
Definition drop_small (seeds : image) (props : list Z) : image :=
  foldl (λ seeds l, if decide (area seeds l ≤ 4) then recolor l 0 seeds else seeds)
    seeds props.

(** The seed recovery, [while np.max(seeds) == 0 and th_seed > 0.05].  The
    loop runs for at most [fuel] passes; [None] says that it has not ended
    by then. *)
Fixpoint recover_seeds (fuel : nat) (cell_prediction_cleaned : fimage) (seeds : image)
    (th_seed : float) : option (result image) :=
  match np_amax seeds with
  | inl e => Some (inl e)
  | inr m =>
      if bool_decide (m = 0) && (0.05 <? th_seed)%float then
        match fuel with
        | O => None
        | S fuel' =>
            let th_seed := (th_seed - 0.1)%float in
            let seeds := seeds_above cell_prediction_cleaned th_seed in
            match measure_regionprops seeds with
            | inl e => Some (inl e)
            | inr props =>
                let seeds := drop_small seeds props in
                let seeds := label seeds in
                recover_seeds fuel' cell_prediction_cleaned seeds th_seed
            end
        end
      else Some (inr seeds)
  end.

(** The number of passes the loop can make from [th_seed]: [settles n th]
    says that at most [n] decrements of 0.1 bring the threshold to 0.05 or
    below. *)
Fixpoint settles (n : nat) (th_seed : float) : bool :=
  if (0.05 <? th_seed)%float then
    match n with
    | O => false
    | S n' => settles n' (th_seed - 0.1)%float
    end
  else true.

(** One turn of the merging loop, for the border [border_id]. *)
Definition merge_step (lib : library) (border_prediction : fimage) (pred_borders : image)
    (border_id : Z) (prediction_instance : image) : result image :=
  let pred_border := np_eq pred_borders border_id in
  match getitem_mask border_prediction pred_border with
  | inl e => inl e
  | inr on_border =>
      if (np_sum_floats lib on_border / float_of_count (np_sum pred_border) <? 0.075)%float
      then
        let pred_border_dilated := binary_dilation3 pred_border in
        match getitem_mask prediction_instance pred_border_dilated with
        | inl e => inl e
        | inr near_border =>
            match get_nucleus_ids [near_border] with
            | [id0; id1] => inr (recolor id1 id0 prediction_instance)
            | _ => inr prediction_instance
            end
        end
      else inr prediction_instance
  end.

Fixpoint merge_loop (lib : library) (border_prediction : fimage) (pred_borders : image)
    (border_ids : list Z) (prediction_instance : image) : result image :=
  match border_ids with
  | [] => inr prediction_instance
  | border_id :: rest =>
      match merge_step lib border_prediction pred_borders border_id
              prediction_instance with
      | inl e => inl e
      | inr prediction_instance =>
          merge_loop lib border_prediction pred_borders rest prediction_instance
      end
  end.

(** The branch of [args.apply_merging]. *)
Definition merge_touching (lib : library) (border_prediction : fimage)
    (prediction_instance : image) : result image :=
  let label_bin := np_gt prediction_instance 0 in
  let pred_boundaries := cv2_Canny lib (astype_uint8 prediction_instance) in
  let pred_borders := cv2_Canny lib (astype_int label_bin) in
  match broadcast2 xorb pred_boundaries pred_borders with
  | inl e => inl e
  | inr pred_borders =>
      let pred_borders := label (astype_int pred_borders) in
      match merge_loop lib border_prediction pred_borders (get_nucleus_ids pred_borders)
              prediction_instance with
      | inl e => inl e
      | inr prediction_instance => inr (label prediction_instance)
      end
  end.

(** [border_cell_post_processing].  The arrays it assigns to are its own;
    the label arrays live in the store as the others do, the arrays of
    floats are passed by value.  It returns the address of the instance
    mask and the array [borders].  A result with a unit axis, which
    [np.squeeze] would take to fewer than two dimensions, is outside the
    embedding. *)
Definition border_cell_post_processing (lib : library) (fuel : nat)
    (border_prediction cell_prediction : fimage) (args : wt_args) : M (loc * fimage) :=
  let cell_prediction := gaussian_filter lib cell_prediction in
  let border_prediction := amap np_clip01 border_prediction in
  let th_seed := th_seed args in
  let th_cell := th_cell args in
  let mask := amap (λ x, (th_cell <? x)%float) cell_prediction in
  let borders := amap (λ x, np_tan lib (x * x)%float) border_prediction in
  let borders := amap (λ x, if (x <? 0.05)%float then 0%float else x) borders in
  let borders := amap np_clip01 borders in
  cell_prediction_cleaned ← lift (broadcast2 PrimFloat.sub cell_prediction borders);
  seeds ← new (seeds_above cell_prediction_cleaned th_seed);
  s ← load seeds;
  min_area ← lift (get_minimum_area_to_remove s (1 # 10)%Q);
  seeds ← remove_smaller_areas seeds min_area;
  s ← load seeds;
  seeds ← match recover_seeds fuel cell_prediction_cleaned s th_seed with
          | None => raise (Fault "the seed recovery has not ended within the fuel")
          | Some r => lift r
          end;
  prediction_instance ←
    lift (watershed lib (amap PrimFloat.opp cell_prediction) seeds mask);
  prediction_instance ←
    (if apply_merging args then
       m ← lift (np_amax prediction_instance);
       if decide (m < 255)
       then lift (merge_touching lib border_prediction prediction_instance)
       else mret prediction_instance
     else mret prediction_instance);
  if has_unit_axis prediction_instance || has_unit_axis borders
  then raise (Fault "array with fewer than two dimensions")
  else
    out ← new (astype_uint16 prediction_instance);
    mret (out, borders).

(** A stand-in for the library that meets [library_ok]: no smoothing, the
    identity for the tangent, a watershed that keeps the markers inside the
    mask without flooding, no edges, and a sum from the right. *)
Definition demo_library : library := {|
  gaussian_filter a := a;
  np_tan x := x;
  watershed a markers mask :=
    if decide (shape markers = shape a ∧ shape mask = shape a)
    then inr (zip2 (λ v (b : bool), if b then v else 0) markers mask)
    else inl (ValueError "markers and mask must have the shape of the image");
  cv2_Canny a := amap (λ _, false) a;
  np_sum_floats l := foldr PrimFloat.add 0%float l;
|}.

(** Maps of floats for the examples. *)
Definition full_map (rows cols : nat) (x : float) : fimage :=
  replicate rows (replicate cols x).

(** A label image without any instance. *)
Definition background (a : image) : Prop := ∀ p v, px a p = Some v → v = 0.

(** * Arrays: lookups *)

Section arrays.
Context {A B : Type}.
Implicit Types (a : list (list A)) (p : pos).

Lemma px_imap (f : nat → nat → A → B) a p :
  px (imap (λ r row, imap (f r) row) a) p = f p.1 p.2 <$> px a p.
Proof.
  unfold px. rewrite list_lookup_imap.
  destruct (a !! p.1); simpl; [apply list_lookup_imap | done].
Qed.

Lemma px_fmap (f : A → B) a p : px (amap f a) p = f <$> px a p.
Proof.
  unfold px, amap. rewrite list_lookup_fmap.
  destruct (a !! p.1); simpl; [apply list_lookup_fmap | done].
Qed.

Lemma px_row_of a r c : row_of a r !! c = px a (r, c).
Proof. unfold px, row_of. simpl. by destruct (a !! r). Qed.

Lemma width_ge a r row : a !! r = Some row → (length row ≤ width a)%nat.
Proof.
  revert r. induction a as [|x a IH]; intros [|r] H; simplify_eq/=; [lia|].
  specialize (IH _ H). lia.
Qed.

Lemma px_lt a p x : px a p = Some x → (p.1 < length a ∧ p.2 < width a)%nat.
Proof.
  unfold px. intros H. apply bind_Some in H as (row & Hr & Hc). split.
  - by eapply lookup_lt_Some.
  - apply lookup_lt_Some in Hc. apply width_ge in Hr. lia.
Qed.

Lemma elem_of_positions a p : p ∈ positions a ↔ is_Some (px a p).
Proof.
  unfold positions. rewrite list_elem_of_bind. split.
  - intros (r & Hp & Hr). apply list_elem_of_fmap in Hp as (c & -> & Hc).
    apply elem_of_seq in Hr, Hc. rewrite <- px_row_of.
    apply lookup_lt_is_Some. lia.
  - intros [x Hx]. destruct p as [r c]. exists r. split.
    + apply list_elem_of_fmap. exists c. split; [done|].
      apply elem_of_seq. rewrite <- px_row_of in Hx.
      apply lookup_lt_Some in Hx. lia.
    + apply elem_of_seq. apply px_lt in Hx. simpl in Hx. lia.
Qed.

Lemma width_fmap (f : A → B) a : width (amap f a) = width a.
Proof. induction a as [|x a IH]; simpl; [done|]. by rewrite length_fmap, IH. Qed.

Lemma shape_fmap (f : A → B) a : shape (amap f a) = shape a.
Proof.
  unfold shape, amap. rewrite <- list_fmap_compose. apply list_fmap_ext.
  intros _ row _. simpl. apply length_fmap.
Qed.
End arrays.

Lemma shape_px {A B} (a : list (list A)) (b : list (list B)) p :
  shape a = shape b → is_Some (px a p) ↔ is_Some (px b p).
Proof.
  intros H. unfold px.
  assert (length <$> a !! p.1 = length <$> b !! p.1) as Hr.
  { rewrite <- !list_lookup_fmap. unfold shape in H. by rewrite H. }
  destruct (a !! p.1) as [ra|], (b !! p.1) as [rb|]; simplify_eq/=;
    rewrite ?lookup_lt_is_Some; [by rewrite Hr | split; by intros [??]].
Qed.

(** * Raster indices *)

Lemma idx_pos w p : 1 ≤ idx w p.
Proof. unfold idx. nia. Qed.

Lemma idx_inj w p q : (p.2 < w)%nat → (q.2 < w)%nat → idx w p = idx w q → p = q.
Proof.
  destruct p as [r c], q as [r' c']. unfold idx. simpl. intros Hc Hc' H.
  assert (r = r') by nia. subst. f_equal. lia.
Qed.

Lemma StronglySorted_bind {A B} (R1 : relation A) (R : relation B)
    (f : A → list B) (l : list A) :
  StronglySorted R1 l →
  (∀ x, x ∈ l → StronglySorted R (f x)) →
  (∀ x y u v, R1 x y → x ∈ l → y ∈ l → u ∈ f x → v ∈ f y → R u v) →
  StronglySorted R (l ≫= f).
Proof.
  induction 1 as [|x l Hl IH Hx]; intros Hf HR; [constructor|].
  rewrite bind_cons. apply StronglySorted_app_2.
  - intros u v Hu Hv. apply list_elem_of_bind in Hv as (y & Hv & Hy).
    rewrite Forall_forall in Hx.
    eapply HR; [apply Hx, Hy | left | by right | done | done].
  - apply Hf. left.
  - apply IH.
    + intros y Hy. apply Hf. by right.
    + intros y z u v ? ? ? ? ?. eapply HR; eauto; by right.
Qed.

Lemma StronglySorted_seq j n : StronglySorted lt (seq j n).
Proof.
  revert j. induction n as [|n IH]; intros j; simpl; constructor; [apply IH|].
  apply Forall_forall. intros k Hk. apply elem_of_seq in Hk. lia.
Qed.

Lemma StronglySorted_filter {A} (R : relation A) (P : A → Prop)
    `{∀ x, Decision (P x)} l :
  StronglySorted R l → StronglySorted R (filter P l).
Proof.
  induction 1 as [|x l Hl IH Hx]; [constructor|].
  rewrite filter_cons. case_decide; [|done].
  constructor; [done|]. rewrite Forall_forall in *.
  intros y Hy. apply list_elem_of_filter in Hy as [_ Hy]. by apply Hx.
Qed.

Lemma positions_sorted {A} (a : list (list A)) :
  StronglySorted (λ p q, idx (width a) p < idx (width a) q) (positions a).
Proof.
  unfold positions. eapply (StronglySorted_bind lt); [apply StronglySorted_seq|..].
  - intros r _. apply (StronglySorted_fmap _ lt); [|apply StronglySorted_seq].
    intros c c' Hc. unfold idx. simpl. lia.
  - intros r r' u v Hr _ Hr' Hu Hv.
    apply list_elem_of_fmap in Hu as (c & -> & Hc).
    apply list_elem_of_fmap in Hv as (c' & -> & _).
    apply elem_of_seq in Hc, Hr'.
    assert (length (row_of a r) ≤ width a)%nat as Hw.
    { unfold row_of. destruct (a !! r) eqn:E; simpl; [by eapply width_ge | lia]. }
    unfold idx. simpl.
    assert (Z.of_nat (S r) * Z.of_nat (width a) ≤ Z.of_nat r' * Z.of_nat (width a))
      by (apply Z.mul_le_mono_nonneg_r; lia).
    lia.
Qed.

Lemma count_lt_sorted (rs : list Z) j y :
  StronglySorted Z.lt rs → rs !! j = Some y →
  length (filter (λ x, x < y) rs) = j.
Proof.
  intros Hs. revert j. induction Hs as [|x rs Hs IH Hx]; intros [|j] Hj; simplify_eq/=.
  - rewrite filter_cons_False by lia.
    rewrite Forall_forall in Hx.
    destruct (filter (λ x, x < y) rs) as [|z ?] eqn:E; [done|].
    assert (z ∈ filter (λ x, x < y) rs) as Hz by (rewrite E; left).
    apply list_elem_of_filter in Hz as [? Hz]. apply Hx in Hz. lia.
  - rewrite Forall_forall in Hx.
    rewrite filter_cons_True; [simpl; f_equal; by apply IH|].
    apply Hx. by eapply list_elem_of_lookup_2.
Qed.

(** * Neighbourhoods and connectivity *)

Lemma near_sym p q : near p q → near q p.
Proof. unfold near. lia. Qed.

Lemma near_refl p : near p p.
Proof. unfold near. lia. Qed.

Lemma window_near p q : q ∈ window p ↔ near p q.
Proof.
  destruct p as [r c], q as [r' c']. unfold window, near. simpl.
  rewrite !elem_of_cons, elem_of_nil. split.
  - intros H. repeat destruct H as [H|H]; simplify_eq; lia.
  - intros H.
    assert (r' = pred r ∨ r' = r ∨ r' = S r) as Hr by lia.
    assert (c' = pred c ∨ c' = c ∨ c' = S c) as Hc by lia.
    destruct Hr as [->|[->| ->]], Hc as [->|[->| ->]]; tauto.
Qed.

Lemma link_sym a p q : link a p q → link a q p.
Proof. intros (? & v & ? & ? & ?). split; [by apply near_sym|]. by exists v. Qed.

Lemma connected_sym a p q : connected a p q → connected a q p.
Proof.
  induction 1 as [|p q s Hl _ IH]; [done|].
  eapply rtc_r; [apply IH | by apply link_sym].
Qed.

Lemma connected_value a p q v :
  connected a p q → px a p = Some v → px a q = Some v.
Proof.
  induction 1 as [|p q s (_ & w & _ & Hp & Hq) _ IH]; [done|].
  intros Hv. apply IH. congruence.
Qed.

(** * One relaxation round *)

Lemma zpad_lookup {A B} (f : A → option B → A) l k c :
  zpad f l k !! c = (λ x, f x (k !! c)) <$> l !! c.
Proof.
  revert k c. induction l as [|x l IH]; intros k [|c]; simpl; [done..| |].
  - by destruct k.
  - rewrite IH. by rewrite lookup_tail.
Qed.

Lemma length_zpad {A B} (f : A → option B → A) l k : length (zpad f l k) = length l.
Proof. revert k. induction l; intros; simpl; [done|]. by f_equal. Qed.

Lemma shr_lookup {A} (k : list A) c : shr k !! c = k !! pred c.
Proof. destruct k, c; done. Qed.

Lemma gather_lookup row ks c :
  foldr (λ k acc, zpad pull acc k) row ks !! c
  = (λ x, absorb x ((.!! c) <$> ks)) <$> row !! c.
Proof.
  induction ks as [|k ks IH]; simpl.
  - by destruct (row !! c).
  - rewrite zpad_lookup, IH. by destruct (row !! c).
Qed.

Lemma around_lookup g r c :
  (.!! c) <$> around g r = px g <$> window (r, c).
Proof.
  unfold around, window. csimpl.
  by rewrite !shr_lookup, !lookup_tail, !px_row_of.
Qed.

Lemma relax_lookup g r :
  relax g !! r = (λ row, foldr (λ k acc, zpad pull acc k) row (around g r)) <$> g !! r.
Proof. apply list_lookup_imap. Qed.

Lemma px_relax g p :
  px (relax g) p = (λ x, absorb x (px g <$> window p)) <$> px g p.
Proof.
  destruct p as [r c]. rewrite <- around_lookup.
  unfold px. cbn [fst snd]. rewrite relax_lookup.
  generalize (around g r). intros ks.
  destruct (g !! r) as [row|]; simpl; [apply gather_lookup | done].
Qed.

Lemma pull_fst x o : (pull x o).1 = x.1.
Proof. unfold pull. destruct o; [case_decide|]; done. Qed.

Lemma pull_le x o : (pull x o).2 ≤ x.2.
Proof. unfold pull. destruct o; [case_decide|]; simpl; lia. Qed.

Lemma absorb_fst x os : (absorb x os).1 = x.1.
Proof. induction os; simpl; [done|]. by rewrite pull_fst. Qed.

Lemma absorb_le x os : (absorb x os).2 ≤ x.2.
Proof.
  induction os as [|o os IH]; simpl; [done|].
  etrans; [apply pull_le | done].
Qed.

Lemma absorb_below x os y :
  Some y ∈ os → y.1 = x.1 → (absorb x os).2 ≤ y.2.
Proof.
  induction os as [|o os IH]; simpl; [by intros ?%elem_of_nil|].
  intros [<-|Hy]%elem_of_cons Hv.
  - unfold pull. rewrite decide_True by by rewrite absorb_fst. simpl. lia.
  - etrans; [apply pull_le | by apply IH].
Qed.

Lemma pull_source x o :
  (pull x o).2 = x.2 ∨ ∃ y, o = Some y ∧ y.1 = x.1 ∧ (pull x o).2 = y.2.
Proof.
  unfold pull. destruct o as [y|]; [|by left].
  case_decide; [|by left]. simpl.
  destruct (Z.min_spec x.2 y.2) as [[_ ->]|[_ ->]]; [by left|].
  right. by exists y.
Qed.

Lemma absorb_source x os :
  (absorb x os).2 = x.2 ∨
  ∃ y, Some y ∈ os ∧ y.1 = x.1 ∧ (absorb x os).2 = y.2.
Proof.
  induction os as [|o os IH]; simpl; [by left|].
  destruct (pull_source (absorb x os) o) as [->|(y & -> & Hy & ->)].
  - destruct IH as [?|(z & ? & ? & ?)]; [by left|].
    right. exists z. split_and!; [by right|done..].
  - right. exists y. rewrite absorb_fst in Hy. split_and!; [left|done..].
Qed.

Lemma relax_fst g : amap fst (relax g) = amap fst g.
Proof.
  unfold amap. apply list_eq. intros r. rewrite !list_lookup_fmap, relax_lookup.
  generalize (around g r). intros ks.
  destruct (g !! r) as [row|]; simpl; [|done]. f_equal.
  apply list_eq. intros c. rewrite !list_lookup_fmap, gather_lookup.
  destruct (row !! c); simpl; [|done]. by rewrite absorb_fst.
Qed.

(** * The potential: the sum of all identifiers *)

Lemma total_row_mono (r r' : list cell) :
  Forall2 below r' r →
  foldr (λ x t, x.2 + t) 0 r' ≤ foldr (λ x t, x.2 + t) 0 r ∧
  (foldr (λ x t, x.2 + t) 0 r' = foldr (λ x t, x.2 + t) 0 r → r' = r).
Proof.
  induction 1 as [|x y r' r [Hv Hle] _ [IH1 IH2]]; simpl; [done|].
  split; [lia|]. intros Heq.
  assert (x.2 = y.2) by lia.
  f_equal; [destruct x, y; simpl in *; congruence | apply IH2; lia].
Qed.

Lemma total_mono (g g' : grid) :
  Forall2 (Forall2 below) g' g →
  total g' ≤ total g ∧ (total g' = total g → g' = g).
Proof.
  induction 1 as [|r' r g' g Hr _ [IH1 IH2]]; simpl; [done|].
  destruct (total_row_mono _ _ Hr) as [H1 H2].
  split; [lia|]. intros Heq. f_equal; [apply H2; lia | apply IH2; lia].
Qed.

Lemma below_trans x y z : below x y → below y z → below x z.
Proof. unfold below. intros [? ?] [? ?]. split; [congruence|lia]. Qed.

Lemma Forall2_below_trans (r1 r2 r3 : list cell) :
  Forall2 below r1 r2 → Forall2 below r2 r3 → Forall2 below r1 r3.
Proof.
  intros H12. revert r3. induction H12 as [|x y r1 r2 Hxy _ IH]; intros r3 H23.
  - by inversion H23.
  - inversion H23 as [|? z ? r3' Hyz H23']; subst.
    constructor; [by eapply below_trans|by apply IH].
Qed.

Lemma gather_below row ks :
  Forall2 below (foldr (λ k acc, zpad pull acc k) row ks) row.
Proof.
  apply Forall2_lookup. intros c. rewrite gather_lookup.
  destruct (row !! c); simpl; constructor.
  split; [apply absorb_fst | apply absorb_le].
Qed.

Lemma run_right_below prev row : Forall2 below (run_right prev row) row.
Proof.
  revert prev. induction row as [|x row IH]; intros prev; simpl; constructor; [|apply IH].
  split; [apply pull_fst | apply pull_le].
Qed.

Lemma run_down_cons prev row g :
  run_down prev (row :: g)
  = run_right None (foldr (λ k acc, zpad pull acc k) row [shr prev; prev; tail prev])
    :: run_down
         (run_right None (foldr (λ k acc, zpad pull acc k) row [shr prev; prev; tail prev]))
         g.
Proof. done. Qed.

Lemma run_down_below prev g : Forall2 (Forall2 below) (run_down prev g) g.
Proof.
  revert prev. induction g as [|row g IH]; intros prev; [constructor|].
  rewrite run_down_cons. constructor; [|apply IH].
  eapply Forall2_below_trans; [apply run_right_below | apply gather_below].
Qed.

Lemma relax_below g : Forall2 (Forall2 below) (relax g) g.
Proof.
  apply Forall2_lookup. intros r. rewrite relax_lookup.
  generalize (around g r). intros ks.
  destruct (g !! r) as [row|]; simpl; constructor.
  apply gather_below.
Qed.

Lemma relax_total g :
  total (relax g) ≤ total g ∧ (total (relax g) = total g → relax g = g).
Proof. apply total_mono, relax_below. Qed.

Lemma sweep_total g :
  total (sweep g) ≤ total g ∧ (total (sweep g) = total g → sweep g = g).
Proof. apply total_mono, run_down_below. Qed.

Lemma step_total g :
  total (step g) ≤ total g ∧ (total (step g) = total g → step g = g).
Proof.
  unfold step. destruct (relax_total (sweep g)) as [H1 H2].
  destruct (sweep_total g) as [H3 H4]. split; [lia|].
  intros Heq. rewrite H2 by lia. apply H4. lia.
Qed.

(** A grid that [step] leaves alone is one that [relax] leaves alone. *)
Lemma step_fixed g : step g = g → relax g = g.
Proof.
  intros Hg. destruct (relax_total (sweep g)) as [H1 _].
  destruct (sweep_total g) as [H3 H4].
  assert (sweep g = g) as Hs.
  { apply H4. unfold step in Hg. rewrite Hg in H1. lia. }
  unfold step in Hg. by rewrite Hs in Hg.
Qed.

Lemma total_nonneg (g : grid) :
  (∀ p x, px g p = Some x → 0 ≤ x.2) → 0 ≤ total g.
Proof.
  induction g as [|row g IH]; intros H; simpl; [done|].
  assert (0 ≤ foldr (λ x t, x.2 + t) 0 row).
  { assert (∀ c x, row !! c = Some x → 0 ≤ x.2) as Hrow
      by (intros c x Hc; apply (H (0%nat, c)); done).
    revert Hrow. clear. induction row as [|x row IH]; intros Hrow; simpl; [done|].
    pose proof (Hrow 0%nat x eq_refl).
    assert (0 ≤ foldr (λ x t, x.2 + t) 0 row); [|lia].
    apply IH. intros c y Hc. by apply (Hrow (S c)). }
  assert (0 ≤ total g); [|lia].
  apply IH. intros [r c] x Hx. apply (H (S r, c)). done.
Qed.

(** * Settling *)

Lemma settle_spec d g g' ok :
  settle d g = (g', ok) →
  total g' ≤ total g ∧
  (ok = true → step g' = g') ∧
  (ok = false → total g' + 2 ^ Z.of_nat d ≤ total g).
Proof.
  revert g g' ok. induction d as [|d IH]; intros g g' ok; simpl.
  - intros [= <- <-]. destruct (step_total g) as [H1 H2].
    split_and!; [done|..].
    + intros Hb%bool_decide_eq_true. by rewrite Hb at 1.
    + intros Hb%bool_decide_eq_false.
      assert (total (step g) ≠ total g) by auto. lia.
  - destruct (settle d g) as [g1 ok1] eqn:E1.
    destruct (IH _ _ _ E1) as (H1 & H2 & H3). destruct ok1.
    + intros [= <- <-]. split_and!; [done|auto|done].
    + intros E2. destruct (IH _ _ _ E2) as (H1' & H2' & H3').
      split_and!; [lia|done|].
      intros ->. specialize (H3 eq_refl). specialize (H3' eq_refl).
      rewrite Nat2Z.inj_succ, Z.pow_succ_r by lia. lia.
Qed.

Lemma settle_preserves (P : grid → Prop) d g :
  (∀ g, P g → P (step g)) → P g → P (settle d g).1.
Proof.
  intros HP. revert g. induction d as [|d IH]; intros g Hg; simpl; [by apply HP|].
  destruct (settle d g) as [g1 ok1] eqn:E1.
  assert (P g1) by (specialize (IH g Hg); by rewrite E1 in IH).
  destruct ok1; [done|]. by apply IH.
Qed.

(** * Soundness of the identifiers *)

Lemma sound_px a g p : sound a g → px a p = fst <$> px g p.
Proof. intros [<- _]. apply px_fmap. Qed.

Lemma init_grid_sound a : sound a (init_grid a).
Proof.
  split.
  - unfold init_grid, amap. apply list_eq. intros r.
    rewrite list_lookup_fmap, list_lookup_imap.
    destruct (a !! r) as [row|]; simpl; [|done]. f_equal.
    apply list_eq. intros c. rewrite list_lookup_fmap, list_lookup_imap.
    by destruct (row !! c).
  - intros p x. unfold init_grid.
    rewrite (px_imap (λ r c v, (v, if decide (v = 0) then 0 else idx (width a) (r, c)))).
    intros (v & Hv & ->)%fmap_Some. simpl. split.
    + intros ->. by rewrite decide_True.
    + intros Hne. rewrite decide_False by done.
      exists p. split; [done|]. by destruct p.
Qed.

Lemma relax_sound a g : sound a g → sound a (relax g).
Proof.
  intros Hs. pose proof Hs as [Hfst Hid]. split; [by rewrite relax_fst|].
  intros p x'. rewrite px_relax. intros (x & Hx & ->)%fmap_Some.
  rewrite absorb_fst. destruct (Hid _ _ Hx) as [Hbg Hfg].
  destruct (absorb_source x (px g <$> window p)) as [->|(y & Hy & Hyv & ->)]; [done|].
  apply list_elem_of_fmap in Hy as (q & Hq & Hw). symmetry in Hq.
  destruct (Hid _ _ Hq) as [Hbg' Hfg']. split.
  - intros H0. apply Hbg'. congruence.
  - intros Hne. destruct Hfg' as (s & Hqs & ->); [congruence|].
    exists s. split; [|done]. eapply rtc_l; [|done].
    split; [by apply window_near|]. exists x.1.
    rewrite !(sound_px a g) by done. rewrite Hx, Hq. simpl.
    split_and!; [done|done|by rewrite Hyv].
Qed.

Lemma sound_okcell a g :
  sound a g ↔ amap fst g = a ∧ ∀ p x, px g p = Some x → okcell a p x.
Proof.
  split.
  - intros Hs. pose proof Hs as [Hfst Hid]. split; [done|].
    intros p x Hx. destruct (Hid _ _ Hx) as [? ?]. split_and!; [|done..].
    rewrite (sound_px a g) by done. by rewrite Hx.
  - intros [Hfst Hid]. split; [done|].
    intros p x Hx. destruct (Hid _ _ Hx) as (_ & ? & ?). done.
Qed.

Lemma below_fst (g' g : grid) :
  Forall2 (Forall2 below) g' g → amap fst g' = amap fst g.
Proof.
  unfold amap. induction 1 as [|r' r g' g Hr _ IH]; simpl; [done|].
  f_equal; [|done]. clear IH.
  induction Hr as [|x y r' r [Hxy _] _ IH]; simpl; [done|]. by f_equal.
Qed.

Lemma pull_ok a p x o :
  okcell a p x →
  (∀ y, o = Some y → ∃ q, near p q ∧ okcell a q y) →
  okcell a p (pull x o).
Proof.
  intros (Hv & Hbg & Hfg) Ho.
  destruct (pull_source x o) as [Heq|(y & -> & Hy & Heq)].
  - split_and!; rewrite ?pull_fst, ?Heq; done.
  - destruct (Ho y eq_refl) as (q & Hn & Hqv & Hqbg & Hqfg).
    split_and!; rewrite ?pull_fst, ?Heq; [done|..].
    + intros H0. apply Hqbg. congruence.
    + intros Hne. destruct Hqfg as (s & Hqs & ->); [congruence|].
      exists s. split; [|done]. eapply rtc_l; [|done].
      split; [done|]. exists x.1. split_and!; [done..|]. by rewrite <- Hy.
Qed.

Lemma absorb_ok a p x os :
  okcell a p x →
  (∀ y, Some y ∈ os → ∃ q, near p q ∧ okcell a q y) →
  okcell a p (absorb x os).
Proof.
  intros Hx. induction os as [|o os IH]; intros Hos; simpl; [done|].
  apply pull_ok.
  - apply IH. intros y Hy. apply Hos. by right.
  - intros y ->. apply Hos. left.
Qed.

Lemma gather_ok a r row ks :
  (∀ c x, row !! c = Some x → okcell a (r, c) x) →
  (∀ k c y, k ∈ ks → k !! c = Some y → ∃ q, near (r, c) q ∧ okcell a q y) →
  ∀ c x, foldr (λ k acc, zpad pull acc k) row ks !! c = Some x → okcell a (r, c) x.
Proof.
  intros Hrow Hks c x. rewrite gather_lookup.
  intros (x0 & Hx0 & ->)%fmap_Some. apply absorb_ok; [by apply Hrow|].
  intros y (k & Hk & Hin)%list_elem_of_fmap. by eapply Hks.
Qed.

Lemma run_right_ok a r row c0 prev :
  (∀ c x, row !! c = Some x → okcell a (r, (c0 + c)%nat) x) →
  (∀ y, prev = Some y → ∃ c', S c' = c0 ∧ okcell a (r, c') y) →
  ∀ c x, run_right prev row !! c = Some x → okcell a (r, (c0 + c)%nat) x.
Proof.
  revert c0 prev. induction row as [|x0 row IH]; intros c0 prev Hrow Hprev c x; [done|].
  assert (okcell a (r, c0) (pull x0 prev)) as Hhead.
  { apply pull_ok.
    - specialize (Hrow 0%nat x0 eq_refl). by rewrite Nat.add_0_r in Hrow.
    - intros y Hy. destruct (Hprev y Hy) as (c' & <- & Hc').
      exists (r, c'). split; [|done]. unfold near. simpl. lia. }
  destruct c as [|c]; simpl.
  - intros [= <-]. by rewrite Nat.add_0_r.
  - intros Hx. replace (c0 + S c)%nat with (S c0 + c)%nat by lia.
    eapply (IH (S c0) (Some (pull x0 prev))); [| |done].
    + intros c1 x1 Hx1. replace (S c0 + c1)%nat with (c0 + S c1)%nat by lia.
      by apply Hrow.
    + intros y [= <-]. by exists c0.
Qed.

Lemma run_down_ok a r0 prev (g : grid) :
  (∀ c y, prev !! c = Some y → ∃ r', S r' = r0 ∧ okcell a (r', c) y) →
  (∀ r c x, px g (r, c) = Some x → okcell a ((r0 + r)%nat, c) x) →
  ∀ r c x, px (run_down prev g) (r, c) = Some x → okcell a ((r0 + r)%nat, c) x.
Proof.
  revert r0 prev. induction g as [|row g IH]; intros r0 prev Hprev Hg r c x; [done|].
  rewrite run_down_cons.
  set (row' := run_right None (foldr (λ k acc, zpad pull acc k) row [shr prev; prev; tail prev])).
  assert (∀ c x, row' !! c = Some x → okcell a (r0, c) x) as Hrow'.
  { intros c1 x1. unfold row'. apply (run_right_ok a r0 _ 0 None); [|done].
    change (∀ c x, foldr (λ k acc, zpad pull acc k) row [shr prev; prev; tail prev] !! c
                   = Some x → okcell a (r0, c) x).
    apply gather_ok.
    - intros c2 x2 Hx2. specialize (Hg 0%nat c2 x2 Hx2). by rewrite Nat.add_0_r in Hg.
    - intros k c2 y Hk Hy.
      assert (∃ c', prev !! c' = Some y ∧ (c' ≤ S c2 ∧ c2 ≤ S c')%nat) as (c' & Hc' & ?).
      { rewrite !elem_of_cons, elem_of_nil in Hk. destruct Hk as [->|[->|[->|[]]]].
        - rewrite shr_lookup in Hy. exists (pred c2). split; [done|lia].
        - exists c2. split; [done|lia].
        - rewrite lookup_tail in Hy. exists (S c2). split; [done|lia]. }
      destruct (Hprev _ _ Hc') as (r' & <- & Hr').
      exists (r', c'). split; [|done]. unfold near. simpl. lia. }
  destruct r as [|r].
  - rewrite Nat.add_0_r. apply Hrow'.
  - intros Hx. replace (r0 + S r)%nat with (S r0 + r)%nat by lia.
    eapply (IH (S r0) row'); [| |exact Hx].
    + intros c1 y Hy. exists r0. split; [done|]. by apply Hrow'.
    + intros r1 c1 x1 Hx1. replace (S r0 + r1)%nat with (r0 + S r1)%nat by lia.
      by apply Hg.
Qed.

Lemma sweep_sound a g : sound a g → sound a (sweep g).
Proof.
  rewrite !sound_okcell. intros [Hfst Hid]. split.
  - rewrite <- Hfst. apply below_fst, run_down_below.
  - intros [r c] x Hx. apply (run_down_ok a 0 [] g); [done| |done].
    intros r1 c1 x1. apply Hid.
Qed.

Lemma step_sound a g : sound a g → sound a (step g).
Proof. intros Hs. by apply relax_sound, sweep_sound. Qed.

Lemma sound_nonneg a g p x : sound a g → px g p = Some x → 0 ≤ x.2.
Proof.
  intros [_ H] Hx. destruct (H _ _ Hx) as [Hbg Hfg].
  destruct (decide (x.1 = 0)) as [?|Hne]; [rewrite Hbg; done|].
  destruct (Hfg Hne) as (q & _ & ->). pose proof (idx_pos (width a) q). lia.
Qed.

Lemma settled_sound a : sound a (settled a).
Proof. apply (settle_preserves (sound a)); [apply step_sound | apply init_grid_sound]. Qed.

Lemma settled_fixed a : relax (settled a) = settled a.
Proof.
  unfold settled.
  destruct (settle _ (init_grid a)) as [g ok] eqn:E. simpl.
  destruct (settle_spec _ _ _ _ E) as (_ & Ht & Hf).
  destruct ok; [by apply step_fixed, Ht|]. exfalso. specialize (Hf eq_refl).
  assert (0 ≤ total g).
  { apply total_nonneg. intros p x Hx.
    eapply (sound_nonneg a); [|done].
    pose proof (settled_sound a) as Hs. unfold settled in Hs. by rewrite E in Hs. }
  assert (0 ≤ total (init_grid a)).
  { apply total_nonneg. intros p x Hx.
    eapply (sound_nonneg a); [apply init_grid_sound|done]. }
  set (t := total (init_grid a)) in *.
  assert (Z.succ t ≤ 2 ^ Z.log2_up (Z.succ t)).
  { destruct (decide (t = 0)) as [->|]; [done|].
    apply Z.log2_up_spec. lia. }
  rewrite Z2Nat.id in Hf by apply Z.log2_up_nonneg. lia.
Qed.

Lemma label_settled a :
  label a = amap (rank (roots (width a) (settled a))) (settled a).
Proof. done. Qed.

(** * Correctness of the labelling *)

Section label.
Variable a : image.
Let g := settled a.
Let w := width a.
Let rs := roots w g.

Lemma settled_width : width g = w.
Proof.
  destruct (settled_sound a) as [H _]. unfold w, g.
  transitivity (width (amap fst (settled a))); [symmetry; apply width_fmap|].
  by rewrite H.
Qed.

Lemma settled_px p : px a p = fst <$> px g p.
Proof. apply sound_px, settled_sound. Qed.

Lemma settled_link p q x y :
  link a p q → px g p = Some x → px g q = Some y → x.2 ≤ y.2.
Proof.
  intros (Hn & v & Hv & Hp & Hq) Hx Hy.
  rewrite settled_px in Hp, Hq. fold g in Hp, Hq. rewrite Hx in Hp. rewrite Hy in Hq.
  simplify_eq/=.
  pose proof (px_relax g p) as Hr. unfold g in Hr at 1.
  rewrite settled_fixed in Hr. fold g in Hr. rewrite Hx in Hr. simplify_eq/=.
  rewrite Hr at 1. apply absorb_below; [|congruence].
  apply list_elem_of_fmap. exists q. split; [done|]. by apply window_near.
Qed.

Lemma settled_connected p q x y :
  connected a p q → px g p = Some x → px g q = Some y → x.2 = y.2.
Proof.
  intros Hc. revert x. induction Hc as [p|p q s Hl Hc IH]; intros x Hx Hy.
  - congruence.
  - pose proof Hl as (_ & v & _ & _ & Hq).
    rewrite settled_px in Hq. fold g in Hq.
    destruct (px g q) as [z|] eqn:Hz; [|done].
    pose proof (settled_link _ _ _ _ Hl Hx Hz).
    pose proof (settled_link _ _ _ _ (link_sym _ _ _ Hl) Hz Hx).
    rewrite <- (IH z) by done. lia.
Qed.

(** The identifier of a foreground cell is the index of a root of its
    component. *)
Lemma settled_root p x :
  px g p = Some x → x.1 ≠ 0 →
  ∃ q, connected a p q ∧ x.2 = idx w q ∧ px g q = Some x.
Proof.
  intros Hx Hne. destruct (settled_sound a) as [_ Hid].
  destruct (Hid _ _ Hx) as [_ Hfg]. destruct (Hfg Hne) as (q & Hc & Hq).
  exists q. split_and!; [done..|].
  assert (px a p = Some x.1) as Hp by (rewrite settled_px; fold g; by rewrite Hx).
  pose proof (connected_value _ _ _ _ Hc Hp) as Hqv.
  rewrite settled_px in Hqv. fold g in Hqv.
  destruct (px g q) as [y|] eqn:Hy; simplify_eq/=.
  pose proof (settled_connected _ _ _ _ Hc Hx Hy).
  f_equal. destruct x, y; simpl in *; congruence.
Qed.

Lemma roots_sorted : StronglySorted Z.lt rs.
Proof.
  unfold rs, roots. apply (StronglySorted_fmap _ (λ p q, idx w p < idx w q)); [done|].
  apply StronglySorted_filter. rewrite <- settled_width. apply positions_sorted.
Qed.

Lemma elem_of_roots m :
  m ∈ rs ↔ ∃ q x, px g q = Some x ∧ x.2 = idx w q ∧ m = idx w q.
Proof.
  unfold rs, roots. rewrite list_elem_of_fmap. split.
  - intros (q & -> & Hq). apply list_elem_of_filter in Hq as [Hr _].
    unfold is_root in Hr. apply fmap_Some in Hr as (x & Hx & Hr). eauto.
  - intros (q & x & Hx & Hr & ->). exists q. split; [done|].
    apply list_elem_of_filter. split.
    + unfold is_root. rewrite Hx. simpl. by rewrite Hr.
    + apply elem_of_positions. eauto.
Qed.

Lemma settled_in_roots p x : px g p = Some x → x.1 ≠ 0 → x.2 ∈ rs.
Proof.
  intros Hx Hne. destruct (settled_root _ _ Hx Hne) as (q & _ & Hq & Hqx).
  apply elem_of_roots. eauto.
Qed.

Lemma px_label p : px (label a) p = rank rs <$> px g p.
Proof. rewrite label_settled. apply px_fmap. Qed.

Lemma label_shape : shape (label a) = shape a.
Proof.
  rewrite label_settled, shape_fmap.
  destruct (settled_sound a) as [H _].
  transitivity (shape (amap fst (settled a))); [symmetry; apply shape_fmap|].
  by rewrite H.
Qed.

Lemma rank_range x :
  x.1 ≠ 0 → x.2 ∈ rs → 1 ≤ rank rs x ≤ Z.of_nat (length rs).
Proof.
  intros Hne Hin. unfold rank. rewrite decide_False by done.
  apply list_elem_of_lookup in Hin as [j Hj].
  rewrite (count_lt_sorted _ _ _ roots_sorted Hj).
  apply lookup_lt_Some in Hj. lia.
Qed.

Lemma rank_inj x y :
  x.1 ≠ 0 → y.1 ≠ 0 → x.2 ∈ rs → y.2 ∈ rs →
  rank rs x = rank rs y → x.2 = y.2.
Proof.
  intros Hx Hy Hxin Hyin. unfold rank. rewrite !decide_False by done.
  apply list_elem_of_lookup in Hxin as [i Hi].
  apply list_elem_of_lookup in Hyin as [j Hj].
  rewrite (count_lt_sorted _ _ _ roots_sorted Hi).
  rewrite (count_lt_sorted _ _ _ roots_sorted Hj).
  intros ?. assert (i = j) by lia. congruence.
Qed.

(** Background stays background, foreground gets a label in 1..n. *)
Lemma label_px p v :
  px a p = Some v →
  ∃ k, px (label a) p = Some k ∧ (v = 0 → k = 0) ∧
       (v ≠ 0 → 1 ≤ k ≤ Z.of_nat (length rs)).
Proof.
  rewrite settled_px, px_label. fold g.
  intros (x & Hx & ->)%fmap_Some. rewrite Hx. simpl.
  exists (rank rs x). split_and!; [done|..].
  - intros H0. unfold rank. by rewrite decide_True.
  - intros Hne. apply rank_range; [done|]. by eapply settled_in_roots.
Qed.

Lemma label_px_inv p k :
  px (label a) p = Some k → ∃ v, px a p = Some v ∧ (v = 0 ↔ k = 0).
Proof.
  intros Hk. assert (is_Some (px a p)) as [v Hv].
  { apply (shape_px (label a)); [apply label_shape | eauto]. }
  exists v. split; [done|].
  destruct (label_px _ _ Hv) as (k' & Hk' & H0 & H1).
  assert (k' = k) as -> by congruence.
  split; [done|]. intros ->. destruct (decide (v = 0)); [done|].
  specialize (H1 ltac:(done)). lia.
Qed.

(** Two foreground pixels get the same label exactly when they are
    connected. *)
Theorem label_connected p q v v' :
  px a p = Some v → v ≠ 0 → px a q = Some v' → v' ≠ 0 →
  px (label a) p = px (label a) q ↔ connected a p q.
Proof.
  intros Hp Hv Hq Hv'. rewrite !px_label.
  rewrite settled_px in Hp, Hq. fold g in Hp, Hq.
  apply fmap_Some in Hp as (x & Hx & ->). apply fmap_Some in Hq as (y & Hy & ->).
  rewrite Hx, Hy. simpl. split.
  - intros [= Hr].
    apply rank_inj in Hr; [|done|done|by eapply settled_in_roots..].
    destruct (settled_root _ _ Hx Hv) as (s & Hps & Hs & Hsx).
    destruct (settled_root _ _ Hy Hv') as (s' & Hqs & Hs' & Hsy).
    assert (s = s') as <-.
    { apply (idx_inj w); [| |congruence].
      - apply px_lt in Hsx. rewrite settled_width in Hsx. lia.
      - apply px_lt in Hsy. rewrite settled_width in Hsy. lia. }
    etrans; [done|]. by apply connected_sym.
  - intros Hc. f_equal. unfold rank.
    pose proof (settled_connected _ _ _ _ Hc Hx Hy) as ->.
    assert (px a q = Some x.1) as Hqv.
    { eapply connected_value; [done|]. rewrite settled_px. fold g. by rewrite Hx. }
    rewrite settled_px in Hqv. fold g in Hqv. rewrite Hy in Hqv.
    simplify_eq/=. by rewrite Hqv.
Qed.

Theorem label_consecutive : consecutive (label a).
Proof.
  exists (length rs). split.
  - intros p k Hk. destruct (label_px_inv _ _ Hk) as (v & Hv & _).
    destruct (label_px _ _ Hv) as (k' & Hk' & H0 & H1).
    assert (k' = k) as -> by congruence.
    destruct (decide (v = 0)) as [?|Hne]; [rewrite H0 by done; lia|].
    specialize (H1 Hne). lia.
  - intros k Hk.
    destruct (lookup_lt_is_Some_2 rs (Z.to_nat (k - 1))) as [m Hm]; [lia|].
    assert (m ∈ rs) as Hin by (by eapply list_elem_of_lookup_2).
    apply elem_of_roots in Hin as (q & x & Hx & Hr & ->).
    exists q. rewrite px_label. fold g. rewrite Hx. simpl. f_equal.
    unfold rank. rewrite <- Hr in Hm.
    assert (x.1 ≠ 0) as Hne.
    { destruct (settled_sound a) as [_ Hid].
      destruct (Hid _ _ Hx) as [Hbg _]. intros H0. specialize (Hbg H0).
      pose proof (idx_pos w q). lia. }
    rewrite decide_False by done.
    rewrite (count_lt_sorted _ _ _ roots_sorted Hm). lia.
Qed.

Theorem label_one_piece : one_piece (label a).
Proof.
  intros p q k Hk Hp Hq.
  destruct (label_px_inv _ _ Hp) as (v & Hv & Hv0).
  destruct (label_px_inv _ _ Hq) as (v' & Hv' & Hv0').
  assert (connected a p q) as Hc.
  { eapply label_connected; [done|tauto|done|tauto|congruence]. }
  clear Hq Hv' Hv0'. revert q Hc.
  apply (rtc_ind_r (λ q, connected (label a) p q)); [done|].
  intros q s Hc Hl IH.
  pose proof Hl as (Hn & u & Hu & Hq & Hs).
  assert (px (label a) q = Some k) as Hqk.
  { rewrite <- Hp. symmetry. eapply label_connected; [done|tauto| |done..].
    done. }
  assert (px (label a) s = Some k) as Hsk.
  { rewrite <- Hqk. symmetry.
    eapply label_connected; [done..|]. by apply rtc_once. }
  eapply rtc_r; [apply IH|]. split; [done|]. by exists k.
Qed.
End label.

(** * Arrays: extensionality and element-wise operations *)

Lemma array_ext {A} (a b : list (list A)) :
  shape a = shape b → (∀ p, px a p = px b p) → a = b.
Proof.
  intros Hs He. apply list_eq. intros r.
  assert (length <$> a !! r = length <$> b !! r) as Hr.
  { rewrite <- !list_lookup_fmap. unfold shape in Hs. by rewrite Hs. }
  destruct (a !! r) as [ra|] eqn:Ea, (b !! r) as [rb|] eqn:Eb; simplify_eq/=; [|done].
  f_equal. apply list_eq. intros c. specialize (He (r, c)).
  unfold px in He. simpl in He. by rewrite Ea, Eb in He.
Qed.

Lemma np_size_shape {A B} (a : list (list A)) (b : list (list B)) :
  shape a = shape b → np_size a = np_size b.
Proof.
  unfold np_size, shape. revert b.
  induction a as [|ra a IH]; intros [|rb b] Hs; simplify_eq/=; [done|].
  rewrite !length_app. f_equal; [done|]. by apply IH.
Qed.

Lemma px_zip2 {A B C} (f : A → B → C) a b p :
  px (zip2 f a b) p = x ← px a p; y ← px b p; Some (f x y).
Proof.
  unfold px, zip2. rewrite lookup_zip_with.
  destruct (a !! p.1) as [ra|]; simpl; [|done].
  destruct (b !! p.1) as [rb|]; simpl.
  - by rewrite lookup_zip_with.
  - by destruct (ra !! p.2).
Qed.

Lemma shape_zip2 {A B C} (f : A → B → C) a b :
  shape a = shape b → shape (zip2 f a b) = shape a.
Proof.
  unfold shape, zip2. revert b. induction a as [|ra a IH]; intros [|rb b] H;
    simplify_eq/=; [done|].
  f_equal; [|by apply IH]. rewrite length_zip_with. lia.
Qed.

Lemma zip2_amap_r {A B C} (f : A → B → C) (g : A → B) a :
  zip2 f a (amap g a) = amap (λ x, f x (g x)) a.
Proof.
  apply array_ext.
  - rewrite shape_zip2, ?shape_fmap; by rewrite ?shape_fmap.
  - intros p. rewrite px_zip2, !px_fmap. by destruct (px a p).
Qed.

Lemma amap_amap {A B C} (f : A → B) (g : B → C) (a : list (list A)) :
  amap g (amap f a) = amap (g ∘ f) a.
Proof.
  unfold amap. rewrite <- list_fmap_compose. apply list_fmap_ext.
  intros _ row _. simpl. by rewrite <- list_fmap_compose.
Qed.

Lemma amap_ext {A B} (f g : A → B) (a : list (list A)) :
  (∀ p x, px a p = Some x → f x = g x) → amap f a = amap g a.
Proof.
  intros H. apply array_ext; [by rewrite !shape_fmap|].
  intros p. rewrite !px_fmap. destruct (px a p) eqn:E; simpl; [|done].
  f_equal. by eapply H.
Qed.

Lemma amap_id {A} (f : A → A) (a : list (list A)) :
  (∀ p x, px a p = Some x → f x = x) → amap f a = a.
Proof.
  intros H. apply array_ext; [by rewrite shape_fmap|].
  intros p. rewrite px_fmap. destruct (px a p) eqn:E; simpl; [|done].
  f_equal. by eapply H.
Qed.

(** * Integer dtypes *)

Lemma dtype_bounds dt : dtype_min dt ≤ 0 ∧ 0 < dtype_max dt.
Proof. destruct dt; simpl; lia. Qed.

Lemma wrap_small dt v : dtype_min dt ≤ v ≤ dtype_max dt → wrap dt v = v.
Proof. intros Hv. unfold wrap. rewrite Z.mod_small; lia. Qed.

Lemma wrap_range dt v : dtype_min dt ≤ wrap dt v ≤ dtype_max dt.
Proof.
  unfold wrap. pose proof (dtype_bounds dt).
  pose proof (Z.mod_pos_bound (v - dtype_min dt) (dtype_max dt - dtype_min dt + 1)).
  lia.
Qed.

Lemma wrap_succ dt v : 0 ≤ v < dtype_max dt → wrap dt (v + 1) = v + 1.
Proof. intros Hv. apply wrap_small. pose proof (dtype_bounds dt). lia. Qed.

(** * Broadcasting *)

Lemma broadcast2_same {A B C} (f : A → B → C) a b :
  shape a = shape b → broadcast2 f a b = inr (zip2 f a b).
Proof. intros H. unfold broadcast2. by rewrite decide_True. Qed.

Lemma np_and_same m1 m2 : shape m1 = shape m2 → np_and m1 m2 = inr (zip2 andb m1 m2).
Proof. apply broadcast2_same. Qed.

Lemma np_or_same m1 m2 : shape m1 = shape m2 → np_or m1 m2 = inr (zip2 orb m1 m2).
Proof. apply broadcast2_same. Qed.

Lemma stretch_lookup {A} n (l : list A) i x y :
  l !! i = Some x → stretch n l !! i = Some y → y = x.
Proof.
  destruct l as [|x0 [|x1 l]]; simpl; [done| |congruence].
  destruct i as [|i]; [|done]. intros [= ->] Hy.
  apply lookup_replicate in Hy as [-> _]. done.
Qed.

Lemma px_broadcast_to {A} rows cols (a : list (list A)) p x y :
  px a p = Some x → px (broadcast_to rows cols a) p = Some y → y = x.
Proof.
  unfold px, broadcast_to. intros Ha Hb.
  destruct (a !! p.1) as [row|] eqn:Hrow; [|done]. simpl in Ha.
  destruct (stretch rows (stretch cols <$> a) !! p.1) as [row'|] eqn:Hrow'; [|done].
  simpl in Hb.
  assert ((stretch cols <$> a) !! p.1 = Some (stretch cols row)) as Hs
    by (by rewrite list_lookup_fmap, Hrow).
  rewrite (stretch_lookup _ _ _ _ _ Hs Hrow') in Hb.
  by eapply stretch_lookup.
Qed.

Lemma broadcast2_px_l {A B C} (f : A → B → C) a b m p x z :
  broadcast2 f a b = inr m → px a p = Some x → px m p = Some z → ∃ y, z = f x y.
Proof.
  unfold broadcast2. intros Hm Hx Hz. case_decide.
  - injection Hm as <-. rewrite px_zip2, Hx in Hz. simpl in Hz.
    destruct (px b p) as [y|]; [|done]. injection Hz as <-. eauto.
  - destruct (bcast_len (length a) (length b)) as [rows|]; [|done].
    destruct (bcast_len (width a) (width b)) as [cols|]; [|done].
    injection Hm as <-. rewrite px_zip2 in Hz.
    destruct (px (broadcast_to rows cols a) p) as [x'|] eqn:Hx'; [|done].
    simpl in Hz. destruct (px (broadcast_to rows cols b) p) as [y|]; [|done].
    injection Hz as <-. rewrite (px_broadcast_to _ _ _ _ _ _ Hx Hx'). eauto.
Qed.

Lemma broadcast2_px_r {A B C} (f : A → B → C) a b m p y z :
  broadcast2 f a b = inr m → px b p = Some y → px m p = Some z → ∃ x, z = f x y.
Proof.
  unfold broadcast2. intros Hm Hy Hz. case_decide.
  - injection Hm as <-. rewrite px_zip2, Hy in Hz.
    destruct (px a p) as [x|]; [|done]. injection Hz as <-. eauto.
  - destruct (bcast_len (length a) (length b)) as [rows|]; [|done].
    destruct (bcast_len (width a) (width b)) as [cols|]; [|done].
    injection Hm as <-. rewrite px_zip2 in Hz.
    destruct (px (broadcast_to rows cols a) p) as [x|]; [|done].
    simpl in Hz. destruct (px (broadcast_to rows cols b) p) as [y'|] eqn:Hy'; [|done].
    injection Hz as <-. rewrite (px_broadcast_to _ _ _ _ _ _ Hy Hy'). eauto.
Qed.

Lemma shape_np_eq a v : shape (np_eq a v) = shape a.
Proof. apply shape_fmap. Qed.

Lemma px_np_eq a v p : px (np_eq a v) p = (λ x, bool_decide (x = v)) <$> px a p.
Proof. apply px_fmap. Qed.

Lemma setitem_np_eq a v w : setitem (np_eq a v) w a = inr (recolor v w a).
Proof.
  unfold setitem. rewrite decide_True by apply shape_np_eq. f_equal.
  unfold np_eq. rewrite zip2_amap_r. apply amap_ext.
  intros p x _. by destruct (decide (x = v)); [rewrite bool_decide_true|rewrite bool_decide_false].
Qed.

Lemma setitem_shape m v a a' : setitem m v a = inr a' → shape a' = shape a.
Proof.
  unfold setitem. case_decide as H; [|done]. intros [= <-]. by apply shape_zip2.
Qed.

Lemma setitem_px m v a a' p :
  setitem m v a = inr a' →
  px a' p = x ← px a p; b ← px m p; Some (if b : bool then v else x).
Proof.
  unfold setitem. case_decide as H; [|done]. intros [= <-]. apply px_zip2.
Qed.

(** * [np.unique] *)

Lemma elem_of_insert_sorted x y l : y ∈ insert_sorted x l ↔ y = x ∨ y ∈ l.
Proof.
  induction l as [|z l IH]; simpl.
  - rewrite list_elem_of_singleton. set_solver.
  - repeat case_decide; subst; rewrite ?elem_of_cons, ?IH; naive_solver.
Qed.

Lemma insert_sorted_sorted x l :
  StronglySorted Z.lt l → StronglySorted Z.lt (insert_sorted x l).
Proof.
  induction 1 as [|z l Hl IH Hz]; simpl; [repeat constructor|].
  rewrite Forall_forall in Hz. repeat case_decide.
  - constructor; [by constructor; [|apply Forall_forall]|].
    apply Forall_forall. intros y [->|Hy]%elem_of_cons; [done|].
    specialize (Hz _ Hy). lia.
  - by constructor; [|apply Forall_forall].
  - constructor; [done|]. apply Forall_forall.
    intros y [->|Hy]%elem_of_insert_sorted; [lia|by apply Hz].
Qed.

Lemma elem_of_concat {A} (a : list (list A)) x :
  x ∈ concat a ↔ ∃ row, x ∈ row ∧ row ∈ a.
Proof.
  induction a as [|r a IH]; simpl.
  - split; [by intros ?%elem_of_nil|]. by intros (? & _ & ?%elem_of_nil).
  - rewrite elem_of_app, IH. split.
    + intros [?|(row & ? & ?)]; [exists r|exists row]; split; try done; by constructor.
    + intros (row & ? & [->|?]%elem_of_cons); [by left|]. right. by exists row.
Qed.

Lemma elem_of_concat_px {A} (a : list (list A)) x :
  x ∈ concat a ↔ ∃ p, px a p = Some x.
Proof.
  split.
  - intros (row & Hx & Hrow)%elem_of_concat.
    apply list_elem_of_lookup in Hrow as [r Hr].
    apply list_elem_of_lookup in Hx as [c Hc].
    exists (r, c). unfold px. simpl. by rewrite Hr.
  - intros [[r c] Hp]. unfold px in Hp. simpl in Hp.
    apply bind_Some in Hp as (row & Hr & Hc).
    apply elem_of_concat. exists row.
    split; by eapply list_elem_of_lookup_2.
Qed.

Lemma elem_of_np_unique a x : x ∈ np_unique a ↔ ∃ p, px a p = Some x.
Proof.
  rewrite <- elem_of_concat_px. unfold np_unique.
  induction (concat a) as [|y l IH]; simpl; [done|].
  rewrite elem_of_insert_sorted, elem_of_cons, IH. done.
Qed.

Lemma np_unique_sorted a : StronglySorted Z.lt (np_unique a).
Proof.
  unfold np_unique. induction (concat a) as [|y l IH]; simpl; [constructor|].
  by apply insert_sorted_sorted.
Qed.

Lemma elem_of_regionprops a v :
  v ∈ regionprops a ↔ 0 < v ∧ ∃ p, px a p = Some v.
Proof. unfold regionprops. by rewrite list_elem_of_filter, elem_of_np_unique. Qed.

Lemma measure_regionprops_nonempty a :
  np_size a ≠ 0%nat → measure_regionprops a = inr (regionprops a).
Proof. intros H. unfold measure_regionprops. by rewrite decide_False. Qed.

Lemma measure_regionprops_empty a :
  np_size a = 0%nat →
  measure_regionprops a
  = inl (ValueError "zero-size array to reduction operation maximum which has no identity").
Proof. intros H. unfold measure_regionprops. by rewrite decide_True. Qed.

(** * The store *)

Lemma bind_run {A B} (m : M A) (k : A → M B) h :
  (m ≫= k) h = match m h with
               | (inr x, h') => k x h'
               | (inl e, h') => (inl e, h')
               end.
Proof. done. Qed.

Lemma bind_inr {A B} (m : M A) (k : A → M B) h y h2 :
  (m ≫= k) h = (inr y, h2) → ∃ x h1, m h = (inr x, h1) ∧ k x h1 = (inr y, h2).
Proof. rewrite bind_run. destruct (m h) as [[e|x] h1]; [done|eauto]. Qed.

Lemma load_run l a h : h !! l = Some a → load l h = (inr a, h).
Proof. unfold load. by intros ->. Qed.

Lemma update_run l f a a' h :
  h !! l = Some a → f a = inr a' → update l f h = (inr tt, <[l := a']> h).
Proof.
  intros Hl Hf. unfold update. rewrite bind_run, (load_run _ _ _ Hl).
  rewrite bind_run. unfold lift. by rewrite Hf.
Qed.

(** ** Frame rules *)

Section frame.
Context {A B : Type}.
Implicit Types (n : nat) (m : M A).

Lemma frame_ret n (x : A) (Q : A → Prop) : Q x → frame n (mret x) Q.
Proof. intros HQ h _. split_and!; [done..|]. by intros y [= <-]. Qed.

Lemma frame_raise n e (Q : A → Prop) : frame n (raise e) Q.
Proof. intros h _. split_and!; done. Qed.

Lemma frame_lift n (x : result A) (Q : A → Prop) :
  (∀ y, x = inr y → Q y) → frame n (lift x) Q.
Proof. intros HQ h _. split_and!; [done..|]. simpl. auto. Qed.

Lemma frame_weaken n m (Q Q' : A → Prop) :
  frame n m Q → (∀ x, Q x → Q' x) → frame n m Q'.
Proof. intros Hm HQ h Hn. destruct (Hm h Hn) as (?&?&?). split_and!; auto. Qed.

Lemma frame_bind n m (k : A → M B) (Q : A → Prop) (Q' : B → Prop) :
  frame n m Q → (∀ x, Q x → frame n (k x) Q') → frame n (m ≫= k) Q'.
Proof.
  intros Hm Hk h Hn. destruct (Hm h Hn) as (Hlen & Hfix & HQ).
  rewrite bind_run. destruct (m h) as [[e|x] h1]; simpl in *; [done|].
  destruct (Hk x (HQ _ eq_refl) h1) as (Hlen' & Hfix' & HQ'); [lia|].
  split_and!; [lia| |done]. intros l Hl. rewrite Hfix' by done. auto.
Qed.
End frame.

Lemma frame_load n l : frame n (load l) (λ _, True).
Proof. intros h _. unfold load. destruct (h !! l); split_and!; done. Qed.

Lemma frame_new n a : frame n (new a) (λ l, (n ≤ l)%nat).
Proof.
  intros h Hn. unfold new. simpl. split_and!.
  - rewrite length_app. lia.
  - intros l Hl. apply lookup_app_l. lia.
  - by intros x [= <-].
Qed.

Lemma frame_store n l a : (n ≤ l)%nat → frame n (store l a) (λ _, True).
Proof.
  intros Hl h Hn. unfold store. simpl. split_and!; [rewrite length_insert; lia| |done].
  intros l' Hl'. apply list_lookup_insert_ne. lia.
Qed.

Lemma frame_update n l f : (n ≤ l)%nat → frame n (update l f) (λ _, True).
Proof.
  intros Hl. unfold update.
  eapply frame_bind; [apply frame_load|]. intros a _.
  eapply frame_bind; [by apply (frame_lift _ _ (λ _, True))|]. intros a' _.
  by apply frame_store.
Qed.

Lemma frame_for_each {A S} n (xs : list A) (s : S) body :
  (∀ x s, frame n (body x s) (λ _, True)) →
  frame n (for_each xs s body) (λ _, True).
Proof.
  intros Hb. revert s. induction xs as [|x xs IH]; intros s; simpl.
  - by apply frame_ret.
  - eapply frame_bind; [apply Hb|]. intros s' _. apply IH.
Qed.

(** * The passes write to their own copy only *)

Ltac frame_tac :=
  lazymatch goal with
  | |- frame _ (mret _) _ => apply frame_ret; done
  | |- frame _ (raise _) _ => apply frame_raise
  | |- frame _ (lift _) _ => apply frame_lift; done
  | |- frame _ (load _) _ => eapply frame_weaken; [apply frame_load | done]
  | |- frame _ (new _) _ => eapply frame_weaken; [apply frame_new | done]
  | |- frame _ (update _ _) _ => eapply frame_weaken; [apply frame_update; lia | done]
  | |- frame _ (for_each _ _ _) _ =>
      eapply frame_weaken; [apply frame_for_each; intros | done]
  | |- frame _ (new _ ≫= _) _ => eapply frame_bind; [apply frame_new | intros ? ?; cbv beta in *]
  | |- frame _ (_ ≫= _) _ => apply (frame_bind _ _ _ (λ _, True)); [ | intros ? _]
  | |- frame _ (if ?b then _ else _) _ => destruct b
  | |- frame _ (match ?x with _ => _ end) _ => destruct x
  | |- frame _ (let '(_, _) := ?x in _) _ => destruct x
  end.

Lemma remove_smaller_areas_frame n seeds area_threshold :
  frame n (remove_smaller_areas seeds area_threshold) (λ _, True).
Proof. unfold remove_smaller_areas. repeat frame_tac. Qed.

Lemma refine_objects_by_overlapping_frame n base_image refiner_image max_cell_area :
  frame n (refine_objects_by_overlapping base_image refiner_image max_cell_area) (λ _, True).
Proof. unfold refine_objects_by_overlapping. repeat frame_tac. Qed.

Lemma add_objects_by_overlapping_frame n dt base_image single_channel_image cells_overlap
    min_cell_area :
  frame n (add_objects_by_overlapping dt base_image single_channel_image cells_overlap
             min_cell_area) (λ _, True).
Proof. unfold add_objects_by_overlapping, add_objects_body. repeat frame_tac. Qed.

Lemma add_nuclei_by_overlapping_frame n dt base_image single_channel_image cells_overlap
    min_cell_area :
  frame n (add_nuclei_by_overlapping dt base_image single_channel_image cells_overlap
             min_cell_area) (λ _, True).
Proof. unfold add_nuclei_by_overlapping. repeat frame_tac. Qed.

Lemma frame_unchanged {A} (m : M A) h l a :
  frame (length h) m (λ _, True) → h !! l = Some a → (m h).2 !! l = Some a.
Proof.
  intros Hm Hl. destruct (Hm h) as (_ & Hfix & _); [done|].
  rewrite Hfix; [done|]. by eapply lookup_lt_Some.
Qed.

(** C10.  [remove_smaller_areas], [refine_objects_by_overlapping],
    [add_objects_by_overlapping] and [add_nuclei_by_overlapping] leave
    every array of the caller unchanged, their arguments among them: after
    the call, whether it returns or raises, each address of the caller's
    store holds the array it held before.  All assignments go to the copy
    the pass makes of its first argument. *)
Theorem passes_leave_inputs_unchanged (h : heap) (l : loc) (a : image) :
  h !! l = Some a →
  (∀ seeds area_threshold,
     (remove_smaller_areas seeds area_threshold h).2 !! l = Some a) ∧
  (∀ base_image refiner_image max_cell_area,
     (refine_objects_by_overlapping base_image refiner_image max_cell_area h).2 !! l
     = Some a) ∧
  (∀ dt base_image single_channel_image cells_overlap min_cell_area,
     (add_objects_by_overlapping dt base_image single_channel_image cells_overlap
        min_cell_area h).2 !! l = Some a) ∧
  (∀ dt base_image single_channel_image cells_overlap min_cell_area,
     (add_nuclei_by_overlapping dt base_image single_channel_image cells_overlap
        min_cell_area h).2 !! l = Some a).
Proof.
  intros Hl. split_and!; intros.
  - eapply frame_unchanged; [apply remove_smaller_areas_frame|done].
  - eapply frame_unchanged; [apply refine_objects_by_overlapping_frame|done].
  - eapply frame_unchanged; [apply add_objects_by_overlapping_frame|done].
  - eapply frame_unchanged; [apply add_nuclei_by_overlapping_frame|done].
Qed.

(** * [fusion_post_processing] without [just_evs] *)

Ltac step_bind :=
  lazymatch goal with
  | |- ∃ e h', (?m ≫= ?k) ?h = (inl e, h') =>
      rewrite (bind_run m k h); destruct (m h) as [[?|?] ?]; [by eauto|]; cbv beta
  end.

Lemma fusion_without_evs {Args} (d1 d2 d3 : pydict) (args : Args) h :
  ∃ e h', fusion_post_processing d1 d2 d3 args false h = (inl e, h').
Proof.
  unfold fusion_post_processing. do 7 step_bind.
  rewrite bind_run. simpl. eauto.
Qed.

(** C9.  With [just_evs=False] the call raises for every input (the last
    line reads [refined_evs_prediction], which only the [just_evs] branch
    assigns) and returns no label map; whenever the call returns its pair of
    label maps, [just_evs] was [True]. *)
Theorem fusion_returns_only_with_just_evs {Args} (d1 d2 d3 : pydict) (args : Args) :
  (∀ h, ∃ e h', fusion_post_processing d1 d2 d3 args false h = (inl e, h')) ∧
  (∀ just_evs h out h',
     fusion_post_processing d1 d2 d3 args just_evs h = (inr out, h') →
     just_evs = true).
Proof.
  split; [apply fusion_without_evs|].
  intros [] h out h' Hrun; [done|].
  destruct (fusion_without_evs d1 d2 d3 args h) as (e & h1 & He). congruence.
Qed.

(** * [get_minimum_area_to_remove] *)


(** C4, as stated, fails: on the one-pixel image [[1]] with percentage 1/10
    the formula gives 4 and the code returns 30; and the image [[0]] has no
    component, yet the call returns instead of failing. *)
Lemma minimum_area_counterexample :
  ¬ (∀ a percentage,
       (regionprops a ≠ [] →
        ∃ q, get_minimum_area_to_remove a percentage = inr q ∧
             (q == computeMinimumArea_formula a percentage)%Q) ∧
       (regionprops a = [] → ∃ e, get_minimum_area_to_remove a percentage = inl e)).
Proof.
  intros H. destruct (H [[1]] (1 # 10)%Q) as [H1 _].
  destruct H1 as (q & Hq & Heq); [done|].
  vm_compute in Hq. injection Hq as <-. vm_compute in Heq. done.
Qed.

(** C4, amended.  [get_minimum_area_to_remove] returns the constant 30 for
    every array with at least one pixel, whatever the percentage and the
    regions; it raises a [ValueError] exactly when the array has no
    pixel. *)
Theorem minimum_area_is_constant (a : image) (percentage : Q) :
  (np_size a ≠ 0%nat → get_minimum_area_to_remove a percentage = inr 30%Q) ∧
  (np_size a = 0%nat →
   get_minimum_area_to_remove a percentage
   = inl (ValueError "connected_components cannot be empty")) ∧
  ((∃ e, get_minimum_area_to_remove a percentage = inl e) ↔ np_size a = 0%nat).
Proof.
  unfold get_minimum_area_to_remove. case_decide as Hs.
  - split_and!; try done. split; [done|]. eauto.
  - rewrite measure_regionprops_nonempty by done.
    split_and!; try done. split; [by intros [? ?]|done].
Qed.

Lemma minimum_area_is_constant_witness :
  get_minimum_area_to_remove [[1; 1]; [0; 2]] (1 # 10)%Q = inr 30%Q ∧
  get_minimum_area_to_remove [[0]] (1 # 10)%Q = inr 30%Q ∧
  get_minimum_area_to_remove [] (1 # 10)%Q
  = inl (ValueError "connected_components cannot be empty").
Proof.
  split_and!.
  - apply (minimum_area_is_constant [[1; 1]; [0; 2]] (1 # 10)%Q). done.
  - apply (minimum_area_is_constant [[0]] (1 # 10)%Q). done.
  - apply (minimum_area_is_constant [] (1 # 10)%Q). done.
Defined.

(** * Field-of-interest correction *)

Lemma py_slice_lookup {A} (l : list A) (E K : Z) (i : nat) :
  0 ≤ E → Z.of_nat (length l) ≤ K →
  py_slice l E (K - E) !! i
  = if decide (E + Z.of_nat i < K - E) then l !! (Z.to_nat E + i)%nat else None.
Proof.
  intros HE HK. unfold py_slice, py_bound.
  rewrite (decide_False (P := E < 0)) by lia.
  rewrite lookup_take, lookup_drop.
  repeat case_decide;
    first [ done | lia | f_equal; lia | apply lookup_ge_None; lia
          | symmetry; apply lookup_ge_None; lia
          | rewrite !lookup_ge_None_2 by lia; done ].
Qed.

Lemma foi_margin_cases cell_type :
  foi_margin cell_type = 50 ∨ foi_margin cell_type = 25 ∨ foi_margin cell_type = 0.
Proof. unfold foi_margin. repeat case_decide; auto. Qed.

Lemma px_foi (a : image) (E : Z) (p : pos) :
  0 ≤ E →
  px ((λ row, py_slice row E (Z.of_nat (width a) - E))
        <$> py_slice a E (Z.of_nat (length a) - E)) p
  = if decide (E + Z.of_nat p.1 < Z.of_nat (length a) - E ∧
               E + Z.of_nat p.2 < Z.of_nat (width a) - E)
    then px a ((Z.to_nat E + p.1)%nat, (Z.to_nat E + p.2)%nat) else None.
Proof.
  intros HE. unfold px. simpl. rewrite list_lookup_fmap.
  rewrite py_slice_lookup by lia.
  case_decide as Hr.
  - destruct (a !! (Z.to_nat E + p.1)%nat) as [row|] eqn:Erow; simpl.
    + rewrite py_slice_lookup; [|lia|apply width_ge in Erow; lia].
      repeat case_decide; try done; tauto.
    + by case_decide.
  - simpl. rewrite decide_False; [done|tauto].
Qed.

Lemma elem_of_get_nucleus_ids a v :
  v ∈ get_nucleus_ids a ↔ 0 < v ∧ ∃ p, px a p = Some v.
Proof. apply elem_of_regionprops. Qed.

Lemma elem_of_ids_foi (a : image) (E v : Z) :
  0 ≤ E →
  v ∈ get_nucleus_ids ((λ row, py_slice row E (Z.of_nat (width a) - E))
                         <$> py_slice a E (Z.of_nat (length a) - E))
  ↔ 0 < v ∧ ∃ q, in_inset E a q ∧ px a q = Some v.
Proof.
  intros HE. rewrite elem_of_get_nucleus_ids. split; intros [Hv (p & Hp)]; split; try done.
  - rewrite px_foi in Hp by done. case_decide as Hin; [|done].
    eexists. split; [|exact Hp]. unfold in_inset. simpl. lia.
  - destruct Hp as [[Hr Hc] Hq]. destruct p as [r c]. simpl in *.
    exists ((r - Z.to_nat E)%nat, (c - Z.to_nat E)%nat).
    rewrite px_foi by done. simpl. rewrite decide_True by lia.
    rewrite <- Hq. f_equal. f_equal; lia.
Qed.

Lemma erase_step (dead dead' : Z → Prop) `{∀ v, Decision (dead v)}
    `{∀ v, Decision (dead' v)} (id : Z) (a : image) :
  (∀ v, dead' v ↔ v = id ∨ dead v) →
  erase dead (recolor id 0 a) = erase dead' a.
Proof.
  intros Hd. unfold erase, recolor. rewrite amap_amap. apply amap_ext.
  intros p v _. simpl. specialize (Hd v).
  repeat case_decide; try done; subst; tauto.
Qed.

Lemma erase_ext (dead dead' : Z → Prop) `{∀ v, Decision (dead v)}
    `{∀ v, Decision (dead' v)} (a : image) :
  (∀ v, dead' v ↔ dead v) → erase dead a = erase dead' a.
Proof.
  intros Hd. unfold erase. apply amap_ext.
  intros p v _. specialize (Hd v). repeat case_decide; try done; tauto.
Qed.

Lemma erase_none (dead : Z → Prop) `{∀ v, Decision (dead v)} (a : image) :
  (∀ v, ¬ dead v) → erase dead a = a.
Proof.
  intros Hd. unfold erase. apply amap_id.
  intros p v _. by rewrite decide_False.
Qed.

Lemma px_erase (dead : Z → Prop) `{∀ v, Decision (dead v)} (a : image) p :
  px (erase dead a) p = (λ v, if decide (dead v) then 0 else v) <$> px a p.
Proof. apply px_fmap. Qed.

Lemma foi_loop (mask : loc) (ids_foi ids : list Z) (cur : image) (h : heap) :
  h !! mask = Some cur →
  for_each ids tt (λ id_prediction _,
    if decide (id_prediction ∉ ids_foi)
    then c ← load mask; update mask (setitem (np_eq c id_prediction) 0)
    else mret tt) h
  = (inr tt, <[mask := erase (λ v, v ∈ ids ∧ v ∉ ids_foi) cur]> h).
Proof.
  revert cur h. induction ids as [|id ids IH]; intros cur h Hm; simpl.
  - rewrite erase_none; [by rewrite list_insert_id|].
    intros v [Hv _]. by apply elem_of_nil in Hv.
  - rewrite bind_run. case_decide as Hid.
    + rewrite bind_run, (load_run _ _ _ Hm).
      rewrite (update_run _ _ _ _ _ Hm (setitem_np_eq _ _ _)).
      rewrite (IH (recolor id 0 cur)).
      * rewrite list_insert_insert_eq. do 2 f_equal.
        apply erase_step. intros v. rewrite elem_of_cons.
        split; [intros [[->|?] ?]; auto|intros [->|[? ?]]; auto].
      * apply list_lookup_insert_eq. by eapply lookup_lt_Some.
    + simpl. rewrite (IH cur) by done. do 2 f_equal.
      apply erase_ext. intros v. rewrite elem_of_cons.
      split; [|intros [? ?]; auto]. intros [[->|?] ?]; done.
Qed.

(** C8.  [foi_correction] updates the array at [mask] in place and returns
    that same address.  The margin E is 50 for the eight cell types of the
    first list of the code, 25 for the five of the second and 0 for every
    other cell type.  A region id that occurs nowhere in the inset (the
    image cropped by E at each of its four borders) has all its pixels set
    to 0; a region id that occurs somewhere in the inset keeps all its
    pixels, those in the margin included.  Pixels that hold no region id (0
    or less) stay as they are. *)
Theorem foi_correction_erases_outside_inset (h : heap) (mask : loc) (a : image)
    (cell_type : string) :
  h !! mask = Some a →
  let E := foi_margin cell_type in
  (cell_type ∈ ["DIC-C2DH-HeLa"; "Fluo-C2DL-Huh7"; "Fluo-C2DL-MSC"; "Fluo-C3DH-H157";
                "Fluo-N2DH-GOWT1"; "Fluo-N3DH-CE"; "Fluo-N3DH-CHO"; "PhC-C2DH-U373"]%string
   → E = 50) ∧
  (cell_type ∈ ["BF-C2DL-HSC"; "BF-C2DL-MuSC"; "Fluo-C3DL-MDA231"; "Fluo-N2DL-HeLa";
                "PhC-C2DL-PSC"]%string
   → E = 25) ∧
  (cell_type ∉ ["DIC-C2DH-HeLa"; "Fluo-C2DL-Huh7"; "Fluo-C2DL-MSC"; "Fluo-C3DH-H157";
                "Fluo-N2DH-GOWT1"; "Fluo-N3DH-CE"; "Fluo-N3DH-CHO"; "PhC-C2DH-U373";
                "BF-C2DL-HSC"; "BF-C2DL-MuSC"; "Fluo-C3DL-MDA231"; "Fluo-N2DL-HeLa";
                "PhC-C2DL-PSC"]%string
   → E = 0) ∧
  ∃ a', foi_correction mask cell_type h = (inr mask, <[mask := a']> h) ∧
        shape a' = shape a ∧
        ∀ p v, px a p = Some v →
          (0 < v → (¬ ∃ q, in_inset E a q ∧ px a q = Some v) → px a' p = Some 0) ∧
          (0 < v → (∃ q, in_inset E a q ∧ px a q = Some v) → px a' p = Some v) ∧
          (v ≤ 0 → px a' p = Some v).
Proof.
  intros Hm E.
  assert (0 ≤ E) as HE by (destruct (foi_margin_cases cell_type); lia).
  split_and!.
  - intros Hin. unfold E, foi_margin. by rewrite decide_True.
  - intros Hin. unfold E, foi_margin.
    rewrite decide_False, decide_True; [done..|].
    intros Hin'. set_unfold. naive_solver.
  - intros Hout. unfold E, foi_margin.
    rewrite !decide_False; [done|..]; intros Hin; apply Hout; set_unfold; tauto.
  - eexists. split_and!.
    + unfold foi_correction. fold E. rewrite bind_run, (load_run _ _ _ Hm).
      rewrite bind_run. rewrite (foi_loop _ _ _ a) by done. reflexivity.
    + apply shape_fmap.
    + intros p v Hp. rewrite px_erase, Hp. simpl.
      pose proof (elem_of_ids_foi a E v HE) as Hfoi. fold E in Hfoi.
      pose proof (elem_of_get_nucleus_ids a v) as Hids.
      split_and!.
      * intros Hv Hout. rewrite decide_True; [done|].
        split; [apply Hids; eauto|]. rewrite Hfoi. tauto.
      * intros Hv Hin. rewrite decide_False; [done|].
        intros [_ Hno]. apply Hno, Hfoi. done.
      * intros Hv. rewrite decide_False; [done|].
        intros [[? _]%Hids _]. lia.
Qed.

(** * Removing small regions *)

Lemma connected_erase (dead : Z → Prop) `{∀ v, Decision (dead v)} s p q w :
  connected s p q → px s p = Some w → ¬ dead w → connected (erase dead s) p q.
Proof.
  induction 1 as [|p p' q (Hn & v & Hv & Hp & Hp') _ IH]; intros Hw Hd; [done|].
  assert (v = w) as -> by congruence.
  eapply rtc_l; [|by apply IH]. split; [done|]. exists w.
  rewrite !px_erase, Hp, Hp'. simpl. by rewrite decide_False.
Qed.

Lemma label_none a p : px a p = None → px (label a) p = None.
Proof.
  intros Hp. destruct (px (label a) p) eqn:E; [|done].
  assert (is_Some (px a p)) as [? ?]; [|congruence].
  apply (shape_px (label a)); [apply label_shape|eauto].
Qed.

(** After erasing whole labels of a label image whose labels are connected,
    every region of the relabelled image is one of the surviving regions. *)
Lemma erased_regions (dead : Z → Prop) `{∀ v, Decision (dead v)} (s : image) k :
  nonneg s → one_piece s →
  k ∈ regionprops (label (erase dead s)) →
  ∃ v, 0 < v ∧ ¬ dead v ∧ (∃ p, px s p = Some v) ∧
       area (label (erase dead s)) k = area s v.
Proof.
  intros Hnn Hone (Hk & p & Hp)%elem_of_regionprops.
  set (f := erase dead s) in *.
  destruct (label_px_inv _ _ _ Hp) as (u & Hu & Hu0).
  assert (u ≠ 0) as Hune by (intros ?; lia).
  unfold f in Hu. rewrite px_erase in Hu.
  apply fmap_Some in Hu as (w & Hw & ->).
  destruct (decide (dead w)) as [?|Hnd]; [done|].
  exists w. split_and!; [specialize (Hnn _ _ Hw); lia|done|eauto|].
  assert (px f p = Some w) as Hfp.
  { unfold f. rewrite px_erase, Hw. simpl. by rewrite decide_False. }
  unfold area. f_equal. apply array_ext.
  { rewrite !shape_np_eq, label_shape. apply shape_fmap. }
  intros q. rewrite !px_np_eq.
  destruct (px s q) as [y|] eqn:Hq; simpl.
  - assert (px f q = Some (if decide (dead y) then 0 else y)) as Hfq.
    { unfold f. by rewrite px_erase, Hq. }
    destruct (label_px _ _ _ Hfq) as (k' & Hk' & Hz & Hnz).
    rewrite Hk'. simpl. f_equal. apply bool_decide_ext. split.
    + intros ->.
      assert ((if decide (dead y) then 0 else y) ≠ 0) as Hy by (intros E; specialize (Hz E); lia).
      assert (connected f p q) as Hc.
      { eapply label_connected; [done..|]. congruence. }
      pose proof (connected_value _ _ _ _ Hc Hfp) as Hv.
      rewrite Hfq in Hv. destruct (decide (dead y)); congruence.
    + intros ->. rewrite decide_False in Hfq by done.
      assert (connected f p q) as Hc.
      { apply (connected_erase dead s p q w); [|done..].
        apply (Hone p q w); done. }
      assert (px (label f) p = px (label f) q) as Hpq.
      { eapply label_connected; [done..|done]. }
      congruence.
  - rewrite label_none; [done|]. unfold f. by rewrite px_erase, Hq.
Qed.

Lemma remove_loop (seeds filtered : loc) (s : image) (area_threshold : Q)
    (props : list Z) (cur : image) (h : heap) :
  seeds ≠ filtered → h !! seeds = Some s → h !! filtered = Some cur →
  for_each props tt (λ prop _,
    s ← load seeds;
    if Qle_bool (inject_Z (area s prop)) area_threshold
    then c ← load filtered; update filtered (setitem (np_eq c prop) 0)
    else mret tt) h
  = (inr tt,
     <[filtered := erase (λ v, v ∈ props ∧
                               Qle_bool (inject_Z (area s v)) area_threshold = true) cur]> h).
Proof.
  intros Hne. revert cur h.
  induction props as [|prop props IH]; intros cur h Hs Hf; simpl.
  - rewrite erase_none; [by rewrite list_insert_id|].
    intros v [Hv _]. by apply elem_of_nil in Hv.
  - rewrite bind_run, bind_run, (load_run _ _ _ Hs).
    destruct (Qle_bool (inject_Z (area s prop)) area_threshold) eqn:Hsmall.
    + rewrite bind_run, (load_run _ _ _ Hf).
      rewrite (update_run _ _ _ _ _ Hf (setitem_np_eq _ _ _)).
      rewrite (IH (recolor prop 0 cur)).
      * rewrite list_insert_insert_eq. do 2 f_equal.
        apply erase_step. intros v. rewrite elem_of_cons.
        split; [intros [[->|?] ?]; auto|intros [->|[? ?]]; auto].
      * by rewrite list_lookup_insert_ne.
      * apply list_lookup_insert_eq. by eapply lookup_lt_Some.
    + simpl. rewrite (IH cur) by done. do 2 f_equal.
      apply erase_ext. intros v. rewrite elem_of_cons.
      split; [|intros [? ?]; auto]. intros [[->|?] ?]; [congruence|done].
Qed.

Lemma remove_smaller_areas_run (h : heap) (seeds : loc) (s : image) (area_threshold : Q) :
  h !! seeds = Some s → np_size s ≠ 0%nat → (0 <= area_threshold)%Q →
  remove_smaller_areas seeds area_threshold h
  = (inr (S (length h)),
     <[length h := erase (too_small s area_threshold) s]> (h ++ [s])
       ++ [label (erase (too_small s area_threshold) s)]).
Proof.
  intros Hs Hsize HT. unfold remove_smaller_areas.
  rewrite bind_run, (load_run _ _ _ Hs). rewrite decide_False by done.
  destruct (Qlt_le_dec area_threshold 0) as [Hlt|_].
  { exfalso. by apply (Qlt_not_le _ _ Hlt). }
  rewrite bind_run. unfold lift at 1.
  rewrite measure_regionprops_nonempty by done.
  rewrite bind_run. unfold new at 1. cbv beta iota.
  assert (seeds < length h)%nat as Hlen by (by eapply lookup_lt_Some).
  rewrite bind_run.
  rewrite (remove_loop _ _ s _ _ s); [| lia | by apply lookup_app_l_Some |
    by rewrite lookup_app_r, Nat.sub_diag by lia ].
  rewrite bind_run.
  erewrite load_run; [|apply list_lookup_insert_eq; rewrite length_app; simpl; lia].
  unfold new. rewrite length_insert, length_app. simpl.
  rewrite Nat.add_1_r. done.
Qed.

(** C6.  For an array [s] that is a label image (no negative value, every
    label one connected region) with at least one pixel, and a threshold
    [T >= 0], [remove_smaller_areas] returns a new label image of the same
    shape in which every region has an area strictly greater than [T].  It
    raises a [ValueError] exactly when the array has no pixel or [T] is
    negative. *)
Theorem remove_smaller_areas_law (h : heap) (seeds : loc) (s : image) (T : Q) :
  h !! seeds = Some s → nonneg s → one_piece s →
  ((np_size s = 0%nat ∨ (T < 0)%Q) →
     ∃ msg, remove_smaller_areas seeds T h = (inl (ValueError msg), h)) ∧
  (np_size s ≠ 0%nat → (0 <= T)%Q →
     ∃ l out h', remove_smaller_areas seeds T h = (inr l, h') ∧
       h' !! l = Some out ∧ shape out = shape s ∧
       ∀ k, k ∈ regionprops out → (T < inject_Z (area out k))%Q).
Proof.
  intros Hs Hnn Hone. split.
  - intros Hbad. unfold remove_smaller_areas.
    rewrite bind_run, (load_run _ _ _ Hs).
    case_decide; [by eexists|].
    destruct (Qlt_le_dec T 0) as [?|Hle]; [by eexists|].
    destruct Hbad as [?|Hlt]; [done|]. exfalso. by apply (Qlt_not_le _ _ Hlt).
  - intros Hsize HT. rewrite (remove_smaller_areas_run _ _ s) by done.
    eexists _, _, _. split_and!; [done|..].
    + rewrite lookup_app_r; rewrite length_insert, length_app; simpl; [|lia].
      by replace (S (length h) - (length h + 1))%nat with 0%nat by lia.
    + rewrite label_shape. apply shape_fmap.
    + intros k Hk.
      destruct (erased_regions _ _ _ Hnn Hone Hk) as (v & Hv & Hnd & Hex & ->).
      apply Qnot_le_lt. intros Hle. apply Hnd. split.
      * by apply elem_of_regionprops.
      * by apply Qle_bool_iff.
Qed.

(** * Deciding the label-image conditions *)

Lemma nonneg_b_sound s : nonneg_b s = true → nonneg s.
Proof.
  unfold nonneg_b. intros H p v Hp.
  apply bind_Some in Hp as (row & Hr & Hc).
  rewrite forallb_forall in H.
  apply list_elem_of_lookup_2, list_elem_of_In, H in Hr.
  rewrite forallb_forall in Hr.
  apply list_elem_of_lookup_2, list_elem_of_In, Hr in Hc.
  by apply bool_decide_eq_true in Hc.
Qed.

Lemma one_piece_b_sound s : one_piece_b s = true → one_piece s.
Proof.
  unfold one_piece_b. intros H p q v Hv Hp Hq.
  rewrite forallb_forall in H.
  assert (p ∈ positions s) as Hpin by (apply elem_of_positions; eauto).
  assert (q ∈ positions s) as Hqin by (apply elem_of_positions; eauto).
  apply list_elem_of_In, H in Hpin. rewrite forallb_forall in Hpin.
  apply list_elem_of_In, Hpin in Hqin.
  rewrite bool_decide_true in Hqin by congruence. simpl in Hqin.
  apply bool_decide_eq_true in Hqin.
  by eapply label_connected.
Qed.

(** * Maintaining a property of the working copy *)

Section keeps.
Context (l : loc) (P : image → Prop).

Lemma keeps_ret {A} (x : A) : keeps l P (mret x).
Proof. by intros h Hh. Qed.

Lemma keeps_raise {A} e : keeps l P (raise (A := A) e).
Proof. by intros h Hh. Qed.

Lemma keeps_lift {A} (x : result A) : keeps l P (lift x).
Proof. by intros h Hh. Qed.

Lemma keeps_bind {A B} (m : M A) (k : A → M B) :
  keeps l P m → (∀ x, keeps l P (k x)) → keeps l P (m ≫= k).
Proof.
  intros Hm Hk h Hh. specialize (Hm h Hh). rewrite bind_run.
  destruct (m h) as [[e|x] h1]; [done|]. by apply Hk.
Qed.

Lemma keeps_load_any {A} l' (k : image → M A) :
  (∀ a, keeps l P (k a)) → keeps l P (load l' ≫= k).
Proof.
  intros Hk h Hh. rewrite bind_run. unfold load.
  destruct (h !! l'); [by apply Hk|done].
Qed.

Lemma keeps_load {A} (k : image → M A) :
  (∀ a, P a → keeps l P (k a)) → keeps l P (load l ≫= k).
Proof.
  intros Hk h Hh. pose proof Hh as (a & Ha & HP).
  rewrite bind_run, (load_run _ _ _ Ha). by apply Hk.
Qed.

Lemma keeps_update f :
  (∀ a a', P a → f a = inr a' → P a') → keeps l P (update l f).
Proof.
  intros Hf h (a & Ha & HP). unfold update.
  rewrite bind_run, (load_run _ _ _ Ha), bind_run. unfold lift.
  destruct (f a) as [e|a'] eqn:E; simpl; [by exists a|].
  exists a'. split; [|by eapply Hf].
  apply list_lookup_insert_eq. by eapply lookup_lt_Some.
Qed.

Lemma keeps_new {A} a (k : loc → M A) :
  (∀ l', keeps l P (k l')) → keeps l P (new a ≫= k).
Proof.
  intros Hk h (b & Hb & HP). rewrite bind_run. unfold new.
  apply Hk. exists b. split; [by apply lookup_app_l_Some|done].
Qed.

Lemma keeps_for_each {A S} (xs : list A) (s : S) body :
  (∀ x s, keeps l P (body x s)) → keeps l P (for_each xs s body).
Proof.
  intros Hb. revert s. induction xs as [|x xs IH]; intros s; simpl.
  - apply keeps_ret.
  - apply keeps_bind; [apply Hb|]. intros s'. apply IH.
Qed.
End keeps.

(** * [refine_objects_by_overlapping] returns its working copy *)

Lemma thinned_refl b : thinned b b.
Proof. split; [done|]. auto. Qed.

Lemma thinned_setitem_zero b a m a' :
  thinned b a → setitem m 0 a = inr a' → thinned b a'.
Proof.
  intros [Hs Hp] Hset. split; [by rewrite (setitem_shape _ _ _ _ Hset)|].
  intros p v. rewrite (setitem_px _ _ _ _ _ Hset).
  destruct (px a p) as [x|] eqn:Hx; simpl; [|done].
  destruct (px m p) as [[]|]; simpl; [|intros [= <-]; by apply Hp|done].
  intros [= <-]. by left.
Qed.

Lemma thinned_setitem b a m v a' :
  thinned b a → (∀ p, px m p = Some true → px b p = Some v) →
  setitem m v a = inr a' → thinned b a'.
Proof.
  intros [Hs Hp] Hm Hset. split; [by rewrite (setitem_shape _ _ _ _ Hset)|].
  intros p w. rewrite (setitem_px _ _ _ _ _ Hset).
  destruct (px a p) as [x|] eqn:Hx; simpl; [|done].
  destruct (px m p) as [[]|] eqn:Hmp; simpl; [|intros [= <-]; by apply Hp|done].
  intros [= <-]. right. by apply Hm.
Qed.

Lemma np_and_true m1 m2 m p :
  np_and m1 m2 = inr m → is_Some (px m1 p) → px m p = Some true → px m1 p = Some true.
Proof.
  intros Hm [x Hx] Hp. destruct (broadcast2_px_l _ _ _ _ _ _ _ Hm Hx Hp) as [y Hy].
  rewrite Hx. by destruct x.
Qed.

Lemma setitem_mask_shape m v a a' : setitem m v a = inr a' → shape m = shape a.
Proof. unfold setitem. by case_decide. Qed.

Lemma refine_objects_by_overlapping_thins (h : heap) (base_image refiner_image : loc)
    (max_cell_area : Z) (b : image) l h' :
  h !! base_image = Some b →
  refine_objects_by_overlapping base_image refiner_image max_cell_area h = (inr l, h') →
  ∃ out, h' !! l = Some out ∧ thinned b out.
Proof.
  intros Hb. unfold refine_objects_by_overlapping.
  rewrite bind_run, (load_run _ _ _ Hb), bind_run. unfold new at 1. cbv beta iota.
  set (refined := length h). set (h1 := h ++ [b]).
  assert (holds refined (thinned b) h1) as Hinit.
  { exists b. split; [|apply thinned_refl]. unfold h1, refined.
    by rewrite lookup_app_r, Nat.sub_diag by lia. }
  intros Hrun.
  apply bind_inr in Hrun as (r & h2 & Hr & Hrun).
  apply bind_inr in Hrun as (start & h3 & Hstart & Hrun).
  apply bind_inr in Hrun as (props & h3' & Hprops & Hrun).
  apply bind_inr in Hrun as ([] & h4 & Hloop & Hrun).
  injection Hrun as <- <-.
  assert (h2 = h1) as ->.
  { unfold load in Hr. destruct (h1 !! refiner_image); by simplify_eq. }
  assert (h3 = h1) as ->.
  { unfold load in Hstart. destruct (h1 !! refined); by simplify_eq. }
  assert (h3' = h1) as -> by (unfold lift in Hprops; by simplify_eq).
  enough (holds refined (thinned b) h4) as (out & ? & ?) by eauto.
  replace h4 with ((for_each props tt (λ region_prop _,
    cur ← load refined;
    if decide (area cur region_prop < max_cell_area) then
      overlap_mask ← lift (np_and (np_eq cur region_prop) (np_gt r 0));
      if np_any overlap_mask then
        update refined (setitem (np_eq cur region_prop) 0);;
        update refined (setitem overlap_mask region_prop)
      else
        update refined (setitem (np_eq cur region_prop) 0)
    else mret tt)) h1).2 by (by rewrite Hloop).
  apply keeps_for_each; [|done]. intros v [].
  apply keeps_load. intros cur Hcur.
  case_decide; [|apply keeps_ret].
  intros hx Hhx. rewrite bind_run. unfold lift.
  destruct (np_and (np_eq cur v) (np_gt r 0)) as [e|overlap] eqn:Hov; [done|].
  revert hx Hhx. fold (keeps refined (thinned b)
    (if np_any overlap
     then update refined (setitem (np_eq cur v) 0);;
          update refined (setitem overlap v)
     else update refined (setitem (np_eq cur v) 0))).
  destruct (np_any overlap).
  - apply keeps_bind.
    + apply keeps_update. intros a a'. apply thinned_setitem_zero.
    + intros _. apply keeps_update. intros a a' Ha Hset.
      destruct (decide (v = 0)) as [->|Hv]; [by eapply thinned_setitem_zero|].
      eapply thinned_setitem; [done| |done].
      intros p Hp. apply (np_and_true _ _ _ _ Hov) in Hp; last first.
      { apply (shape_px overlap); [|by rewrite Hp].
        rewrite (setitem_mask_shape _ _ _ _ Hset), shape_np_eq.
        destruct Ha as [-> _]. by destruct Hcur as [-> _]. }
      rewrite px_np_eq in Hp. apply fmap_Some in Hp as (x & Hx & Hdec).
      symmetry in Hdec. apply bool_decide_eq_true in Hdec. subst x.
      destruct Hcur as [_ Hc]. by destruct (Hc _ _ Hx).
  - apply keeps_update. intros a a'. apply thinned_setitem_zero.
Qed.

(** * The two adding passes end in [measure.label] *)

Lemma new_label_lookup (w : image) (h : heap) l h' :
  new (label w) h = (inr l, h') → h' !! l = Some (label w).
Proof.
  unfold new. intros [= <- <-]. by rewrite lookup_app_r, Nat.sub_diag by lia.
Qed.

Lemma add_objects_by_overlapping_relabels (h : heap) dt base_image single_channel_image
    cells_overlap min_cell_area l h' :
  add_objects_by_overlapping dt base_image single_channel_image cells_overlap
    min_cell_area h = (inr l, h') →
  ∃ w, h' !! l = Some (label w).
Proof.
  unfold add_objects_by_overlapping. intros Hrun.
  do 7 (apply bind_inr in Hrun as (? & ? & _ & Hrun)).
  apply bind_inr in Hrun as (w & ? & _ & Hrun).
  exists w. by eapply new_label_lookup.
Qed.

Lemma add_nuclei_by_overlapping_relabels (h : heap) dt base_image single_channel_image
    cells_overlap min_cell_area l h' :
  add_nuclei_by_overlapping dt base_image single_channel_image cells_overlap
    min_cell_area h = (inr l, h') →
  ∃ w, h' !! l = Some (label w).
Proof.
  unfold add_nuclei_by_overlapping. intros Hrun.
  do 7 (apply bind_inr in Hrun as (? & ? & _ & Hrun)).
  apply bind_inr in Hrun as (w & ? & _ & Hrun).
  exists w. by eapply new_label_lookup.
Qed.

(** C5, as stated, fails twice.  [refine_objects_by_overlapping] does not
    relabel: on the base image [[1, 0, 2]] with refiner [[0, 0, 1]] it
    returns [[0, 0, 2]], whose labels do not start at 1.  And the relabelling
    of the adding passes keeps touching regions of different value apart: on
    base [[1, 0]] and single-channel image [[0, 1]],
    [add_objects_by_overlapping] returns [[1, 2]], two labels inside one
    connected component of the non-zero pixels. *)
Lemma relabeling_counterexample :
  (∃ out,
     refine_objects_by_overlapping 0 1 1000 [[[1; 0; 2]]; [[0; 0; 1]]]
     = (inr 2%nat, [[[1; 0; 2]]; [[0; 0; 1]]; out]) ∧
     ¬ consecutive out) ∧
  (∃ out,
     add_objects_by_overlapping I64 0 1 1%Q 1000 [[[1; 0]]; [[0; 1]]]
     = (inr 3%nat, [[[1; 0]]; [[0; 1]]; [[1; 2]]; out]) ∧
     ¬ whole_components out).
Proof.
  split.
  - exists [[0; 0; 2]]. split; [by vm_compute|].
    intros (n & Hle & Hall).
    destruct (Hle (0, 2)%nat 2 eq_refl) as [_ Hn].
    destruct (Hall 1) as ([r c] & Hp); [lia|].
    destruct r as [|r]; [|by destruct r].
    destruct c as [|[|[|c]]]; done.
  - exists [[1; 2]]. split; [by vm_compute|].
    intros Hw.
    destruct (Hw (0, 0)%nat (0, 1)%nat 1 2 eq_refl eq_refl) as [_ Hc]; [done..|].
    enough (1 = 2) by done. apply Hc.
    apply rtc_once. split; [unfold near; simpl; lia|]. by exists 1.
Qed.

(** C5, amended.  [add_nuclei_by_overlapping] and
    [add_objects_by_overlapping] end in [measure.label]: whenever they
    return, the labels of the returned image are the consecutive integers
    from 1 and every label is one 8-connected region (regions that touch
    but held different values before the relabelling stay apart).
    [refine_objects_by_overlapping] does not relabel: it returns its
    working copy, in which every pixel is 0 or holds the label it has in
    the base image. *)
Theorem adding_passes_relabel (h : heap) (first second : loc) :
  (∀ dt cells_overlap min_cell_area l h',
     add_nuclei_by_overlapping dt first second cells_overlap min_cell_area h
     = (inr l, h') →
     ∃ out, h' !! l = Some out ∧ consecutive out ∧ one_piece out) ∧
  (∀ dt cells_overlap min_cell_area l h',
     add_objects_by_overlapping dt first second cells_overlap min_cell_area h
     = (inr l, h') →
     ∃ out, h' !! l = Some out ∧ consecutive out ∧ one_piece out) ∧
  (∀ max_cell_area b l h',
     h !! first = Some b →
     refine_objects_by_overlapping first second max_cell_area h = (inr l, h') →
     ∃ out, h' !! l = Some out ∧ thinned b out).
Proof.
  split_and!.
  - intros ? ? ? l h' (w & Hw)%add_nuclei_by_overlapping_relabels.
    exists (label w). split_and!; [done|apply label_consecutive|apply label_one_piece].
  - intros ? ? ? l h' (w & Hw)%add_objects_by_overlapping_relabels.
    exists (label w). split_and!; [done|apply label_consecutive|apply label_one_piece].
  - intros. by eapply refine_objects_by_overlapping_thins.
Qed.

(** * The overlap query *)

Lemma few_components_b_sound a : few_components_b a = true → few_components a.
Proof.
  unfold few_components_b. intros H p v Hp.
  apply bind_Some in Hp as (row & Hr & Hc).
  rewrite forallb_forall in H.
  apply list_elem_of_lookup_2, list_elem_of_In, H in Hr.
  rewrite forallb_forall in Hr.
  apply list_elem_of_lookup_2, list_elem_of_In, Hr in Hc.
  by apply bool_decide_eq_true in Hc.
Qed.

Lemma label_nonneg a : nonneg (label a).
Proof.
  intros p v Hp. destruct (label_consecutive a) as (n & Hle & _).
  by destruct (Hle _ _ Hp).
Qed.

Lemma scan_overlapping_first (labels : image) (marker : bmask) (maximum_cells_overlap : Q)
    (ls : list Z) :
  shape marker = shape labels →
  match scan_overlapping labels marker maximum_cells_overlap ls with
  | inr (Some (l, cm, r)) =>
      ∃ pre post, ls = pre ++ l :: post ∧ l ≠ 0 ∧
        cm = np_eq labels l ∧ r = overlap_ratio labels marker l ∧
        passes labels marker maximum_cells_overlap l = true ∧
        ∀ l', l' ∈ pre → l' ≠ 0 → passes labels marker maximum_cells_overlap l' = false
  | inr None =>
      ∀ l', l' ∈ ls → l' ≠ 0 → passes labels marker maximum_cells_overlap l' = false
  | inl _ => False
  end.
Proof.
  intros Hs. induction ls as [|l ls IH]; simpl.
  - intros l' Hl'. by apply elem_of_nil in Hl'.
  - case_decide as Hl0.
    { destruct (scan_overlapping _ _ _ ls) as [e|[[[l1 cm] r]|]]; [done|..].
      - destruct IH as (pre & post & -> & ? & ? & ? & ? & Hpre).
        exists (l :: pre), post. split_and!; [done..|].
        intros l' [->|?]%elem_of_cons; [done|by apply Hpre].
      - intros l' [->|?]%elem_of_cons; [done|by apply IH]. }
    rewrite np_and_same by (by rewrite shape_np_eq).
    fold (overlap_ratio labels marker l). fold (area labels l).
    fold (passes labels marker maximum_cells_overlap l).
    destruct (passes labels marker maximum_cells_overlap l) eqn:Hpass.
    + exists [], ls. split_and!; [done..|].
      intros l' Hl'. by apply elem_of_nil in Hl'.
    + destruct (scan_overlapping _ _ _ ls) as [e|[[[l1 cm] r]|]]; [done|..].
      * destruct IH as (pre & post & -> & ? & ? & ? & ? & Hpre).
        exists (l :: pre), post. split_and!; [done..|].
        intros l' [->|?]%elem_of_cons; [done|by apply Hpre].
      * intros l' [->|?]%elem_of_cons; [done|by apply IH].
Qed.

Lemma uint16_labels a : few_components a → uint16 <$> np_unique (label a) = np_unique (label a).
Proof.
  intros Hfew. rewrite <- (list_fmap_id (np_unique (label a))) at 2.
  apply list_fmap_ext. intros _ v Hv%list_elem_of_lookup_2.
  apply elem_of_np_unique in Hv as (p & Hp).
  pose proof (label_nonneg a _ _ Hp). specialize (Hfew _ _ Hp).
  unfold uint16. simpl. apply Z.mod_small. lia.
Qed.

Lemma overlapping_components_found (a : image) (marker : bmask)
    (maximum_cells_overlap : Q) :
  shape marker = shape a → few_components a →
  let labels := label a in
  match get_overlapping_components a (BoolArray marker) maximum_cells_overlap with
  | inr (Some (l, cm, r)) =>
      l ∈ regionprops labels ∧
      cm = np_eq labels l ∧ r = overlap_ratio labels marker l ∧
      passes labels marker maximum_cells_overlap l = true ∧
      ∀ l', l' ∈ regionprops labels → l' < l →
            passes labels marker maximum_cells_overlap l' = false
  | inr None =>
      ∀ l', l' ∈ regionprops labels →
            passes labels marker maximum_cells_overlap l' = false
  | inl _ => False
  end.
Proof.
  intros Hs Hfew labels.
  unfold get_overlapping_components. rewrite uint16_labels by done. fold labels.
  pose proof (scan_overlapping_first labels marker maximum_cells_overlap
                (np_unique labels)) as Hscan.
  destruct (scan_overlapping _ _ _ _) as [e|[[[l cm] r]|]].
  - apply Hscan. unfold labels. by rewrite label_shape.
  - destruct Hscan as (pre & post & Hls & Hl0 & -> & -> & Hpass & Hpre).
    { unfold labels. by rewrite label_shape. }
    assert (l ∈ np_unique labels) as Hin.
    { rewrite Hls. apply elem_of_app. right. left. }
    split_and!; [|done..|].
    + apply elem_of_regionprops. apply elem_of_np_unique in Hin as (p & Hp).
      split; [|eauto]. pose proof (label_nonneg a _ _ Hp). lia.
    + intros l' [Hpos Hex]%elem_of_regionprops Hlt.
      apply Hpre; [|lia].
      apply elem_of_np_unique in Hex. rewrite Hls in Hex.
      apply elem_of_app in Hex as [?|Hex]; [done|].
      pose proof (np_unique_sorted labels) as Hsorted. rewrite Hls in Hsorted.
      apply StronglySorted_app_1_r, StronglySorted_cons in Hsorted as [Hall _].
      rewrite Forall_forall in Hall.
      apply elem_of_cons in Hex as [->|Hex]; [lia|]. specialize (Hall _ Hex). lia.
  - intros l' [Hpos Hex]%elem_of_regionprops.
    apply Hscan; [unfold labels; by rewrite label_shape| |lia].
    by apply elem_of_np_unique.
Qed.

(** C7, as stated, fails: the labels that are scanned and returned are
    those of the relabelling [label(original_image)], not those of the
    image.  On the 64x64 image filled with label 5 and the marker that
    covers it, the first qualifying label of the image is 5 and the code
    returns 1. *)
Lemma overlap_query_counterexample :
  findOverlappingComponent_spec (full 64 64 5) (full_mask 64 64 true) 1%Q = Some 5 ∧
  get_overlapping_components (full 64 64 5) (BoolArray (full_mask 64 64 true)) 1%Q
  = inr (Some (1, full_mask 64 64 true, Fin (4096 # 4096)%Q)).
Proof. split; by vm_compute. Qed.

(** C7, amended.  For a label image and a boolean marker of its shape, the
    image having fewer than 65536 components: [get_overlapping_components]
    scans the labels of the relabelling [labels = label(original_image)] in
    ascending order and returns the first one whose component has
    [0 < ratio <= maximum_cells_overlap] and an area of at least 4000,
    together with the mask of that component in [labels] and the ratio; it
    returns all-[None] when no label of [labels] passes.  The returned id is
    the one of [labels], which is the image's own id only when the image is
    already relabelled.  A marker that is not boolean raises a
    [ValueError]. *)
Theorem get_overlapping_components_first (a : image) (marker : bmask)
    (maximum_cells_overlap : Q) :
  shape marker = shape a → few_components a →
  let labels := label a in
  match get_overlapping_components a (BoolArray marker) maximum_cells_overlap with
  | inr (Some (l, cm, r)) =>
      l ∈ regionprops labels ∧
      cm = np_eq labels l ∧ r = overlap_ratio labels marker l ∧
      passes labels marker maximum_cells_overlap l = true ∧
      ∀ l', l' ∈ regionprops labels → l' < l →
            passes labels marker maximum_cells_overlap l' = false
  | inr None =>
      ∀ l', l' ∈ regionprops labels →
            passes labels marker maximum_cells_overlap l' = false
  | inl _ => False
  end ∧
  ∀ m, get_overlapping_components a (IntArray m) maximum_cells_overlap
       = inl (ValueError "Mask of the marker has to be boolean.").
Proof.
  intros Hs Hfew labels. split; [|done].
  by apply overlapping_components_found.
Qed.

(** * The adding passes on concrete images *)

(** ** One step of [add_objects_by_overlapping] *)

Lemma labels_below_b_sound n a : labels_below_b n a = true → labels_below n a.
Proof.
  unfold labels_below_b. intros H p v Hp.
  apply bind_Some in Hp as (row & Hr & Hc).
  rewrite forallb_forall in H.
  apply list_elem_of_lookup_2, list_elem_of_In, H in Hr.
  rewrite forallb_forall in Hr.
  apply list_elem_of_lookup_2, list_elem_of_In, Hr in Hc.
  by apply bool_decide_eq_true in Hc.
Qed.


Lemma setitem_rows_px i v a a' p x :
  setitem_rows i v a = inr a' → px a' p = Some x → x = v ∨ px a p = Some x.
Proof.
  unfold setitem_rows. destruct (mapM _ _) as [rows|]; [|done]. intros [= <-].
  unfold px. rewrite list_lookup_imap.
  destruct (a !! p.1) as [row|]; simpl; [|done].
  case_decide; [|intros ?; by right].
  intros [-> _]%lookup_replicate. by left.
Qed.

Lemma labels_below_setitem_rows i n a a' :
  0 < n → labels_below n a → setitem_rows i 0 a = inr a' → labels_below n a'.
Proof.
  intros Hn Ha Hset p x Hp.
  destruct (setitem_rows_px _ _ _ _ _ _ Hset Hp) as [->|Hx]; [done|by eapply Ha].
Qed.

Lemma labels_below_setitem m n a a' :
  labels_below n a → setitem m n a = inr a' → labels_below (n + 1) a'.
Proof.
  intros Ha Hset p x Hp. rewrite (setitem_px _ _ _ _ _ Hset) in Hp.
  destruct (px a p) as [y|] eqn:Hy; simpl in Hp; [|done].
  destruct (px m p) as [[]|]; simplify_eq/=; [lia|].
  specialize (Ha _ _ Hy). lia.
Qed.

(** [next_usable_label] stays above every label of the working copy, all
    through the loop, as long as the dtype has room for it: one step keeps
    it so on each of its paths. *)
Lemma add_objects_body_below (dt : dtype) (h h' : heap) (cur : image)
    (image single_channel_image : loc) (mask : bmask) (cells_overlap : Q) (min_cell_area : Z)
    (reg_prop next_usable_label next' : Z) :
  h !! image = Some cur → 0 < next_usable_label < dtype_max dt →
  labels_below next_usable_label cur →
  add_objects_body dt image single_channel_image mask cells_overlap min_cell_area
    reg_prop next_usable_label h = (inr next', h') →
  ∃ cur', h' !! image = Some cur' ∧
          next_usable_label ≤ next' ≤ next_usable_label + 1 ∧ labels_below next' cur'.
Proof.
  intros Hcur Hn Hbelow Hrun. unfold add_objects_body in Hrun.
  rewrite wrap_succ in Hrun by lia.
  apply bind_inr in Hrun as (sc & h1 & Hsc & Hrun).
  assert (h1 = h) as ->.
  { unfold load in Hsc. destruct (h !! single_channel_image); by simplify_eq. }
  apply bind_inr in Hrun as (overlap_mask & h1 & Hand & Hrun).
  assert (h1 = h) as -> by (unfold lift in Hand; by simplify_eq).
  assert (∀ h0 a1 h2 (m : bmask),
    h0 !! image = Some a1 → labels_below next_usable_label a1 →
    (update image (setitem m next_usable_label);; mret (next_usable_label + 1)) h0
      = (inr next', h2) →
    ∃ cur', h2 !! image = Some cur' ∧
            next_usable_label ≤ next' ≤ next_usable_label + 1 ∧
            labels_below next' cur') as Hstamp.
  { clear Hrun. intros h0 a1 h2 m Ha1 Hb1 Hrun.
    apply bind_inr in Hrun as ([] & h3 & Hup & Hrun).
    unfold update in Hup. rewrite bind_run, (load_run _ _ _ Ha1), bind_run in Hup.
    unfold lift in Hup. destruct (setitem m next_usable_label a1) as [e|a2] eqn:Hset;
      [done|].
    unfold store in Hup. injection Hup as <-. injection Hrun as <- <-.
    exists a2. split_and!; [|lia|lia|by eapply labels_below_setitem].
    apply list_lookup_insert_eq. by eapply lookup_lt_Some. }
  assert (next_usable_label ≤ next_usable_label ≤ next_usable_label + 1) as Hsame by lia.
  case_decide.
  - rewrite bind_run, (load_run _ _ _ Hcur), bind_run in Hrun. unfold lift in Hrun.
    destruct (get_overlapping_components _ _ _) as [e|[[[l cm] r]|]]; [done|..].
    + case_decide; [|injection Hrun as <- <-; eauto].
      apply bind_inr in Hrun as ([] & h3 & Hup & Hrun).
      unfold update in Hup. rewrite bind_run, (load_run _ _ _ Hcur), bind_run in Hup.
      unfold lift in Hup. destruct (setitem_rows _ 0 cur) as [e|cur1] eqn:Hrows; [done|].
      unfold store in Hup. injection Hup as <-.
      eapply Hstamp; [|by eapply labels_below_setitem_rows; [lia|..]|done].
      apply list_lookup_insert_eq. by eapply lookup_lt_Some.
    + injection Hrun as <- <-. eauto.
  - by eapply Hstamp.
Qed.

(** X14.  All through the loop of [add_objects_by_overlapping] the next
    usable label is positive and above every label of the working copy, as
    long as the dtype of the image has room for one new label per region:
    whatever the regions and the state the loop starts from, if this holds
    before the loop and the loop returns, it holds after it, and the label
    has advanced by at most the number of regions.  A label that is stamped
    is therefore new to the working copy. *)
Lemma add_objects_loop_below (dt : dtype) (regions : list Z) (h h' : heap) (cur : image)
    (image single_channel_image : loc) (mask : bmask) (cells_overlap : Q)
    (min_cell_area next_usable_label next' : Z) :
  h !! image = Some cur → 0 < next_usable_label →
  next_usable_label + Z.of_nat (length regions) ≤ dtype_max dt →
  labels_below next_usable_label cur →
  for_each regions next_usable_label
    (add_objects_body dt image single_channel_image mask cells_overlap min_cell_area) h
  = (inr next', h') →
  ∃ cur', h' !! image = Some cur' ∧
          next_usable_label ≤ next' ≤ next_usable_label + Z.of_nat (length regions) ∧
          labels_below next' cur'.
Proof.
  revert h cur next_usable_label.
  induction regions as [|reg_prop regions IH]; intros h cur n Hcur Hn Hroom Hbelow Hrun.
  - injection Hrun as <- <-. exists cur. simpl. split_and!; [done|lia|lia|done].
  - simpl in Hrun. apply bind_inr in Hrun as (n1 & h1 & Hstep & Hrun).
    rewrite length_cons, Nat2Z.inj_succ in *.
    assert (0 < n < dtype_max dt) as Hn0 by lia.
    destruct (add_objects_body_below dt _ _ _ _ _ _ _ _ _ _ _ Hcur Hn0 Hbelow Hstep)
      as (cur1 & Hcur1 & Hn1 & Hbelow1).
    assert (0 < n1) as Hp1 by lia.
    assert (n1 + Z.of_nat (length regions) ≤ dtype_max dt) as Hr1 by lia.
    destruct (IH _ _ _ Hcur1 Hp1 Hr1 Hbelow1 Hrun) as (cur' & Hcur' & Hn' & Hbelow').
    exists cur'. split_and!; [done|lia|lia|done].
Qed.

(** At the start of the loop [next_usable_label] is the maximum of the base
    image plus one. *)
Lemma get_maximum_label_below (b : image) (max_label : Z) :
  nonneg b → get_maximum_label b = inr max_label →
  0 < max_label + 1 ∧ labels_below (max_label + 1) b.
Proof.
  intros Hb. unfold get_maximum_label, np_max.
  destruct (np_unique b) as [|x l] eqn:Hu; [done|]. intros [= <-].
  assert (∀ y, y ∈ x :: l → y ≤ foldr Z.max x l) as Hmax.
  { clear. induction l as [|z l IH]; simpl.
    - intros y ->%list_elem_of_singleton. lia.
    - intros y [Hy|[Hy|Hy]%elem_of_cons]%elem_of_cons.
      + assert (y ≤ foldr Z.max x l) by (apply IH; subst; left). lia.
      + lia.
      + assert (y ≤ foldr Z.max x l) by (apply IH; by right). lia. }
  assert (∀ p v, px b p = Some v → 0 ≤ v ≤ foldr Z.max x l) as Hall.
  { intros p v Hp. split; [by eapply Hb|].
    apply Hmax. rewrite <- Hu. apply elem_of_np_unique. eauto. }
  split.
  - assert (x ∈ np_unique b) as (p & Hp)%elem_of_np_unique by (rewrite Hu; left).
    specialize (Hall _ _ Hp). lia.
  - intros p v Hp. specialize (Hall _ _ Hp). lia.
Qed.



(** The carving assignment itself.  On a cell of 4096 pixels and the
    one-pixel object R at (32, 32) on top of it,
    [image[dilated_current_mask] = 0] does not zero the 9x9 footprint of R:
    the index is an integer array, which selects rows 0 and 1 of the image.
    In the working copy [w] the pixel (0, 0), outside the footprint, is
    zeroed, and the pixel (30, 30), inside the footprint, keeps the label of
    the cell; R gets the new label 2. *)
Lemma add_objects_carves_rows_not_footprint :
  ∃ w out,
    add_objects_by_overlapping I64 0 1 1%Q 1000 [host64; speck64]
    = (inr 3%nat, [host64; speck64; w; out]) ∧
    px (dilation (astype_int (np_eq speck64 1)) 9) (0, 0)%nat = Some 0 ∧
    px host64 (0, 0)%nat = Some 1 ∧ px w (0, 0)%nat = Some 0 ∧
    px (dilation (astype_int (np_eq speck64 1)) 9) (30, 30)%nat = Some 1 ∧
    px w (30, 30)%nat = Some 1 ∧
    px w (32, 32)%nat = Some 2.
Proof. eexists _, _. vm_compute. split_and!; reflexivity. Qed.

(** C3.  The first nuclei region overlaps no cell and gets the fresh label
    2.  The second lies inside the cell, whose id in the base image is 1;
    the id written over cell and nucleus is the one the cell has in the
    relabelling made inside [get_nuclei_connected_components], which is 2.
    In the working copy [w] the cell has lost its id 1 and carries the fresh
    label of the first nuclei region, which touches it: the final
    relabelling returns them as one region. *)
Theorem add_nuclei_writes_relabelled_id :
  ∃ w out,
    add_nuclei_by_overlapping U16 0 1 100%Q 1000 [host32; nuclei32]
    = (inr 3%nat, [host32; nuclei32; w; out]) ∧
    px host32 (1, 0)%nat = Some 0 ∧ px host32 (2, 0)%nat = Some 1 ∧
    px host32 (10, 10)%nat = Some 1 ∧
    px w (1, 0)%nat = Some 2 ∧ px w (2, 0)%nat = Some 2 ∧ px w (10, 10)%nat = Some 2 ∧
    regionprops out = [1] ∧ px out (1, 0)%nat = Some 1 ∧ px out (2, 0)%nat = Some 1.
Proof. eexists _, _. vm_compute. split_and!; reflexivity. Qed.

(** * The theorems on concrete inputs *)

Lemma passes_leave_inputs_unchanged_witness :
  (refine_objects_by_overlapping 0 1 1000 [[[1; 0; 2]]; [[0; 0; 1]]]).2 !! 0%nat
  = Some [[1; 0; 2]] ∧
  (add_objects_by_overlapping I64 0 1 1%Q 1000 [[[1; 0; 2]]; [[0; 0; 1]]]).2 !! 1%nat
  = Some [[0; 0; 1]].
Proof.
  split.
  - exact (proj1 (proj2 (passes_leave_inputs_unchanged
             [[[1; 0; 2]]; [[0; 0; 1]]] 0 [[1; 0; 2]] eq_refl)) 0%nat 1%nat 1000).
  - exact (proj1 (proj2 (proj2 (passes_leave_inputs_unchanged
             [[[1; 0; 2]]; [[0; 0; 1]]] 1 [[0; 0; 1]] eq_refl))) I64 0%nat 1%nat 1%Q 1000).
Defined.

Lemma fusion_returns_only_with_just_evs_witness :
  (∃ out h', fusion_post_processing demo_dict demo_dict demo_dict tt true []
             = (inr out, h')) ∧
  (∃ h', fusion_post_processing demo_dict demo_dict demo_dict tt false []
         = (inl (UnboundLocalError "refined_evs_prediction"), h')) ∧
  true = true.
Proof.
  split_and!.
  - eexists _, _. vm_compute. reflexivity.
  - eexists. vm_compute. reflexivity.
  - eapply (proj2 (fusion_returns_only_with_just_evs demo_dict demo_dict demo_dict tt)
              true []).
    vm_compute. reflexivity.
Defined.

Lemma foi_correction_erases_outside_inset_witness :
  foi_margin "BF-C2DL-HSC" = 25 ∧
  foi_margin "PhC-C2DH-U373" = 50 ∧
  ∃ a', foi_correction 0 "BF-C2DL-HSC" [foi_example]
        = (inr 0%nat, <[0%nat := a']> [foi_example]) ∧
        shape a' = shape foi_example ∧
        px foi_example (3, 3)%nat = Some 2 ∧ px a' (3, 3)%nat = Some 0 ∧
        px foi_example (55, 55)%nat = Some 1 ∧ px a' (55, 55)%nat = Some 1.
Proof.
  destruct (foi_correction_erases_outside_inset [foi_example] 0 foi_example
              "BF-C2DL-HSC" eq_refl) as (_ & H25 & _ & a' & Hrun & Hshape & Hpx).
  destruct (foi_correction_erases_outside_inset [foi_example] 0 foi_example
              "PhC-C2DH-U373" eq_refl) as (H50 & _).
  cbv zeta in *.
  assert (foi_margin "BF-C2DL-HSC" = 25) as HE.
  { apply H25. rewrite !elem_of_cons. auto. }
  split_and!.
  - exact HE.
  - apply H50. rewrite !elem_of_cons. auto 10.
  - exists a'. split_and!; [exact Hrun|exact Hshape|vm_compute; reflexivity|
                            |vm_compute; reflexivity|].
    + assert (foi_correction 0 "BF-C2DL-HSC" [foi_example]
              = (inr 0%nat, [block (50, 50)%nat 10 1 (full 100 100 0)])) as Hc
        by (vm_compute; reflexivity).
      rewrite Hc in Hrun. injection Hrun as <-. vm_compute. reflexivity.
    + assert (px foi_example (55, 55)%nat = Some 1) as H1 by (vm_compute; reflexivity).
      destruct (Hpx (55, 55)%nat 1 H1) as (_ & Hin & _). apply Hin; [lia|].
      exists (55, 55)%nat. rewrite HE. split; [|vm_compute; reflexivity].
      unfold in_inset. replace (length foi_example) with 100%nat by (vm_compute; reflexivity).
      replace (width foi_example) with 100%nat by (vm_compute; reflexivity).
      simpl. lia.
Defined.

(** The example of the specification: with a margin of 25 the region inside
    the inset stays as it is and the region in the margin is erased. *)
Example foi_correction_example :
  foi_correction 0 "BF-C2DL-HSC" [foi_example]
  = (inr 0%nat, [block (50, 50)%nat 10 1 (full 100 100 0)]).
Proof. by vm_compute. Qed.

Lemma get_overlapping_components_first_witness :
  1 ∈ regionprops (label (full 64 64 5)) ∧
  passes (label (full 64 64 5)) (full_mask 64 64 true) 1%Q 1 = true.
Proof.
  assert (shape (full_mask 64 64 true) = shape (full 64 64 5)) as Hs
    by (vm_compute; reflexivity).
  assert (few_components (full 64 64 5)) as Hf
    by (apply few_components_b_sound; vm_compute; reflexivity).
  pose proof (get_overlapping_components_first (full 64 64 5) (full_mask 64 64 true)
                1%Q Hs Hf) as [H _].
  cbv zeta in H.
  assert (get_overlapping_components (full 64 64 5) (BoolArray (full_mask 64 64 true)) 1%Q
          = inr (Some (1, full_mask 64 64 true, Fin (4096 # 4096)%Q))) as E
    by (vm_compute; reflexivity).
  rewrite E in H. destruct H as (H1 & _ & _ & H2 & _). exact (conj H1 H2).
Defined.

Lemma remove_smaller_areas_law_witness :
  ∃ l out h',
    remove_smaller_areas 0 2%Q [three_regions] = (inr l, h') ∧
    h' !! l = Some out ∧ shape out = shape three_regions ∧
    ∀ k, k ∈ regionprops out → (2 < inject_Z (area out k))%Q.
Proof.
  apply (remove_smaller_areas_law [three_regions] 0 three_regions 2%Q).
  - reflexivity.
  - apply nonneg_b_sound. vm_compute. reflexivity.
  - apply one_piece_b_sound. vm_compute. reflexivity.
  - vm_compute. discriminate.
  - vm_compute. discriminate.
Defined.

(** What [remove_smaller_areas] returns on [three_regions] with threshold 2. *)
Example remove_smaller_areas_example :
  remove_smaller_areas 0 2%Q [three_regions]
  = (inr 2%nat,
     [three_regions; [[0; 0; 0; 0]; [0; 0; 0; 0]; [3; 3; 3; 0]];
      [[0; 0; 0; 0]; [0; 0; 0; 0]; [1; 1; 1; 0]]]).
Proof. by vm_compute. Qed.

(** The law needs the labels of the input to be connected: the label 1 of
    [[1, 0, 1]] has area 2 and survives the threshold 1, and the
    relabelling then splits it into two regions of area 1. *)
Example remove_smaller_areas_split_label :
  remove_smaller_areas 0 1%Q [[[1; 0; 1]]]
  = (inr 2%nat, [[[1; 0; 1]]; [[1; 0; 1]]; [[1; 0; 2]]]).
Proof. by vm_compute. Qed.

Lemma adding_passes_relabel_witness :
  (∃ out, [[[1; 0]]; [[0; 1]]; [[1; 2]]; [[1; 2]]] !! 3%nat = Some out ∧
          consecutive out ∧ one_piece out) ∧
  (∃ out, [[[1; 0; 2]]; [[0; 0; 1]]; [[0; 0; 2]]] !! 2%nat = Some out ∧
          thinned [[1; 0; 2]] out).
Proof.
  split.
  - apply (proj1 (proj2 (adding_passes_relabel [[[1; 0]]; [[0; 1]]] 0 1)) I64 1%Q 1000).
    vm_compute. reflexivity.
  - apply (proj2 (proj2 (adding_passes_relabel [[[1; 0; 2]]; [[0; 0; 1]]] 0 1)) 1000).
    + reflexivity.
    + vm_compute. reflexivity.
Defined.


(** * The maximum label and the two overlap queries *)

Lemma insert_sorted_not_nil x l : insert_sorted x l ≠ [].
Proof. destruct l as [|y l]; simpl; [done|]. repeat case_decide; done. Qed.

Lemma np_unique_nil a : np_unique a = [] ↔ np_size a = 0%nat.
Proof.
  unfold np_unique, np_size. destruct (concat a) as [|x l]; simpl; [done|].
  split; [|done]. intros H. by apply insert_sorted_not_nil in H.
Qed.

Lemma foldr_max_spec (x : Z) (l : list Z) :
  foldr Z.max x l ∈ x :: l ∧ ∀ y, y ∈ x :: l → y ≤ foldr Z.max x l.
Proof.
  induction l as [|z l [IHin IHle]]; simpl.
  - split; [left|]. intros y ->%list_elem_of_singleton. lia.
  - split.
    + destruct (Z.max_spec z (foldr Z.max x l)) as [[_ ->]|[_ ->]].
      * apply elem_of_cons in IHin as [->|?]; [left|right; by right].
      * right. left.
    + intros y [Hy|[Hy|Hy]%elem_of_cons]%elem_of_cons.
      * assert (y ≤ foldr Z.max x l) by (apply IHle; subst; left). lia.
      * lia.
      * assert (y ≤ foldr Z.max x l) by (apply IHle; by right). lia.
Qed.

Lemma get_maximum_label_empty (a : image) :
  np_size a = 0%nat →
  get_maximum_label a
  = inl (ValueError
           "zero-size array to reduction operation maximum which has no identity").
Proof.
  intros Hs. unfold get_maximum_label, np_max.
  apply np_unique_nil in Hs. by rewrite Hs.
Qed.

(** X15.  [get_maximum_label] returns the largest value of the array, which is a
    value that occurs in it (and not that value plus one); on an array
    without elements it raises the [ValueError] of [np.max]. *)
Theorem get_maximum_label_is_max (a : image) :
  (np_size a = 0%nat →
   get_maximum_label a
   = inl (ValueError
            "zero-size array to reduction operation maximum which has no identity")) ∧
  (np_size a ≠ 0%nat →
   ∃ m, get_maximum_label a = inr m ∧
        (∃ p, px a p = Some m) ∧ ∀ p v, px a p = Some v → v ≤ m).
Proof.
  split; [apply get_maximum_label_empty|].
  unfold get_maximum_label, np_max.
  - intros Hs. destruct (np_unique a) as [|x l] eqn:Hu.
    { by apply np_unique_nil in Hu. }
    destruct (foldr_max_spec x l) as [Hin Hle].
    eexists. split_and!; [done|..].
    + apply elem_of_np_unique. by rewrite Hu.
    + intros p v Hp. apply Hle. rewrite <- Hu. apply elem_of_np_unique. eauto.
Qed.

(** ** Counting the pixels of a mask *)

Lemma row_sum_nonneg (row : list bool) :
  0 ≤ foldr (λ (b : bool) t, (if b then 1 else 0) + t) 0 row.
Proof. induction row as [|[] row IH]; simpl; lia. Qed.

Lemma np_sum_nonneg (m : bmask) : 0 ≤ np_sum m.
Proof.
  unfold np_sum. induction m as [|row m IH]; simpl; [done|].
  pose proof (row_sum_nonneg row). lia.
Qed.

Lemma row_sum_and_le (r1 r2 : list bool) :
  foldr (λ (b : bool) t, (if b then 1 else 0) + t) 0 (zip_with andb r1 r2)
  ≤ foldr (λ (b : bool) t, (if b then 1 else 0) + t) 0 r2.
Proof.
  revert r2. induction r1 as [|b1 r1 IH]; intros [|b2 r2]; simpl; try done.
  - pose proof (row_sum_nonneg r2). destruct b2; lia.
  - specialize (IH r2). destruct b1, b2; simpl; lia.
Qed.

Lemma np_sum_and_le (m1 m2 : bmask) : np_sum (zip2 andb m1 m2) ≤ np_sum m2.
Proof.
  unfold np_sum, zip2. revert m2.
  induction m1 as [|r1 m1 IH]; intros [|r2 m2]; simpl; try done.
  - pose proof (np_sum_nonneg m2) as H. unfold np_sum in H.
    pose proof (row_sum_nonneg r2). lia.
  - specialize (IH m2). pose proof (row_sum_and_le r1 r2). lia.
Qed.

(** The ratio of an overlap is never above 1, and it is [nan] for a marker
    without pixels. *)
Lemma overlap_ratio_le_one (cm marker : bmask) (c : Q) :
  (1 <= c)%Q →
  ratio_pos (np_divide (np_sum (zip2 andb cm marker)) (np_sum marker)) = true →
  ratio_le (np_divide (np_sum (zip2 andb cm marker)) (np_sum marker)) c = true.
Proof.
  intros Hc. pose proof (np_sum_and_le cm marker) as Hle.
  pose proof (np_sum_nonneg (zip2 andb cm marker)) as H0.
  unfold np_divide. case_decide as Hd.
  - rewrite decide_True by lia. done.
  - intros _. simpl. apply Qle_bool_iff.
    apply Qle_shift_div_r.
    + replace 0%Q with (inject_Z 0) by done. rewrite <- Zlt_Qlt. lia.
    + apply Qle_trans with (1 * inject_Z (np_sum marker))%Q.
      * rewrite Qmult_1_l. rewrite <- Zle_Qle. done.
      * apply Qmult_le_compat_r; [done|].
        replace 0%Q with (inject_Z 0) by done. rewrite <- Zle_Qle. lia.
Qed.

Lemma overlap_ratio_empty_marker (cm marker : bmask) :
  np_sum marker = 0 →
  ratio_pos (np_divide (np_sum (zip2 andb cm marker)) (np_sum marker)) = false.
Proof.
  intros Hm. pose proof (np_sum_and_le cm marker) as Hle.
  pose proof (np_sum_nonneg (zip2 andb cm marker)) as H0.
  unfold np_divide. rewrite !decide_True by lia. done.
Qed.

(** ** [get_nuclei_connected_components] *)

Lemma scan_nuclei_first (labels : image) (marker : bmask) (minimum_component_dim : Z)
    (ls : list Z) :
  shape marker = shape labels →
  match scan_nuclei labels marker minimum_component_dim ls with
  | inr (Some (l, cm, r)) =>
      ∃ pre post, ls = pre ++ l :: post ∧ l ≠ 0 ∧
        cm = np_eq labels l ∧ r = overlap_ratio labels marker l ∧
        passes_nuclei labels marker minimum_component_dim l = true ∧
        ∀ l', l' ∈ pre → l' ≠ 0 →
              passes_nuclei labels marker minimum_component_dim l' = false
  | inr None =>
      ∀ l', l' ∈ ls → l' ≠ 0 →
            passes_nuclei labels marker minimum_component_dim l' = false
  | inl _ => False
  end.
Proof.
  intros Hs. induction ls as [|l ls IH]; simpl.
  - intros l' Hl'. by apply elem_of_nil in Hl'.
  - case_decide as Hl0.
    { destruct (scan_nuclei _ _ _ ls) as [e|[[[l1 cm] r]|]]; [done|..].
      - destruct IH as (pre & post & -> & ? & ? & ? & ? & Hpre).
        exists (l :: pre), post. split_and!; [done..|].
        intros l' [->|?]%elem_of_cons; [done|by apply Hpre].
      - intros l' [->|?]%elem_of_cons; [done|by apply IH]. }
    rewrite np_and_same by (by rewrite shape_np_eq).
    fold (overlap_ratio labels marker l). fold (area labels l).
    fold (passes_nuclei labels marker minimum_component_dim l).
    destruct (passes_nuclei labels marker minimum_component_dim l) eqn:Hpass.
    + exists [], ls. split_and!; [done..|].
      intros l' Hl'. by apply elem_of_nil in Hl'.
    + destruct (scan_nuclei _ _ _ ls) as [e|[[[l1 cm] r]|]]; [done|..].
      * destruct IH as (pre & post & -> & ? & ? & ? & ? & Hpre).
        exists (l :: pre), post. split_and!; [done..|].
        intros l' [->|?]%elem_of_cons; [done|by apply Hpre].
      * intros l' [->|?]%elem_of_cons; [done|by apply IH].
Qed.

(** X19.  For an image with fewer than 65536 components and a boolean marker of
    its shape, [get_nuclei_connected_components] scans the labels of
    [labels = label(original_image)] in ascending order and returns the
    first whose component meets the marker and has at least
    [minimum_component_dim] pixels, with the mask of that component in
    [labels] and the overlap ratio; it returns all-[None] when no label
    passes, and it raises a [ValueError] for a marker that is not
    boolean. *)
Theorem get_nuclei_connected_components_first (a : image) (marker : bmask)
    (minimum_component_dim : Z) :
  shape marker = shape a → few_components a →
  let labels := label a in
  match get_nuclei_connected_components a (BoolArray marker) minimum_component_dim with
  | inr (Some (l, cm, r)) =>
      l ∈ regionprops labels ∧
      cm = np_eq labels l ∧ r = overlap_ratio labels marker l ∧
      passes_nuclei labels marker minimum_component_dim l = true ∧
      ∀ l', l' ∈ regionprops labels → l' < l →
            passes_nuclei labels marker minimum_component_dim l' = false
  | inr None =>
      ∀ l', l' ∈ regionprops labels →
            passes_nuclei labels marker minimum_component_dim l' = false
  | inl _ => False
  end ∧
  ∀ m, get_nuclei_connected_components a (IntArray m) minimum_component_dim
       = inl (ValueError "Mask of the marker has to be boolean.").
Proof.
  intros Hs Hfew labels. split; [|done].
  unfold get_nuclei_connected_components. rewrite uint16_labels by done. fold labels.
  pose proof (scan_nuclei_first labels marker minimum_component_dim
                (np_unique labels)) as Hscan.
  destruct (scan_nuclei _ _ _ _) as [e|[[[l cm] r]|]].
  - apply Hscan. unfold labels. by rewrite label_shape.
  - destruct Hscan as (pre & post & Hls & Hl0 & -> & -> & Hpass & Hpre).
    { unfold labels. by rewrite label_shape. }
    assert (l ∈ np_unique labels) as Hin.
    { rewrite Hls. apply elem_of_app. right. left. }
    split_and!; [|done..|].
    + apply elem_of_regionprops. apply elem_of_np_unique in Hin as (p & Hp).
      split; [|eauto]. pose proof (label_nonneg a _ _ Hp). lia.
    + intros l' [Hpos Hex]%elem_of_regionprops Hlt.
      apply Hpre; [|lia].
      apply elem_of_np_unique in Hex. rewrite Hls in Hex.
      apply elem_of_app in Hex as [?|Hex]; [done|].
      pose proof (np_unique_sorted labels) as Hsorted. rewrite Hls in Hsorted.
      apply StronglySorted_app_1_r, StronglySorted_cons in Hsorted as [Hall _].
      rewrite Forall_forall in Hall.
      apply elem_of_cons in Hex as [->|Hex]; [lia|]. specialize (Hall _ Hex). lia.
  - intros l' [Hpos Hex]%elem_of_regionprops.
    apply Hscan; [unfold labels; by rewrite label_shape| |lia].
    by apply elem_of_np_unique.
Qed.

(** ** The two queries against each other *)

Lemma scan_overlapping_as_nuclei (labels : image) (marker : bmask) (c : Q) (ls : list Z) :
  shape marker = shape labels → (1 <= c)%Q →
  scan_overlapping labels marker c ls = scan_nuclei labels marker 4000 ls.
Proof.
  intros Hs Hc. induction ls as [|l ls IH]; simpl; [done|].
  case_decide; [done|].
  rewrite np_and_same by (by rewrite shape_np_eq).
  rewrite IH.
  destruct (ratio_pos _) eqn:Hpos; [|done].
  by rewrite (overlap_ratio_le_one _ _ _ Hc Hpos).
Qed.

(** X17.  For a boolean marker of the shape of the image an overlap ratio
    never exceeds 1, so with [maximum_cells_overlap >= 1] (the default of
    [add_objects_by_overlapping] is 1.0) the upper bound of
    [get_overlapping_components] excludes nothing: the query is
    [get_nuclei_connected_components] with the minimum size 4000.  (A
    marker of another shape that is broadcast against the image can give
    ratios above 1.) *)
Theorem overlap_bound_of_one_is_void (a : image) (marker : bmask)
    (maximum_cells_overlap : Q) :
  shape marker = shape a → (1 <= maximum_cells_overlap)%Q →
  get_overlapping_components a (BoolArray marker) maximum_cells_overlap
  = get_nuclei_connected_components a (BoolArray marker) 4000.
Proof.
  intros Hs Hc. simpl.
  apply scan_overlapping_as_nuclei; [by rewrite label_shape|done].
Qed.

Lemma scan_overlapping_empty_marker (labels : image) (marker : bmask) (c : Q)
    (ls : list Z) :
  shape marker = shape labels → np_sum marker = 0 →
  scan_overlapping labels marker c ls = inr None.
Proof.
  intros Hs Hm. induction ls as [|l ls IH]; simpl; [done|].
  case_decide; [done|].
  rewrite np_and_same by (by rewrite shape_np_eq).
  by rewrite (overlap_ratio_empty_marker _ _ Hm).
Qed.

Lemma scan_nuclei_empty_marker (labels : image) (marker : bmask) (d : Z) (ls : list Z) :
  shape marker = shape labels → np_sum marker = 0 →
  scan_nuclei labels marker d ls = inr None.
Proof.
  intros Hs Hm. induction ls as [|l ls IH]; simpl; [done|].
  case_decide; [done|].
  rewrite np_and_same by (by rewrite shape_np_eq).
  by rewrite (overlap_ratio_empty_marker _ _ Hm).
Qed.

(** X18.  A marker without a [True] pixel finds nothing, whatever the image and
    the bounds: every overlap ratio is then 0/0, which is [nan], and no
    comparison with [nan] holds.  Both queries return all-[None]. *)
Theorem empty_marker_finds_nothing (a : image) (marker : bmask)
    (maximum_cells_overlap : Q) (minimum_component_dim : Z) :
  shape marker = shape a → np_sum marker = 0 →
  get_overlapping_components a (BoolArray marker) maximum_cells_overlap = inr None ∧
  get_nuclei_connected_components a (BoolArray marker) minimum_component_dim = inr None.
Proof.
  intros Hs Hm. split; simpl.
  - apply scan_overlapping_empty_marker; [|done]. by rewrite label_shape.
  - apply scan_nuclei_empty_marker; [|done]. by rewrite label_shape.
Qed.

(** * Element-wise operations on two arrays *)

Lemma zip2_ext {A B C} (f g : A → B → C) a b :
  (∀ x y, f x y = g x y) → zip2 f a b = zip2 g a b.
Proof.
  intros H. unfold zip2. revert b.
  induction a as [|ra a IH]; intros [|rb b]; simpl; try done.
  f_equal; [|apply IH]. clear IH. revert rb.
  induction ra as [|x ra IH]; intros [|y rb]; simpl; try done.
  by rewrite H, IH.
Qed.

Lemma amap_zip2 {A B C D} (f : C → D) (g : A → B → C) a b :
  amap f (zip2 g a b) = zip2 (λ x y, f (g x y)) a b.
Proof.
  unfold amap, zip2. revert b.
  induction a as [|ra a IH]; intros [|rb b]; simpl; try done.
  f_equal; [|apply IH]. clear IH. revert rb.
  induction ra as [|x ra IH]; intros [|y rb]; simpl; try done.
  by rewrite IH.
Qed.

Lemma zip2_amap_right {A B C D} (f : A → B → C) (g : D → B) a b :
  zip2 f a (amap g b) = zip2 (λ x y, f x (g y)) a b.
Proof.
  unfold amap, zip2. revert b.
  induction a as [|ra a IH]; intros [|rb b]; simpl; try done.
  f_equal; [|apply IH]. clear IH. revert rb.
  induction ra as [|x ra IH]; intros [|y rb]; simpl; try done.
  by rewrite IH.
Qed.

Lemma zip2_amap_amap {A B C D} (h : B → C → D) (f : A → B) (g : A → C) a :
  zip2 h (amap f a) (amap g a) = amap (λ x, h (f x) (g x)) a.
Proof.
  apply array_ext.
  - rewrite shape_zip2; by rewrite !shape_fmap.
  - intros p. rewrite px_zip2, !px_fmap. by destruct (px a p).
Qed.

Lemma stretch_fmap {A B} (f : A → B) n (l : list A) :
  stretch n (f <$> l) = f <$> stretch n l.
Proof. destruct l as [|x [|y l]]; simpl; [done| |done]. by rewrite fmap_replicate. Qed.

Lemma broadcast_to_amap {A B} (g : A → B) rows cols (a : list (list A)) :
  broadcast_to rows cols (amap g a) = amap g (broadcast_to rows cols a).
Proof.
  unfold broadcast_to, amap. rewrite <- stretch_fmap. f_equal.
  rewrite <- !list_fmap_compose. apply list_fmap_ext. intros _ row _. simpl.
  apply stretch_fmap.
Qed.

Lemma broadcast2_amap_right {A B C D} (f : A → B → C) (g : D → B) a b :
  broadcast2 f a (amap g b) = broadcast2 (λ x y, f x (g y)) a b.
Proof.
  unfold broadcast2. rewrite shape_fmap, width_fmap.
  replace (length (amap g b)) with (length b) by (unfold amap; by rewrite length_fmap).
  case_decide; [by rewrite zip2_amap_right|].
  destruct (bcast_len (length a) (length b)); [|done].
  destruct (bcast_len (width a) (width b)); [|done].
  by rewrite broadcast_to_amap, zip2_amap_right.
Qed.

Lemma broadcast2_post {A B C D} (h : C → D) (f : A → B → C) a b :
  match broadcast2 f a b with
  | inl e => inl e
  | inr m => inr (amap h m)
  end = broadcast2 (λ x y, h (f x y)) a b.
Proof.
  unfold broadcast2. case_decide; [by rewrite amap_zip2|].
  destruct (bcast_len (length a) (length b)); [|done].
  destruct (bcast_len (width a) (width b)); [|done].
  by rewrite amap_zip2.
Qed.

Lemma broadcast2_ext {A B C} (f g : A → B → C) a b :
  (∀ x y, f x y = g x y) → broadcast2 f a b = broadcast2 g a b.
Proof.
  intros H. unfold broadcast2. case_decide; [by rewrite (zip2_ext f g)|].
  destruct (bcast_len (length a) (length b)); [|done].
  destruct (bcast_len (width a) (width b)); [|done].
  by rewrite (zip2_ext f g).
Qed.

Lemma existsb_amap {A} (f : A → bool) (a : list (list A)) :
  existsb (existsb f) a = np_any (amap f a).
Proof.
  unfold np_any, amap. induction a as [|row a IH]; simpl; [done|].
  rewrite IH. f_equal. clear IH.
  induction row as [|x row IH]; simpl; [done|]. by rewrite IH.
Qed.

Lemma np_any_true (m : bmask) : np_any m = true ↔ ∃ p, px m p = Some true.
Proof.
  unfold np_any. rewrite existsb_exists. split.
  - intros (row & Hrow & Hex). apply existsb_exists in Hex as ([] & Hb & Hid); [|done].
    apply list_elem_of_In, list_elem_of_lookup in Hrow as [r Hr].
    apply list_elem_of_In, list_elem_of_lookup in Hb as [c Hc].
    exists (r, c). unfold px. simpl. by rewrite Hr.
  - intros (p & Hp). apply bind_Some in Hp as (row & Hr & Hc).
    exists row. split; [by eapply list_elem_of_In, list_elem_of_lookup_2|].
    apply existsb_exists. exists true.
    split; [by eapply list_elem_of_In, list_elem_of_lookup_2|done].
Qed.

(** * [get_partially_covered_regions] *)

Lemma any_meets (a : image) (m : bmask) (l : Z) :
  np_any (zip2 andb (np_eq a l) m) = true ↔ meets a m l.
Proof.
  rewrite np_any_true. unfold meets. split; intros (p & Hp); exists p.
  - rewrite px_zip2, px_np_eq in Hp.
    destruct (px a p) as [x|]; simpl in Hp; [|done].
    destruct (px m p) as [y|]; simpl in Hp; [|done].
    injection Hp as Hp. apply andb_true_iff in Hp as [Hx%bool_decide_eq_true ->].
    by subst.
  - destruct Hp as [Ha Hm]. rewrite px_zip2, px_np_eq, Ha, Hm. simpl.
    by rewrite bool_decide_true.
Qed.

Lemma scan_partially_covered_first (a : image) (m : bmask) (ls : list Z) :
  shape m = shape a →
  match scan_partially_covered a (BoolArray m) ls with
  | inr (Some region) =>
      ∃ pre l post, ls = pre ++ l :: post ∧ l ≠ 0 ∧ region = np_eq a l ∧
        meets a m l ∧ ∀ l', l' ∈ pre → l' ≠ 0 → ¬ meets a m l'
  | inr None => ∀ l', l' ∈ ls → l' ≠ 0 → ¬ meets a m l'
  | inl _ => False
  end.
Proof.
  intros Hs. induction ls as [|l ls IH]; simpl.
  - intros l' Hl'. by apply elem_of_nil in Hl'.
  - case_decide as Hl0.
    { destruct (scan_partially_covered _ _ ls) as [e|[region|]]; [done|..].
      - destruct IH as (pre & l1 & post & -> & ? & ? & ? & Hpre).
        exists (l :: pre), l1, post. split_and!; [done..|].
        intros l' [->|?]%elem_of_cons; [done|by apply Hpre].
      - intros l' [->|?]%elem_of_cons; [done|by apply IH]. }
    rewrite np_and_same by (by rewrite shape_np_eq).
    destruct (np_any (zip2 andb (np_eq a l) m)) eqn:Hany.
    + exists [], l, ls. split_and!; [done..|by apply any_meets|].
      intros l' Hl'. by apply elem_of_nil in Hl'.
    + assert (¬ meets a m l) as Hno.
      { intros Hm%any_meets. congruence. }
      destruct (scan_partially_covered _ _ ls) as [e|[region|]]; [done|..].
      * destruct IH as (pre & l1 & post & -> & ? & ? & ? & Hpre).
        exists (l :: pre), l1, post. split_and!; [done..|].
        intros l' [->|?]%elem_of_cons; [done|by apply Hpre].
      * intros l' [->|?]%elem_of_cons; [done|by apply IH].
Qed.

(** X20.  For a boolean mask of the shape of the image,
    [get_partially_covered_regions] returns one array (not a list of them):
    the mask of the region of the smallest label other than 0, negative
    labels included, that has a pixel on the mask; it returns [None] when no
    such label has one. *)
Theorem get_partially_covered_regions_first (labeled_image : image) (m : bmask) :
  shape m = shape labeled_image →
  match get_partially_covered_regions labeled_image (BoolArray m) with
  | inr (Some region) =>
      ∃ l, l ≠ 0 ∧ region = np_eq labeled_image l ∧ meets labeled_image m l ∧
           ∀ l', l' ≠ 0 → meets labeled_image m l' → l ≤ l'
  | inr None => ∀ l, l ≠ 0 → ¬ meets labeled_image m l
  | inl _ => False
  end.
Proof.
  intros Hs. unfold get_partially_covered_regions.
  pose proof (scan_partially_covered_first labeled_image m (np_unique labeled_image) Hs)
    as Hscan.
  destruct (scan_partially_covered _ _ _) as [e|[region|]]; [done|..].
  - destruct Hscan as (pre & l & post & Hls & Hl0 & -> & Hmeets & Hpre).
    exists l. split_and!; [done..|].
    intros l' Hl' Hm'.
    assert (l' ∈ np_unique labeled_image) as Hin.
    { destruct Hm' as (p & Hp & _). apply elem_of_np_unique. eauto. }
    rewrite Hls in Hin. apply elem_of_app in Hin as [Hin|Hin].
    { by destruct (Hpre _ Hin Hl'). }
    pose proof (np_unique_sorted labeled_image) as Hsorted. rewrite Hls in Hsorted.
    apply StronglySorted_app_1_r, StronglySorted_cons in Hsorted as [Hall _].
    rewrite Forall_forall in Hall.
    apply elem_of_cons in Hin as [->|Hin]; [lia|]. specialize (Hall _ Hin). lia.
  - intros l Hl Hm. apply (Hscan l); [|done..].
    destruct Hm as (p & Hp & _). apply elem_of_np_unique. eauto.
Qed.

Lemma land_bit (b : bool) (v : Z) :
  negb (Z.land (if b then 1 else 0) v =? 0) = b && Z.odd v.
Proof.
  destruct b; simpl; [|done].
  rewrite Z.land_comm. change 1 with (Z.ones 1). rewrite Z.land_ones by lia.
  change (2 ^ 1) with 2. rewrite Zmod_odd. by destruct (Z.odd v).
Qed.

Lemma any_overlap_int (cm : bmask) (m : image) :
  any_overlap cm (IntArray m) = any_overlap cm (BoolArray (amap Z.odd m)).
Proof.
  unfold any_overlap, np_and. rewrite broadcast2_amap_right.
  rewrite <- (broadcast2_ext (λ (b : bool) v, negb (Z.land (if b then 1 else 0) v =? 0)))
    by (intros b v; apply land_bit).
  rewrite <- (broadcast2_post (λ v, negb (v =? 0))).
  destruct (broadcast2 _ cm m) as [e|both]; [done|]. by rewrite existsb_amap.
Qed.

(** X21.  With an integer mask, [mask_current_label & mask] is the bitwise and of
    0 or 1 with the entries of the mask, so only the lowest bit of an entry
    counts: the call gives what it gives for the boolean mask of the odd
    entries.  An entry such as 2 does not mark the mask region. *)
Theorem get_partially_covered_regions_int_mask (labeled_image m : image) :
  get_partially_covered_regions labeled_image (IntArray m)
  = get_partially_covered_regions labeled_image (BoolArray (amap Z.odd m)).
Proof.
  unfold get_partially_covered_regions.
  induction (np_unique labeled_image) as [|l ls IH]; [done|].
  cbn [scan_partially_covered]. case_decide; [done|].
  by rewrite any_overlap_int, IH.
Qed.

(** * [filter_regions_by_size] *)

(** Keep the values of the list [K], zero the others. *)
Lemma stamp_one (mask : image) (K : list Z) (l : Z) :
  setitem (np_eq mask l) l (amap (λ v, if decide (v ∈ K) then v else 0) mask)
  = inr (amap (λ v, if decide (v ∈ l :: K) then v else 0) mask).
Proof.
  unfold setitem. rewrite decide_True by (by rewrite shape_np_eq, shape_fmap).
  f_equal. unfold np_eq. rewrite zip2_amap_amap. apply amap_ext.
  intros p v _. simpl. case_bool_decide as Hv.
  - subst v. rewrite decide_True; [done|left].
  - destruct (decide (v ∈ K)) as [HK|HK].
    + rewrite decide_True; [done|by right].
    + rewrite decide_False; [done|]. by intros [?|?]%elem_of_cons.
Qed.

Lemma stamp_filtered_run (mask : image) (min_dim max_dim : Z) (pre rest K : list Z) :
  stamp_filtered mask (pre ++ rest) (length pre)
    ((λ l, bool_decide (min_dim < np_sum (np_eq mask l))
           && bool_decide (np_sum (np_eq mask l) < max_dim)) <$> rest)
    (amap (λ v, if decide (v ∈ K) then v else 0) mask)
  = inr (amap (λ v, if decide (v ∈ K ∨ (v ∈ rest ∧ size_ok mask min_dim max_dim v))
                    then v else 0) mask).
Proof.
  revert pre K. induction rest as [|l rest IH]; intros pre K; simpl.
  - f_equal. apply amap_ext. intros p v _.
    destruct (decide (v ∈ K)) as [HK|HK].
    + rewrite decide_True; [done|by left].
    + rewrite decide_False; [done|]. intros [?|[Hv _]]; [done|].
      by apply elem_of_nil in Hv.
  - assert ((pre ++ l :: rest) !! length pre = Some l) as ->.
    { by rewrite lookup_app_r, Nat.sub_diag by lia. }
    assert (pre ++ l :: rest = (pre ++ [l]) ++ rest) as Happ by (by rewrite <- app_assoc).
    assert (S (length pre) = length (pre ++ [l])) as Hlen
      by (rewrite length_app; simpl; lia).
    destruct (bool_decide (min_dim < np_sum (np_eq mask l))
              && bool_decide (np_sum (np_eq mask l) < max_dim)) eqn:Hok.
    + rewrite stamp_one. rewrite Happ, Hlen, IH. f_equal. apply amap_ext.
      intros p v _.
      apply andb_true_iff in Hok as [H1%bool_decide_eq_true H2%bool_decide_eq_true].
      assert (size_ok mask min_dim max_dim l) as Hl by done.
      destruct (decide (v ∈ l :: K ∨ v ∈ rest ∧ size_ok mask min_dim max_dim v))
        as [Hin|Hout].
      * rewrite decide_True; [done|].
        destruct Hin as [[->|?]%elem_of_cons|[? ?]].
        -- right. split; [left|done].
        -- by left.
        -- right. split; [by right|done].
      * rewrite decide_False; [done|].
        intros [?|[[->|?]%elem_of_cons ?]]; apply Hout.
        -- left. by right.
        -- left. left.
        -- right. done.
    + rewrite Happ, Hlen, IH. f_equal. apply amap_ext. intros p v _.
      assert (¬ size_ok mask min_dim max_dim l) as Hl.
      { intros [H1 H2]. unfold area in H1, H2.
        rewrite !bool_decide_true in Hok by done. done. }
      destruct (decide (v ∈ K ∨ v ∈ rest ∧ size_ok mask min_dim max_dim v))
        as [Hin|Hout].
      * rewrite decide_True; [done|].
        destruct Hin as [?|[? ?]]; [by left|]. right. split; [by right|done].
      * rewrite decide_False; [done|].
        intros [?|[[->|?]%elem_of_cons ?]]; [apply Hout; by left|done|].
        apply Hout. right. done.
Qed.

Lemma filter_regions_by_size_run (mask : image) (min_dim max_dim : Z) :
  1 ≤ min_dim → min_dim ≤ max_dim →
  filter_regions_by_size mask min_dim max_dim
  = inr (amap (λ v, if decide (size_ok mask min_dim max_dim v) then v else 0) mask).
Proof.
  intros Hmin Hmax. unfold filter_regions_by_size, np_unique_counts.
  rewrite !decide_False by lia.
  rewrite <- list_fmap_compose.
  pose proof (stamp_filtered_run mask min_dim max_dim [] (np_unique mask) []) as Hrun.
  change ([] ++ np_unique mask) with (np_unique mask) in Hrun.
  change (length (@nil Z)) with 0%nat in Hrun. unfold np_zeros_like.
  assert (amap (λ _ : Z, 0) mask = amap (λ v, if decide (v ∈ []) then v else 0) mask)
    as -> by (apply amap_ext; intros p v _; by rewrite decide_False by apply not_elem_of_nil).
  unfold compose. rewrite Hrun. f_equal. apply amap_ext. intros p v Hp.
  assert (v ∈ np_unique mask) as Hin by (apply elem_of_np_unique; eauto).
  destruct (decide (size_ok mask min_dim max_dim v)) as [Hok|Hno].
  - rewrite decide_True; [done|]. right. done.
  - rewrite decide_False; [done|]. intros [?%elem_of_nil|[_ ?]]; done.
Qed.

(** X22.  [filter_regions_by_size] raises a [ValueError] when [min_dim < 1] and,
    failing that, when [max_dim < min_dim].  Otherwise it returns an array
    of the shape of the mask in which a pixel keeps its value when more than
    [min_dim] and fewer than [max_dim] pixels of the mask hold that value,
    and is 0 when not: both bounds are exclusive, so a value held by exactly
    [min_dim] or exactly [max_dim] pixels is removed. *)
Theorem filter_regions_by_size_keeps (mask : image) (min_dim max_dim : Z) :
  (min_dim < 1 →
   filter_regions_by_size mask min_dim max_dim
   = inl (ValueError "Minimum dimension must be greater than or equal to 1.")) ∧
  (1 ≤ min_dim → max_dim < min_dim →
   filter_regions_by_size mask min_dim max_dim
   = inl (ValueError
            "Maximum dimension must be greater than or equal to minimum dimension.")) ∧
  (1 ≤ min_dim → min_dim ≤ max_dim →
   ∃ out, filter_regions_by_size mask min_dim max_dim = inr out ∧
     shape out = shape mask ∧
     ∀ p v, px mask p = Some v →
       (min_dim < area mask v < max_dim → px out p = Some v) ∧
       (area mask v ≤ min_dim ∨ max_dim ≤ area mask v → px out p = Some 0)).
Proof.
  split_and!.
  - intros H. unfold filter_regions_by_size, np_unique_counts. by rewrite decide_True.
  - intros H1 H2. unfold filter_regions_by_size, np_unique_counts.
    by rewrite decide_False, decide_True by lia.
  - intros H1 H2. rewrite filter_regions_by_size_run by done.
    eexists. split_and!; [done|apply shape_fmap|].
    intros p v Hp. rewrite px_fmap, Hp. simpl. split.
    + intros Hok. rewrite decide_True; [done|]. unfold size_ok. lia.
    + intros Hno. rewrite decide_False; [done|]. unfold size_ok. lia.
Qed.

(** X23.  Filtering twice with the same bounds gives what filtering once gives:
    the values that are kept keep all their pixels, and so their count. *)
Theorem filter_regions_by_size_idempotent (mask out : image) (min_dim max_dim : Z) :
  filter_regions_by_size mask min_dim max_dim = inr out →
  filter_regions_by_size out min_dim max_dim = inr out.
Proof.
  intros Hrun.
  assert (1 ≤ min_dim ∧ min_dim ≤ max_dim) as [Hmin Hmax].
  { unfold filter_regions_by_size, np_unique_counts in Hrun.
    repeat case_decide; try done. lia. }
  rewrite filter_regions_by_size_run in Hrun by done. injection Hrun as <-.
  rewrite filter_regions_by_size_run by done. f_equal.
  set (keep := λ v, if decide (size_ok mask min_dim max_dim v) then v else 0).
  rewrite amap_amap. apply amap_ext. intros p v _. unfold compose.
  destruct (decide (keep v = 0)) as [H0|Hne].
  { rewrite H0. by case_decide. }
  assert (keep v = v ∧ size_ok mask min_dim max_dim v) as [Hv Hok].
  { unfold keep in *. by case_decide. }
  rewrite Hv. rewrite decide_True; [done|].
  unfold size_ok, area in *.
  assert (np_eq (amap keep mask) v = np_eq mask v) as ->; [|done].
  unfold np_eq. rewrite amap_amap. apply amap_ext. intros q u _. unfold compose.
  apply bool_decide_ext. unfold keep. case_decide; [done|].
  split; [intros <-; congruence|]. intros ->. done.
Qed.

(** * [refine_objects_by_overlapping], pixel by pixel *)

Lemma zip2_ext_px {A B C} (f g : A → B → C) a b :
  shape a = shape b →
  (∀ p x y, px a p = Some x → px b p = Some y → f x y = g x y) →
  zip2 f a b = zip2 g a b.
Proof.
  intros Hs H. apply array_ext; [by rewrite !shape_zip2|].
  intros p. rewrite !px_zip2.
  destruct (px a p) as [x|] eqn:Hx; simpl; [|done].
  destruct (px b p) as [y|] eqn:Hy; simpl; [|done].
  f_equal. by eapply H.
Qed.

Lemma zip2_left {A B C} (g : A → C) (a : list (list A)) (b : list (list B)) :
  shape a = shape b → zip2 (λ x _, g x) a b = amap g a.
Proof.
  intros Hs. apply array_ext; [by rewrite shape_zip2, shape_fmap|].
  intros p. rewrite px_zip2, px_fmap.
  destruct (px a p) as [x|] eqn:Hx; simpl; [|done].
  destruct (px b p) as [y|] eqn:Hy; simpl; [done|].
  assert (is_Some (px b p)) as [? ?]; [|congruence].
  apply (shape_px a b); [done|eauto].
Qed.

Lemma shape_np_gt a v : shape (np_gt a v) = shape a.
Proof. apply shape_fmap. Qed.

Lemma np_any_false (m : bmask) p : np_any m = false → px m p ≠ Some true.
Proof.
  intros Hany Hp. assert (np_any m = true); [|congruence].
  apply np_any_true. eauto.
Qed.

Lemma regionprops_NoDup a : NoDup (regionprops a).
Proof.
  unfold regionprops. apply NoDup_filter.
  pose proof (np_unique_sorted a) as Hs.
  induction Hs as [|x l Hs IH Hall]; constructor; [|done].
  intros Hin. rewrite Forall_forall in Hall. specialize (Hall _ Hin). lia.
Qed.

(** One turn of the loop, for the region [v]: the regions of [D] have had
    their turn. *)
Lemma refine_step (refined_image : loc) (b r : image) (max_cell_area : Z)
    (D : list Z) (v : Z) (h : heap) :
  shape r = shape b → v ∉ D → v ≠ 0 →
  h !! refined_image
  = Some (zip2 (cut_listed b max_cell_area D) b r) →
  (cur ← load refined_image;
   if decide (area cur v < max_cell_area) then
     overlap_mask ← lift (np_and (np_eq cur v) (np_gt r 0));
     if np_any overlap_mask then
       update refined_image (setitem (np_eq cur v) 0);;
       update refined_image (setitem overlap_mask v)
     else
       update refined_image (setitem (np_eq cur v) 0)
   else mret tt) h
  = (inr tt,
     <[refined_image :=
         zip2 (cut_listed b max_cell_area (v :: D)) b r]> h).
Proof.
  intros Hs HvD Hv0 Hcur.
  set (cut := cut_listed b max_cell_area) in *.
  set (cur := zip2 (cut D) b r) in *.
  assert (Hlen : (refined_image < length h)%nat) by (by eapply lookup_lt_Some).
  assert (shape cur = shape b) as Hsc by (unfold cur; by rewrite shape_zip2).
  assert (∀ x y, cut D x y = v ↔ x = v) as Hcv.
  { intros x y. unfold cut, cut_listed. case_decide as Hd; split; intros; subst; try done.
    by destruct Hd as [? _]. }
  assert (np_eq cur v = np_eq b v) as Hnp.
  { unfold cur, np_eq. rewrite amap_zip2.
    rewrite <- (zip2_left (λ x, bool_decide (x = v)) b r) by done.
    apply zip2_ext. intros x y. apply bool_decide_ext, Hcv. }
  assert (area cur v = area b v) as Ha by (unfold area; by rewrite Hnp).
  rewrite bind_run, (load_run _ _ _ Hcur). cbv beta.
  rewrite Ha, Hnp.
  case_decide as Harea.
  - rewrite bind_run. unfold lift.
    rewrite np_and_same by (by rewrite shape_np_eq, shape_np_gt).
    destruct (np_any (zip2 andb (np_eq b v) (np_gt r 0))) eqn:Hany.
    + rewrite bind_run.
      rewrite <- Hnp at 1. rewrite (update_run _ _ _ _ _ Hcur (setitem_np_eq _ _ _)).
      assert (setitem (zip2 andb (np_eq b v) (np_gt r 0)) v (recolor v 0 cur)
              = inr (zip2 (cut (v :: D)) b r)) as Hset.
      { assert (shape (zip2 andb (np_eq b v) (np_gt r 0)) = shape b) as Hso.
        { rewrite shape_zip2; by rewrite shape_np_eq, ?shape_np_gt. }
        assert (shape (recolor v 0 cur) = shape b) as Hsr.
        { unfold recolor. by rewrite shape_fmap. }
        unfold setitem. rewrite decide_True by congruence.
        f_equal. apply array_ext.
        { rewrite !shape_zip2; congruence. }
        intros p. unfold recolor, cur. rewrite !px_zip2, px_fmap, px_zip2.
        unfold np_gt. rewrite px_np_eq, px_fmap.
        destruct (px b p) as [x|]; simpl; [|done].
        destruct (px r p) as [y|]; simpl; [|done].
        f_equal. pose proof (Hcv x y) as Hx. unfold cut, cut_listed in *.
        repeat (case_decide || case_bool_decide); simpl; try done;
          set_unfold; naive_solver lia. }
      erewrite update_run; [|by apply list_lookup_insert_eq|exact Hset].
      by rewrite list_insert_insert_eq.
    + rewrite <- Hnp at 1. rewrite (update_run _ _ _ _ _ Hcur (setitem_np_eq _ _ _)).
      do 2 f_equal. apply array_ext.
      { unfold recolor. rewrite shape_fmap, Hsc. by rewrite shape_zip2. }
      intros p. unfold recolor, cur. rewrite px_fmap, !px_zip2.
      pose proof (np_any_false _ p Hany) as Hp.
      rewrite px_zip2, px_np_eq in Hp. unfold np_gt in Hp. rewrite px_fmap in Hp.
      destruct (px b p) as [x|]; simpl in *; [|done].
      destruct (px r p) as [y|]; simpl in *; [|done].
      f_equal. pose proof (Hcv x y) as Hx. unfold cut, cut_listed in *.
      repeat (case_decide || case_bool_decide); simpl in *; try done;
        set_unfold; naive_solver lia.
  - simpl. f_equal. symmetry.
    replace (zip2 (cut (v :: D)) b r) with cur; [by apply list_insert_id|].
    apply zip2_ext. intros x y. unfold cut, cut_listed.
    repeat case_decide; try done; set_unfold; naive_solver lia.
Qed.

Lemma refine_loop (refined_image : loc) (b r : image) (max_cell_area : Z)
    (todo D : list Z) (h : heap) :
  shape r = shape b → NoDup todo → (∀ v, v ∈ todo → (v ∉ D) ∧ v ≠ 0) →
  h !! refined_image
  = Some (zip2 (cut_listed b max_cell_area D) b r) →
  for_each todo tt (λ region_prop _,
    cur ← load refined_image;
    if decide (area cur region_prop < max_cell_area) then
      overlap_mask ← lift (np_and (np_eq cur region_prop) (np_gt r 0));
      if np_any overlap_mask then
        update refined_image (setitem (np_eq cur region_prop) 0);;
        update refined_image (setitem overlap_mask region_prop)
      else
        update refined_image (setitem (np_eq cur region_prop) 0)
    else mret tt) h
  = (inr tt,
     <[refined_image :=
         zip2 (cut_listed b max_cell_area (todo ++ D)) b r]> h).
Proof.
  intros Hs. revert D h.
  induction todo as [|v todo IH]; intros D h Hnd Hfresh Hcur.
  - simpl. by rewrite list_insert_id.
  - apply NoDup_cons in Hnd as [Hv Hnd].
    destruct (Hfresh v) as [HvD Hv0]; [left|].
    cbn [for_each]. rewrite bind_run.
    rewrite (refine_step _ b r _ D v h Hs HvD Hv0 Hcur).
    rewrite (IH (v :: D)); [| done | |].
    + rewrite list_insert_insert_eq. do 2 f_equal.
      apply zip2_ext. intros x y. unfold cut_listed.
      repeat case_decide; try done; set_unfold; naive_solver.
    + intros u Hu. destruct (Hfresh u) as [? ?]; [by right|].
      split; [|done]. intros [->|?]%elem_of_cons; done.
    + apply list_lookup_insert_eq. by eapply lookup_lt_Some.
Qed.

Lemma refine_objects_by_overlapping_run (h : heap) (base_image refiner_image : loc)
    (b r : image) (max_cell_area : Z) :
  h !! base_image = Some b → h !! refiner_image = Some r → shape r = shape b →
  np_size b ≠ 0%nat →
  refine_objects_by_overlapping base_image refiner_image max_cell_area h
  = (inr (length h), h ++ [refined b r max_cell_area]).
Proof.
  intros Hb Hr Hs Hne. unfold refine_objects_by_overlapping.
  rewrite bind_run, (load_run _ _ _ Hb), bind_run. unfold new at 1. cbv beta iota.
  assert (Hr' : (h ++ [b]) !! refiner_image = Some r) by (by apply lookup_app_l_Some).
  assert (Hb' : (h ++ [b]) !! length h = Some b)
    by (by rewrite lookup_app_r, Nat.sub_diag by lia).
  rewrite bind_run, (load_run _ _ _ Hr'), bind_run, (load_run _ _ _ Hb'), bind_run.
  unfold lift at 1. rewrite measure_regionprops_nonempty by done. rewrite bind_run.
  rewrite (refine_loop _ b r max_cell_area (regionprops b) []); [|done|..].
  - simpl. f_equal.
    rewrite insert_app_r_alt, Nat.sub_diag by lia. simpl. f_equal. f_equal.
    unfold refined. apply zip2_ext_px; [done|].
    intros p x y Hx Hy. unfold cut_small, cut_listed. rewrite app_nil_r.
    repeat case_decide; try done.
    + exfalso. destruct_and!. apply H0. split_and!; try done.
      match goal with H : _ ∈ regionprops _ |- _ =>
        apply elem_of_regionprops in H as [? _] end. done.
    + exfalso. destruct_and!. apply H. split_and!; try done.
      apply elem_of_regionprops. eauto.
  - apply regionprops_NoDup.
  - intros v [Hv _]%elem_of_regionprops. split; [apply not_elem_of_nil|lia].
  - rewrite Hb'. f_equal. symmetry.
    trans (amap (λ x : Z, x) b); [|by apply amap_id].
    rewrite <- (zip2_left (λ x : Z, x) b r) by done.
    apply zip2_ext. intros x y. unfold cut_listed. rewrite decide_False; [done|].
    intros [?%elem_of_nil _]. done.
Qed.

(** X10.  For a base image [b] with at least one pixel and a refiner [r] of
    the same shape, [refine_objects_by_overlapping] returns a new array, of
    the shape of
    [b], that is [b] except for its regions (positive labels) of fewer than
    [max_cell_area] pixels: of such a region exactly the pixels where the
    refiner is positive keep their label, the others are zeroed.  A region
    that the refiner does not meet is deleted, a region of [max_cell_area]
    pixels or more is kept whole, and so is everything that is not
    positive. *)
Theorem refine_objects_by_overlapping_cuts (h : heap) (base_image refiner_image : loc)
    (b r : image) (max_cell_area : Z) :
  h !! base_image = Some b → h !! refiner_image = Some r → shape r = shape b →
  np_size b ≠ 0%nat →
  ∃ out,
    refine_objects_by_overlapping base_image refiner_image max_cell_area h
    = (inr (length h), h ++ [out]) ∧
    shape out = shape b ∧
    ∀ p x y, px b p = Some x → px r p = Some y →
      (0 < x → area b x < max_cell_area → y ≤ 0 → px out p = Some 0) ∧
      (0 < x → area b x < max_cell_area → 0 < y → px out p = Some x) ∧
      (max_cell_area ≤ area b x → px out p = Some x) ∧
      (x ≤ 0 → px out p = Some x).
Proof.
  intros Hb Hr Hs Hne. exists (refined b r max_cell_area).
  split_and!; [by apply refine_objects_by_overlapping_run| |].
  - unfold refined. by rewrite shape_zip2.
  - intros p x y Hx Hy. unfold refined. rewrite px_zip2, Hx, Hy. simpl.
    unfold cut_small. split_and!; intros; case_decide; try done; lia.
Qed.

Lemma refined_idempotent (b r : image) (max_cell_area : Z) :
  shape r = shape b →
  refined (refined b r max_cell_area) r max_cell_area = refined b r max_cell_area.
Proof.
  intros Hs. unfold refined at 1 3.
  assert (shape (refined b r max_cell_area) = shape b) as Hso
    by (unfold refined; by rewrite shape_zip2).
  apply array_ext.
  { rewrite shape_zip2 by congruence. by rewrite shape_zip2. }
  intros p. rewrite !px_zip2. unfold refined at 2. rewrite px_zip2.
  destruct (px b p) as [x|] eqn:Hx; simpl; [|done].
  destruct (px r p) as [y|] eqn:Hy; simpl; [|done].
  f_equal.
  assert (0 < x → max_cell_area ≤ area b x →
          np_eq (refined b r max_cell_area) x = np_eq b x) as Hnp.
  { intros Hx0 Hbig. unfold refined, np_eq. rewrite amap_zip2.
    rewrite <- (zip2_left (λ u, bool_decide (u = x)) b r) by done.
    apply zip2_ext. intros u w. apply bool_decide_ext. unfold cut_small.
    case_decide as Hu; [|done]. split; [intros <-; lia|].
    intros ->. lia. }
  set (c := cut_small b max_cell_area x y).
  unfold cut_small at 1.
  destruct (decide (0 < c ∧ area (refined b r max_cell_area) c < max_cell_area ∧ y ≤ 0))
    as [(Hpos & Hlt & Hy0)|]; [|done].
  exfalso. unfold c, cut_small in *.
  destruct (decide (0 < x ∧ area b x < max_cell_area ∧ y ≤ 0)) as [|Hkeep]; [lia|].
  destruct (decide (area b x < max_cell_area)) as [Hsmall|Hbig]; [tauto|].
  unfold area in Hlt. rewrite Hnp in Hlt by lia. unfold area in Hbig. lia.
Qed.

(** X11.  For a base image with at least one pixel and a refiner of its
    shape, refining the result once more with the same refiner and the same
    bound changes nothing: the second call returns a copy of what the first
    returned. *)
Theorem refine_objects_by_overlapping_idempotent (h : heap)
    (base_image refiner_image : loc) (b r : image) (max_cell_area : Z) :
  h !! base_image = Some b → h !! refiner_image = Some r → shape r = shape b →
  np_size b ≠ 0%nat →
  ∃ first out h',
    refine_objects_by_overlapping base_image refiner_image max_cell_area h
    = (inr first, h') ∧ h' !! first = Some out ∧
    refine_objects_by_overlapping first refiner_image max_cell_area h'
    = (inr (length h'), h' ++ [out]).
Proof.
  intros Hb Hr Hs Hne.
  assert (shape (refined b r max_cell_area) = shape b) as Hso
    by (unfold refined; by rewrite shape_zip2).
  eexists _, (refined b r max_cell_area), _. split_and!.
  - by apply refine_objects_by_overlapping_run.
  - by rewrite lookup_app_r, Nat.sub_diag by lia.
  - rewrite (refine_objects_by_overlapping_run _ _ _ (refined b r max_cell_area) r).
    + by rewrite refined_idempotent.
    + by rewrite lookup_app_r, Nat.sub_diag by lia.
    + by apply lookup_app_l_Some.
    + congruence.
    + by rewrite (np_size_shape _ b).
Qed.

(** * More on [foi_correction] *)

Lemma foi_correction_run (h : heap) (mask : loc) (a : image) (cell_type : string) :
  h !! mask = Some a →
  let E := foi_margin cell_type in
  foi_correction mask cell_type h
  = (inr mask,
     <[mask := erase (λ v, v ∈ get_nucleus_ids a ∧
                           v ∉ get_nucleus_ids
                                 ((λ row, py_slice row E (Z.of_nat (width a) - E))
                                    <$> py_slice a E (Z.of_nat (length a) - E))) a]> h).
Proof.
  intros Hm E. unfold foi_correction. fold E.
  rewrite bind_run, (load_run _ _ _ Hm), bind_run.
  by rewrite (foi_loop _ _ _ a).
Qed.

Lemma foi_margin_nonneg cell_type : 0 ≤ foi_margin cell_type.
Proof. destruct (foi_margin_cases cell_type) as [->|[->| ->]]; lia. Qed.

(** X1.  For a cell type that is in neither list of [foi_correction] the margin
    is 0 and the inset is the whole image: the call assigns nothing and
    leaves the store as it is. *)
Theorem foi_correction_unknown_cell_type (h : heap) (mask : loc) (a : image)
    (cell_type : string) :
  h !! mask = Some a → foi_margin cell_type = 0 →
  foi_correction mask cell_type h = (inr mask, h).
Proof.
  intros Hm HE. rewrite (foi_correction_run _ _ a) by done. cbv zeta. rewrite HE.
  rewrite erase_none; [by rewrite list_insert_id|].
  intros v [Hin Hout]. apply Hout. apply elem_of_ids_foi; [done|].
  apply elem_of_get_nucleus_ids in Hin as [Hv (p & Hp)].
  split; [done|]. exists p. split; [|done].
  apply px_lt in Hp. unfold in_inset. lia.
Qed.

(** X2.  When the image has at most [2 E] rows or at most [2 E] columns the
    inset [mask[E:rows-E, E:cols-E]] is empty and holds no region id: every
    positive pixel is set to 0, the others stay. *)
Theorem foi_correction_small_image (h : heap) (mask : loc) (a : image)
    (cell_type : string) :
  h !! mask = Some a →
  let E := foi_margin cell_type in
  Z.of_nat (length a) ≤ 2 * E ∨ Z.of_nat (width a) ≤ 2 * E →
  ∃ a', foi_correction mask cell_type h = (inr mask, <[mask := a']> h) ∧
        ∀ p v, px a p = Some v → px a' p = Some (if decide (0 < v) then 0 else v).
Proof.
  intros Hm E Hsmall. rewrite (foi_correction_run _ _ a) by done. fold E.
  pose proof (foi_margin_nonneg cell_type) as HE. fold E in HE.
  eexists. split; [done|].
  intros p v Hp. rewrite px_erase, Hp. simpl. f_equal.
  pose proof (elem_of_ids_foi a E v HE) as Hfoi.
  pose proof (elem_of_get_nucleus_ids a v) as Hids.
  destruct (decide (0 < v)) as [Hv|Hv].
  - rewrite decide_True; [done|]. split; [apply Hids; eauto|].
    rewrite Hfoi. intros [_ (q & [Hr Hc] & _)]. lia.
  - rewrite decide_False; [done|]. intros [[? _]%Hids _]. lia.
Qed.

(** X3.  A second [foi_correction] with the same cell type changes nothing: the
    ids that are left all occur in the inset. *)
Theorem foi_correction_idempotent (h h' : heap) (mask out : loc) (a : image)
    (cell_type : string) :
  h !! mask = Some a →
  foi_correction mask cell_type h = (inr out, h') →
  foi_correction out cell_type h' = (inr out, h').
Proof.
  intros Hm. rewrite (foi_correction_run _ _ a) by done. cbv zeta.
  set (E := foi_margin cell_type).
  pose proof (foi_margin_nonneg cell_type) as HE. fold E in HE.
  set (dead := λ v, v ∈ get_nucleus_ids a ∧ _).
  intros [= <- <-].
  assert (mask < length h)%nat as Hlen by (by eapply lookup_lt_Some).
  rewrite (foi_correction_run _ _ (erase dead a));
    [|by apply list_lookup_insert_eq].
  cbv zeta. fold E. rewrite list_insert_insert_eq. do 2 f_equal.
  apply erase_none. intros v [Hin Hout]. apply Hout.
  apply elem_of_get_nucleus_ids in Hin as [Hv (p & Hp)].
  rewrite px_erase in Hp. apply fmap_Some in Hp as (w & Hw & Hvw).
  destruct (decide (dead w)) as [?|Hnd]; [lia|]. subst w.
  assert (v ∈ get_nucleus_ids a) as Hva by (apply elem_of_get_nucleus_ids; eauto).
  destruct (decide (v ∈ get_nucleus_ids
                          ((λ row, py_slice row E (Z.of_nat (width a) - E))
                             <$> py_slice a E (Z.of_nat (length a) - E))))
    as [Hfoi|Hno]; [|by destruct Hnd].
  apply elem_of_ids_foi in Hfoi as [_ (q & Hq & Hqv)]; [|done].
  apply elem_of_ids_foi; [done|]. split; [done|]. exists q. split.
  - unfold in_inset in *. unfold erase. rewrite width_fmap. unfold amap.
    by rewrite length_fmap.
  - rewrite px_erase, Hqv. simpl. by rewrite decide_False.
Qed.

(** * More on [remove_smaller_areas] *)

(** X7.  For every array with at least one pixel, label image or not, and every
    threshold [T >= 0]: a pixel of the result of [remove_smaller_areas] is
    background exactly when it was 0 or held a positive value that at most
    [T] pixels hold.  Negative values are never removed. *)
Theorem remove_smaller_areas_foreground (h : heap) (seeds : loc) (s : image) (T : Q) :
  h !! seeds = Some s → np_size s ≠ 0%nat → (0 <= T)%Q →
  ∃ l out h', remove_smaller_areas seeds T h = (inr l, h') ∧
    h' !! l = Some out ∧
    ∀ p v, px s p = Some v →
      ∃ k, px out p = Some k ∧
           (k = 0 ↔ v = 0 ∨ (0 < v ∧ (inject_Z (area s v) <= T)%Q)).
Proof.
  intros Hs Hsize HT. rewrite (remove_smaller_areas_run _ _ s) by done.
  eexists _, _, _. split_and!; [done|..].
  - rewrite lookup_app_r; rewrite length_insert, length_app; simpl; [|lia].
    by replace (S (length h) - (length h + 1))%nat with 0%nat by lia.
  - intros p v Hp.
    set (f := erase (too_small s T) s).
    assert (px f p = Some (if decide (too_small s T v) then 0 else v)) as Hf
      by (unfold f; by rewrite px_erase, Hp).
    destruct (label_px _ _ _ Hf) as (k & Hk & H0 & H1).
    exists k. split; [done|].
    assert (too_small s T v ↔ 0 < v ∧ (inject_Z (area s v) <= T)%Q) as Hsmall.
    { unfold too_small. rewrite elem_of_regionprops, Qle_bool_iff.
      split; [tauto|]. intros [? ?]. eauto. }
    destruct (decide (too_small s T v)) as [Hd|Hd].
    + split; [|by intros; apply H0]. intros _. right. by apply Hsmall.
    + split.
      * intros ->. destruct (decide (v = 0)) as [?|Hv]; [by left|].
        specialize (H1 Hv). lia.
      * intros [->|Hsm]; [by apply H0|]. by apply Hsmall in Hsm.
Qed.

(** * The passes on a base image without pixels *)

(** X13.  On a base image with no element none of the three passes returns.
    Each makes its copy first.  The two adding passes then raise the
    [ValueError] of [np.max] in [get_maximum_label];
    [refine_objects_by_overlapping] raises the same error inside
    [measure.regionprops], which takes the maximum of the array to find
    its objects. *)
Theorem passes_on_empty_base (h : heap) (base_image second : loc) (b r : image) :
  h !! base_image = Some b → h !! second = Some r → np_size b = 0%nat →
  (∀ dt cells_overlap min_cell_area,
     add_objects_by_overlapping dt base_image second cells_overlap min_cell_area h
     = (inl (ValueError
               "zero-size array to reduction operation maximum which has no identity"),
        h ++ [b])) ∧
  (∀ dt cells_overlap min_cell_area,
     add_nuclei_by_overlapping dt base_image second cells_overlap min_cell_area h
     = (inl (ValueError
               "zero-size array to reduction operation maximum which has no identity"),
        h ++ [b])) ∧
  (∀ max_cell_area,
     refine_objects_by_overlapping base_image second max_cell_area h
     = (inl (ValueError
               "zero-size array to reduction operation maximum which has no identity"),
        h ++ [b])).
Proof.
  intros Hb Hr Hsize.
  assert (Hb' : (h ++ [b]) !! length h = Some b)
    by (by rewrite lookup_app_r, Nat.sub_diag by lia).
  assert (Hr' : (h ++ [b]) !! second = Some r) by (by apply lookup_app_l_Some).
  pose proof (get_maximum_label_empty b Hsize) as Hmax.
  split_and!; intros.
  - unfold add_objects_by_overlapping.
    rewrite bind_run, (load_run _ _ _ Hb), bind_run. unfold new at 1. cbv beta iota.
    rewrite bind_run, (load_run _ _ _ Hb'), bind_run. unfold lift. by rewrite Hmax.
  - unfold add_nuclei_by_overlapping.
    rewrite bind_run, (load_run _ _ _ Hb), bind_run. unfold new at 1. cbv beta iota.
    rewrite bind_run, (load_run _ _ _ Hb'), bind_run. unfold lift. by rewrite Hmax.
  - unfold refine_objects_by_overlapping.
    rewrite bind_run, (load_run _ _ _ Hb), bind_run. unfold new at 1. cbv beta iota.
    rewrite bind_run, (load_run _ _ _ Hr'), bind_run, (load_run _ _ _ Hb'), bind_run.
    unfold lift. by rewrite measure_regionprops_empty.
Qed.

(** * [simple_binary_mask_post_processing] *)

Lemma uint16_range v : 0 ≤ uint16 v < 65536.
Proof. unfold uint16. apply Z.mod_pos_bound. lia. Qed.

Lemma astype_uint16_small a : labels_below 65536 a → nonneg a → astype_uint16 a = a.
Proof.
  intros Hb Hn. unfold astype_uint16. apply amap_id. intros p v Hp.
  unfold uint16. apply Z.mod_small. split; [by eapply Hn|by eapply Hb].
Qed.

Lemma simple_binary_mask_post_processing_run {Args} (h : heap) (mask original_image
    : prediction) (args : Args) (channel : list (list Q)) (T : Q) :
  mask !! 1%nat = Some channel → has_unit_axis (thresholded channel) = false →
  np_size channel ≠ 0%nat → (0 <= T)%Q →
  ∃ h', simple_binary_mask_post_processing mask original_image args true T h
        = (inr (length h'), h' ++ [astype_uint16 (simple_labels channel T)]) ∧
        (length h ≤ length h')%nat.
Proof.
  intros Hch Hunit Hsize HT. unfold simple_binary_mask_post_processing.
  rewrite Hch. cbv zeta. fold (thresholded channel). rewrite Hunit.
  set (lab := label (astype_int (thresholded channel))).
  rewrite bind_run. unfold new at 1. cbv beta iota.
  assert (np_size lab ≠ 0%nat) as Hlab.
  { rewrite (np_size_shape lab channel); [done|].
    unfold lab. rewrite label_shape. unfold astype_int, thresholded.
    by rewrite !shape_fmap. }
  rewrite bind_run.
  rewrite (remove_smaller_areas_run _ _ lab);
    [| by rewrite lookup_app_r, Nat.sub_diag by lia | done | done].
  cbv beta iota. rewrite bind_run.
  erewrite load_run; last first.
  { rewrite lookup_app_r; rewrite length_insert, !length_app; simpl; [|lia].
    replace (S (length h + 1) - (length h + 1 + 1))%nat with 0%nat by lia. done. }
  unfold new. eexists. split; [done|].
  repeat (rewrite length_app || rewrite length_insert). simpl. lia.
Qed.

(** X4.  For a prediction whose channel 1 is a two-dimensional array with at
    least one pixel that [np.squeeze] leaves as it is, with [denoise] set and
    a threshold [T >= 0], [simple_binary_mask_post_processing] returns a new
    array of the shape of the channel, with values in the range of
    [uint16], in which every pixel whose probability is at most 0.2 is
    background.  When fewer than 65536 regions are left, so that the cast
    to [uint16] changes no label, every region of the result has more than
    [T] pixels. *)
Theorem simple_binary_mask_post_processing_law {Args} (h : heap) (mask original_image
    : prediction) (args : Args) (channel : list (list Q)) (T : Q) :
  mask !! 1%nat = Some channel → has_unit_axis (thresholded channel) = false →
  np_size channel ≠ 0%nat → (0 <= T)%Q →
  ∃ l out h',
    simple_binary_mask_post_processing mask original_image args true T h = (inr l, h') ∧
    h' !! l = Some out ∧ (length h ≤ l)%nat ∧
    shape out = shape channel ∧
    (∀ p v, px out p = Some v → 0 ≤ v < 65536) ∧
    (∀ p x, px channel p = Some x → (x <= 2 # 10)%Q → px out p = Some 0) ∧
    (labels_below 65536 (simple_labels channel T) →
     ∀ k, k ∈ regionprops out → (T < inject_Z (area out k))%Q).
Proof.
  intros Hch Hunit Hsize HT.
  destruct (simple_binary_mask_post_processing_run h mask original_image args channel T)
    as (h' & Hrun & Hlen); [done..|].
  set (lab := label (astype_int (thresholded channel))).
  assert (shape lab = shape channel) as Hslab.
  { unfold lab. rewrite label_shape. unfold astype_int, thresholded.
    by rewrite !shape_fmap. }
  eexists _, _, _. split_and!; [exact Hrun|..].
  - by rewrite lookup_app_r, Nat.sub_diag by lia.
  - done.
  - unfold astype_uint16, simple_labels. rewrite shape_fmap, label_shape.
    fold lab. unfold erase. by rewrite shape_fmap.
  - intros p v Hp. unfold astype_uint16 in Hp. rewrite px_fmap in Hp.
    apply fmap_Some in Hp as (w & _ & ->). apply uint16_range.
  - intros p x Hx Hle. unfold astype_uint16. rewrite px_fmap.
    assert (px lab p = Some 0) as Hl.
    { assert (px (astype_int (thresholded channel)) p = Some 0) as Hp.
      { unfold astype_int, thresholded. rewrite !px_fmap, Hx. simpl.
        apply Qle_bool_iff in Hle. by rewrite Hle. }
      destruct (label_px _ _ _ Hp) as (k & Hk & H0 & _).
      unfold lab. by rewrite Hk, H0. }
    assert (px (erase (too_small lab T) lab) p = Some 0) as He.
    { rewrite px_erase, Hl. simpl. by case_decide. }
    destruct (label_px _ _ _ He) as (k & Hk & H0 & _).
    unfold simple_labels. fold lab. by rewrite Hk, H0.
  - intros Hfew k Hk.
    rewrite astype_uint16_small in * by (done || apply label_nonneg).
    unfold simple_labels in *. fold lab in Hk |- *.
    destruct (erased_regions (too_small lab T) lab k) as (v & Hv & Hnd & Hex & ->).
    + apply label_nonneg.
    + apply label_one_piece.
    + done.
    + apply Qnot_le_lt. intros Hle. apply Hnd. split.
      * by apply elem_of_regionprops.
      * by apply Qle_bool_iff.
Qed.

(** * [fusion_post_processing]: its dictionaries and its result *)

(** X5.  All three dictionaries are read before anything else is done, also when
    [just_evs] is [False]: when one of them lacks ["original_image"], or,
    these being there, one of them lacks ["mask"], the call raises the
    [KeyError] of that key and the store stays as it is. *)
Theorem fusion_missing_key {Args} (d1 d2 d3 : pydict) (args : Args) (just_evs : bool)
    (h : heap) :
  (d1 !! "original_image"%string = None ∨ d2 !! "original_image"%string = None ∨
   d3 !! "original_image"%string = None →
   fusion_post_processing d1 d2 d3 args just_evs h
   = (inl (KeyError "original_image"), h)) ∧
  (is_Some (d1 !! "original_image"%string) → is_Some (d2 !! "original_image"%string) →
   is_Some (d3 !! "original_image"%string) →
   d1 !! "mask"%string = None ∨ d2 !! "mask"%string = None ∨ d3 !! "mask"%string = None →
   fusion_post_processing d1 d2 d3 args just_evs h = (inl (KeyError "mask"), h)).
Proof.
  unfold fusion_post_processing, getitem. split.
  - intros Hmiss. rewrite !bind_run.
    destruct (d1 !! "original_image"%string); [|done].
    destruct (d2 !! "original_image"%string); [|done].
    destruct (d3 !! "original_image"%string); [|done].
    naive_solver.
  - intros [? ->] [? ->] [? ->] Hmiss. rewrite !bind_run. cbn.
    destruct (d1 !! "mask"%string); [|done].
    destruct (d2 !! "mask"%string); [|done].
    destruct (d3 !! "mask"%string); [|done].
    naive_solver.
Qed.

(** X6.  Whenever [fusion_post_processing] returns, its two results are two
    different new arrays with the same contents, all values in the range of
    [uint16]: each [astype] makes a copy, so that writing to one result
    leaves the other as it is. *)
Theorem fusion_returns_two_copies {Args} (d1 d2 d3 : pydict) (args : Args)
    (just_evs : bool) (h h' : heap) (first second : loc) :
  fusion_post_processing d1 d2 d3 args just_evs h = (inr (first, second), h') →
  first ≠ second ∧
  ∃ out, h' !! first = Some out ∧ h' !! second = Some out ∧
         ∀ p v, px out p = Some v → 0 ≤ v < 65536.
Proof.
  unfold fusion_post_processing. intros Hrun.
  do 7 (apply bind_inr in Hrun as (? & ? & _ & Hrun)).
  apply bind_inr in Hrun as ([r|] & h1 & _ & Hrun); [|done].
  apply bind_inr in Hrun as (a & h2 & Ha & Hrun).
  apply bind_inr in Hrun as (l1 & h3 & H1 & Hrun).
  apply bind_inr in Hrun as (a' & h4 & Ha' & Hrun).
  apply bind_inr in Hrun as (l2 & h5 & H2 & Hrun).
  injection Hrun as <- <- <-.
  unfold load in Ha. destruct (h1 !! r) as [w|] eqn:Hr; [|done].
  injection Ha as <- <-.
  unfold new in H1. injection H1 as <- <-.
  assert ((h1 ++ [astype_uint16 w]) !! r = Some w) as Hr' by (by apply lookup_app_l_Some).
  unfold load in Ha'. rewrite Hr' in Ha'. injection Ha' as <- <-.
  unfold new in H2. injection H2 as <- <-.
  split; [rewrite length_app; simpl; lia|].
  exists (astype_uint16 w). split_and!.
  - apply lookup_app_l_Some. by rewrite lookup_app_r, Nat.sub_diag by lia.
  - by rewrite lookup_app_r, Nat.sub_diag by lia.
  - intros p v Hp. unfold astype_uint16 in Hp. rewrite px_fmap in Hp.
    apply fmap_Some in Hp as (u & _ & ->). apply uint16_range.
Qed.

(** * Adding regions that lie apart from the base image *)

Lemma row_sum_pos (row : list bool) :
  0 < foldr (λ (b : bool) t, (if b then 1 else 0) + t) 0 row → existsb id row = true.
Proof.
  induction row as [|[] row IH]; simpl; [lia|done|]. intros H. apply IH. lia.
Qed.

Lemma np_sum_pos (m : bmask) : 0 < np_sum m → ∃ p, px m p = Some true.
Proof.
  intros H. apply np_any_true. unfold np_any, np_sum in *.
  induction m as [|row m IH]; simpl in *; [lia|].
  destruct (decide (0 < foldr (λ (b : bool) t, (if b then 1 else 0) + t) 0 row))
    as [Hrow|Hrow].
  - by rewrite (row_sum_pos _ Hrow).
  - rewrite IH; [apply orb_true_r|]. pose proof (row_sum_nonneg row). lia.
Qed.

Lemma regionprops_sorted a : StronglySorted Z.lt (regionprops a).
Proof. unfold regionprops. apply StronglySorted_filter, np_unique_sorted. Qed.

Lemma apart_no_overlap (b sc : image) (v : Z) :
  shape sc = shape b → apart b sc → 0 < v →
  np_and (np_eq sc v) (np_gt b 0) = inr (zip2 andb (np_eq sc v) (np_gt b 0)) ∧
  ¬ 0 < np_sum (zip2 andb (np_eq sc v) (np_gt b 0)).
Proof.
  intros Hs Hap Hv. split.
  - by rewrite np_and_same by (by rewrite shape_np_eq, shape_np_gt).
  - intros (p & Hp)%np_sum_pos. rewrite px_zip2, px_np_eq in Hp.
    unfold np_gt in Hp. rewrite px_fmap in Hp.
    destruct (px sc p) as [y|] eqn:Hy; simpl in Hp; [|done].
    destruct (px b p) as [x|] eqn:Hx; simpl in Hp; [|done].
    injection Hp as Hp.
    apply andb_true_iff in Hp as [->%bool_decide_eq_true Hx0%bool_decide_eq_true].
    by eapply Hap.
Qed.

(** Stamping the next region of the list. *)
Lemma stamp_step (image_loc : loc) (b sc : image) (next next' : Z) (D rest : list Z)
    (v : Z) (h : heap) :
  shape sc = shape b → regionprops sc = D ++ v :: rest →
  h !! image_loc = Some (stamped_listed b sc next D) →
  (update image_loc (setitem (np_eq sc v) (next + Z.of_nat (length D)));;
   mret next') h
  = (inr next', <[image_loc := stamped_listed b sc next (D ++ [v])]> h).
Proof.
  intros Hs Hreg Hcur.
  assert (setitem (np_eq sc v) (next + Z.of_nat (length D)) (stamped_listed b sc next D)
          = inr (stamped_listed b sc next (D ++ [v]))) as Hset.
  { unfold setitem.
    assert (shape (stamped_listed b sc next D) = shape b) as Hsl
      by (unfold stamped_listed; by rewrite shape_zip2).
    rewrite decide_True by (rewrite shape_np_eq; congruence).
    f_equal. apply array_ext.
    { rewrite shape_zip2 by (rewrite shape_np_eq; congruence).
      unfold stamped_listed. by rewrite !shape_zip2. }
    intros p. unfold stamped_listed. rewrite !px_zip2, px_np_eq.
    destruct (px b p) as [x|]; simpl; [|done].
    destruct (px sc p) as [y|]; simpl; [|done].
    f_equal. case_bool_decide as Hy.
    - subst y. rewrite decide_True by (apply elem_of_app; right; left).
      f_equal. f_equal. symmetry. apply count_lt_sorted; [apply regionprops_sorted|].
      rewrite Hreg. by rewrite lookup_app_r, Nat.sub_diag by lia.
    - destruct (decide (y ∈ D)) as [HD|HD].
      + rewrite decide_True; [done|]. apply elem_of_app. by left.
      + rewrite decide_False; [done|].
        intros [?|?%list_elem_of_singleton]%elem_of_app; done. }
  by rewrite bind_run, (update_run _ _ _ _ _ Hcur Hset).
Qed.

(** The loop of an adding pass on regions that are all stamped: the label
    advances by one per region, and the dtype has room for every label
    that is stamped. *)
Lemma stamp_loop (dt : dtype) (body : Z → Z → M Z) (image_loc sc_loc : loc) (b sc : image)
    (next : Z) (rest D : list Z) (h : heap) :
  shape sc = shape b → regionprops sc = D ++ rest → image_loc ≠ sc_loc →
  (∀ v n h0, v ∈ rest → h0 !! sc_loc = Some sc → is_Some (h0 !! image_loc) →
     body v n h0
     = (update image_loc (setitem (np_eq sc v) n);; mret (wrap dt (n + 1))) h0) →
  dtype_min dt ≤ next + Z.of_nat (length D) →
  next + Z.of_nat (length (D ++ rest)) ≤ dtype_max dt + 1 →
  h !! sc_loc = Some sc →
  h !! image_loc = Some (stamped_listed b sc next D) →
  ∃ next', for_each rest (next + Z.of_nat (length D)) body h
           = (inr next', <[image_loc := stamped_listed b sc next (D ++ rest)]> h).
Proof.
  intros Hs. revert D h.
  induction rest as [|v rest IH]; intros D h Hreg Hne Hbody Hlo Hhi Hsc Hcur.
  - simpl. rewrite app_nil_r. rewrite list_insert_id by done. eauto.
  - cbn [for_each]. rewrite bind_run.
    rewrite Hbody; [|left|done|eauto].
    rewrite (stamp_step _ b sc next _ D rest v h Hs Hreg Hcur).
    assert (D ++ v :: rest = (D ++ [v]) ++ rest) as Happ by (by rewrite <- app_assoc).
    destruct rest as [|u rest].
    { simpl. eauto. }
    rewrite !length_app in Hhi. simpl in Hhi.
    assert (wrap dt (next + Z.of_nat (length D) + 1)
            = next + Z.of_nat (length (D ++ [v]))) as ->.
    { rewrite wrap_small by lia. rewrite length_app. simpl. lia. }
    destruct (IH (D ++ [v]) (<[image_loc := stamped_listed b sc next (D ++ [v])]> h))
      as [next' Hrun].
    + by rewrite <- Happ.
    + done.
    + intros w n h0 Hw. apply Hbody. by right.
    + rewrite length_app. simpl. lia.
    + rewrite !length_app. simpl. lia.
    + by rewrite list_lookup_insert_ne.
    + apply list_lookup_insert_eq. by eapply lookup_lt_Some.
    + exists next'. rewrite Hrun. by rewrite list_insert_insert_eq, <- Happ.
Qed.

Lemma stamped_listed_nil b sc next : shape sc = shape b → stamped_listed b sc next [] = b.
Proof.
  intros Hs. unfold stamped_listed.
  trans (amap (λ x : Z, x) b); [|by apply amap_id].
  rewrite <- (zip2_left (λ x : Z, x) b sc) by done.
  apply zip2_ext. intros x y. rewrite decide_False; [done|apply not_elem_of_nil].
Qed.

Lemma stamped_listed_all b sc next :
  shape sc = shape b → stamped_listed b sc next (regionprops sc) = stamped b sc next.
Proof.
  intros Hs. unfold stamped_listed, stamped. apply zip2_ext_px; [done|].
  intros p x y _ Hy. destruct (decide (0 < y)) as [H0|H0].
  - rewrite decide_True; [done|]. apply elem_of_regionprops. eauto.
  - rewrite decide_False; [done|]. intros [? _]%elem_of_regionprops. done.
Qed.

Lemma get_maximum_label_size (b : image) (max_label : Z) :
  get_maximum_label b = inr max_label → np_size b ≠ 0%nat.
Proof. intros Hmax Hsize. by rewrite (get_maximum_label_empty b Hsize) in Hmax. Qed.

(** X12.  When no pixel is foreground in both the base image and the
    single-channel image, and the dtype of the base image has room for one
    new label per region above [max], the largest value of the base image,
    the two adding passes do the same, whatever their bounds: on a copy of
    the base image the k-th region of the single-channel image, in
    ascending label order and counting from 0, is stamped with the label
    [max + 1 + k], and the relabelling of that copy is returned. *)
Theorem adding_passes_on_apart_images (dt : dtype) (h : heap)
    (base_image single_channel_image : loc) (b sc : image) (max_label : Z) :
  h !! base_image = Some b → h !! single_channel_image = Some sc →
  shape sc = shape b → apart b sc →
  get_maximum_label b = inr max_label → dtype_min dt ≤ max_label →
  max_label + Z.of_nat (length (regionprops sc)) ≤ dtype_max dt →
  ∀ cells_overlap min_cell_area,
    add_objects_by_overlapping dt base_image single_channel_image cells_overlap
      min_cell_area h
    = (inr (S (length h)),
       h ++ [stamped b sc (max_label + 1); label (stamped b sc (max_label + 1))]) ∧
    add_nuclei_by_overlapping dt base_image single_channel_image cells_overlap
      min_cell_area h
    = (inr (S (length h)),
       h ++ [stamped b sc (max_label + 1); label (stamped b sc (max_label + 1))]).
Proof.
  intros Hb Hsc Hs Hap Hmax Hlo Hhi cells_overlap min_cell_area.
  set (m := max_label) in *.
  assert (np_size sc ≠ 0%nat) as Hsize.
  { rewrite (np_size_shape sc b) by done. by eapply get_maximum_label_size. }
  assert (Hb' : (h ++ [b]) !! length h = Some b)
    by (by rewrite lookup_app_r, Nat.sub_diag by lia).
  assert (Hsc' : (h ++ [b]) !! single_channel_image = Some sc)
    by (by apply lookup_app_l_Some).
  assert (Hne : length h ≠ single_channel_image).
  { apply lookup_lt_Some in Hsc. lia. }
  assert (Hinit : (h ++ [b]) !! length h = Some (stamped_listed b sc (m + 1) []))
    by (by rewrite stamped_listed_nil).
  assert (∀ body : Z → Z → M Z,
    (∀ v n h0, v ∈ regionprops sc → h0 !! single_channel_image = Some sc →
       is_Some (h0 !! length h) →
       body v n h0
       = (update (length h) (setitem (np_eq sc v) n);; mret (wrap dt (n + 1))) h0) →
    (for_each (regionprops sc) (wrap dt (m + 1)) body ≫= λ _,
       w ← load (length h); new (label w)) (h ++ [b])
    = (inr (S (length h)),
       h ++ [stamped b sc (m + 1); label (stamped b sc (m + 1))])) as Hloop.
  { intros body Hbody. rewrite bind_run.
    assert (∃ next', for_each (regionprops sc) (wrap dt (m + 1)) body (h ++ [b])
              = (inr next',
                 <[length h := stamped_listed b sc (m + 1) (regionprops sc)]>
                   (h ++ [b]))) as [next' ->].
    { destruct (regionprops sc) as [|v rest] eqn:Hreg.
      - simpl. rewrite list_insert_id by done. eauto.
      - simpl in Hhi. rewrite wrap_small by lia.
        assert (dtype_min dt ≤ m + 1 + Z.of_nat (length (@nil Z))) as Hlo'
          by (simpl; lia).
        assert (m + 1 + Z.of_nat (length ([] ++ v :: rest)) ≤ dtype_max dt + 1) as Hhi'
          by (simpl in *; lia).
        destruct (stamp_loop dt body (length h) single_channel_image b sc (m + 1)
                    (v :: rest) [] (h ++ [b]) Hs Hreg Hne Hbody Hlo' Hhi' Hsc' Hinit)
          as [next' Hrun].
        simpl in Hrun. rewrite Z.add_0_r in Hrun. eauto. }
    rewrite stamped_listed_all by done.
    rewrite insert_app_r_alt, Nat.sub_diag by lia. simpl.
    rewrite bind_run. erewrite load_run;
      [|by rewrite lookup_app_r, Nat.sub_diag by lia].
    unfold new. rewrite length_app. simpl. rewrite Nat.add_1_r.
    by rewrite <- app_assoc. }
  split.
  - unfold add_objects_by_overlapping.
    rewrite bind_run, (load_run _ _ _ Hb), bind_run. unfold new at 1. cbv beta iota.
    rewrite bind_run, (load_run _ _ _ Hb'), bind_run. unfold lift at 1.
    rewrite Hmax. cbv beta iota.
    rewrite bind_run, (load_run _ _ _ Hsc'). cbv beta iota.
    rewrite bind_run. unfold lift at 1.
    rewrite measure_regionprops_nonempty by done. cbv beta iota.
    apply Hloop. intros v n h0 [Hv _]%elem_of_regionprops Hsc0 _.
    unfold add_objects_body. rewrite bind_run, (load_run _ _ _ Hsc0), bind_run.
    destruct (apart_no_overlap b sc v Hs Hap Hv) as [Hand Hsum].
    unfold lift at 1. rewrite Hand. cbv beta iota. by rewrite decide_False.
  - unfold add_nuclei_by_overlapping.
    rewrite bind_run, (load_run _ _ _ Hb), bind_run. unfold new at 1. cbv beta iota.
    rewrite bind_run, (load_run _ _ _ Hb'), bind_run. unfold lift at 1.
    rewrite Hmax. cbv beta iota.
    rewrite bind_run, (load_run _ _ _ Hsc'). cbv beta iota.
    rewrite bind_run. unfold lift at 1.
    rewrite measure_regionprops_nonempty by done. cbv beta iota.
    apply Hloop. intros v n h0 [Hv _]%elem_of_regionprops Hsc0 _.
    rewrite bind_run, (load_run _ _ _ Hsc0), bind_run.
    destruct (apart_no_overlap b sc v Hs Hap Hv) as [Hand Hsum].
    unfold lift at 1. rewrite Hand. cbv beta iota. by rewrite decide_False.
Qed.

(** * Relabelling a relabelled image *)

Lemma width_shape {A B} (a : list (list A)) (b : list (list B)) :
  shape a = shape b → width a = width b.
Proof.
  unfold shape. revert b.
  induction a as [|ra a IH]; intros [|rb b] Hs; simplify_eq/=; [done|].
  f_equal; [done|]. by apply IH.
Qed.

Lemma positions_shape {A B} (a : list (list A)) (b : list (list B)) :
  shape a = shape b → positions a = positions b.
Proof.
  intros Hs.
  assert (length a = length b) as Hlen.
  { unfold shape in Hs. apply (f_equal length) in Hs. by rewrite !length_fmap in Hs. }
  assert (∀ r, length (row_of a r) = length (row_of b r)) as Hrow.
  { intros r. unfold row_of, shape in *.
    assert ((length <$> a) !! r = (length <$> b) !! r) as Hr by (by rewrite Hs).
    rewrite !list_lookup_fmap in Hr.
    destruct (a !! r), (b !! r); simplify_eq/=; done. }
  unfold positions. rewrite Hlen. apply list_bind_ext; [|done].
  intros r. by rewrite Hrow.
Qed.

Lemma filter_ext_in {A} (P Q : A → Prop) `{∀ x, Decision (P x)} `{∀ x, Decision (Q x)}
    (l : list A) :
  (∀ x, x ∈ l → (P x ↔ Q x)) → filter P l = filter Q l.
Proof.
  induction l as [|x l IH]; intros HPQ; [done|].
  rewrite !filter_cons. rewrite IH by (intros y Hy; apply HPQ; by right).
  destruct (HPQ x) as [H1 H2]; [left|].
  destruct (decide (P x)), (decide (Q x)); try done; tauto.
Qed.

Lemma grid_below_trans (g1 g2 g3 : grid) :
  Forall2 (Forall2 below) g1 g2 → Forall2 (Forall2 below) g2 g3 →
  Forall2 (Forall2 below) g1 g3.
Proof.
  intros H12. revert g3. induction H12 as [|x y r1 r2 Hxy _ IH]; intros g3 H23.
  - by inversion H23.
  - inversion H23 as [|? z ? r3' Hyz H23']; subst.
    constructor; [by eapply Forall2_below_trans|by apply IH].
Qed.

Lemma grid_below_refl (g : grid) : Forall2 (Forall2 below) g g.
Proof.
  induction g as [|row g IH]; constructor; [|done].
  induction row; constructor; [by split|done].
Qed.

Lemma grid_below_px (g g' : grid) p x :
  Forall2 (Forall2 below) g g' → px g p = Some x →
  ∃ y, px g' p = Some y ∧ below x y.
Proof.
  intros HF Hx. apply bind_Some in Hx as (row & Hr & Hc).
  destruct (Forall2_lookup_l _ _ _ _ _ HF Hr) as (row' & Hr' & Hrow).
  destruct (Forall2_lookup_l _ _ _ _ _ Hrow Hc) as (y & Hy & Hxy).
  exists y. split; [|done]. unfold px. by rewrite Hr'.
Qed.

Lemma step_below g : Forall2 (Forall2 below) (step g) g.
Proof.
  unfold step. eapply grid_below_trans; [apply relax_below|apply run_down_below].
Qed.

Lemma settled_below a : Forall2 (Forall2 below) (settled a) (init_grid a).
Proof.
  apply (settle_preserves (λ g, Forall2 (Forall2 below) g (init_grid a))).
  - intros g Hg. eapply grid_below_trans; [apply step_below|done].
  - apply grid_below_refl.
Qed.

(** The identifier of a foreground cell is the smallest index of its
    component. *)
Lemma settled_le_idx a p x :
  px (settled a) p = Some x → x.1 ≠ 0 → x.2 ≤ idx (width a) p.
Proof.
  intros Hx Hne.
  destruct (grid_below_px _ _ _ _ (settled_below a) Hx) as (y & Hy & [H1 H2]).
  unfold init_grid in Hy.
  rewrite (px_imap (λ r c v, (v, if decide (v = 0) then 0 else idx (width a) (r, c))))
    in Hy.
  apply fmap_Some in Hy as (v & _ & ->). simpl in *.
  rewrite decide_False in H2 by congruence. by destruct p.
Qed.

Lemma settled_min a p q x :
  px (settled a) p = Some x → x.1 ≠ 0 → connected a p q → x.2 ≤ idx (width a) q.
Proof.
  intros Hx Hne Hc.
  assert (px a p = Some x.1) as Hp by (rewrite settled_px; by rewrite Hx).
  pose proof (connected_value _ _ _ _ Hc Hp) as Hq.
  rewrite settled_px in Hq. apply fmap_Some in Hq as (y & Hy & Hxy).
  rewrite (settled_connected a p q x y Hc Hx Hy).
  apply settled_le_idx; [done|congruence].
Qed.

Lemma connected_label a p q v :
  px a p = Some v → v ≠ 0 → connected (label a) p q ↔ connected a p q.
Proof.
  intros Hp Hv. destruct (label_px _ _ _ Hp) as (k & Hk & _ & Hk1).
  specialize (Hk1 Hv). assert (k ≠ 0) as Hk0 by lia. split.
  - intros Hc. pose proof (connected_value _ _ _ _ Hc Hk) as Hq.
    destruct (label_px_inv _ _ _ Hq) as (v' & Hv' & Hiff).
    eapply label_connected; [done|done|done|tauto|congruence].
  - intros Hc. pose proof (connected_value _ _ _ _ Hc Hp) as Hq.
    apply (label_one_piece a p q k); [done|done|].
    rewrite <- Hk. symmetry. by eapply label_connected.
Qed.

Lemma settled_shape a : shape (settled a) = shape a.
Proof.
  destruct (settled_sound a) as [H _].
  rewrite <- H at 2. symmetry. apply shape_fmap.
Qed.

Lemma rank_zero rs x : rank rs x = 0 ↔ x.1 = 0.
Proof. unfold rank. case_decide; [done|]. split; [lia|done]. Qed.

Lemma settled_label a p x :
  px (settled a) p = Some x →
  ∃ y, px (settled (label a)) p = Some y ∧ y.2 = x.2 ∧
       y.1 = rank (roots (width a) (settled a)) x.
Proof.
  intros Hx. set (b := label a).
  assert (width b = width a) as Hw by (apply width_shape, label_shape).
  assert (px b p = Some (rank (roots (width a) (settled a)) x)) as Hb.
  { unfold b. by rewrite px_label, Hx. }
  pose proof Hb as Hy. rewrite settled_px in Hy.
  apply fmap_Some in Hy as (y & Hy & Hy1).
  exists y. split_and!; [done| |done].
  assert (px a p = Some x.1) as Hp by (rewrite settled_px; by rewrite Hx).
  destruct (decide (x.1 = 0)) as [H0|Hne].
  - destruct (settled_sound a) as [_ Ha]. destruct (Ha _ _ Hx) as [Hxbg _].
    destruct (settled_sound b) as [_ Hsb]. destruct (Hsb _ _ Hy) as [Hybg _].
    rewrite Hxbg, Hybg; [done| |done]. rewrite <- Hy1. by apply rank_zero.
  - assert (y.1 ≠ 0) as Hyne by (rewrite <- Hy1; by rewrite rank_zero).
    destruct (settled_root a _ _ Hx Hne) as (q & Hcq & Hxq & _).
    destruct (settled_root b _ _ Hy Hyne) as (q' & Hcq' & Hyq' & _).
    assert (connected a p q') as Hc1 by (by eapply connected_label).
    assert (connected b p q) as Hc2 by (by eapply connected_label).
    pose proof (settled_min a p q' x Hx Hne Hc1).
    pose proof (settled_min b p q y Hy Hyne Hc2).
    rewrite Hw in *. lia.
Qed.

Lemma roots_label a :
  roots (width (label a)) (settled (label a)) = roots (width a) (settled a).
Proof.
  assert (width (label a) = width a) as -> by (apply width_shape, label_shape).
  unfold roots. f_equal.
  assert (shape (settled (label a)) = shape (settled a)) as Hs
    by (by rewrite !settled_shape, label_shape).
  rewrite (positions_shape _ _ Hs). apply filter_ext_in.
  intros p [x Hx]%elem_of_positions. unfold is_root.
  destruct (settled_label a p x Hx) as (y & Hy & Hid & _).
  rewrite Hx, Hy. simpl. by rewrite Hid.
Qed.

(** Relabelling is idempotent: the labels of a relabelled image are already
    the ones a second relabelling gives. *)
Lemma label_idempotent a : label (label a) = label a.
Proof.
  apply array_ext; [by rewrite !label_shape|].
  intros p. rewrite (px_label (label a)), roots_label, (px_label a).
  destruct (px (settled a) p) as [x|] eqn:Hx; simpl.
  - destruct (settled_label a p x Hx) as (y & Hy & Hid & Hv).
    rewrite Hy. simpl. f_equal.
    assert (y.1 = 0 ↔ x.1 = 0) as Hz by (rewrite Hv; apply rank_zero).
    unfold rank. rewrite Hid. repeat case_decide; try done; tauto.
  - destruct (px (settled (label a)) p) as [y|] eqn:Hy; [|done].
    assert (is_Some (px (settled a) p)) as [? ?]; [|congruence].
    apply (shape_px (settled (label a))); [|eauto].
    by rewrite !settled_shape, label_shape.
Qed.

(** * [remove_smaller_areas] on its own result *)

(** X8.  For every array with at least one pixel and every threshold [T >= 0],
    what [remove_smaller_areas] returns is a label image: no negative
    value, the labels are the consecutive integers from 1 and each of them
    is one 8-connected region.  The result can be handed to the function
    again. *)
Theorem remove_smaller_areas_returns_label_image (h : heap) (seeds : loc) (s : image)
    (T : Q) :
  h !! seeds = Some s → np_size s ≠ 0%nat → (0 <= T)%Q →
  ∃ l out h', remove_smaller_areas seeds T h = (inr l, h') ∧
    h' !! l = Some out ∧ (length h ≤ l)%nat ∧
    np_size out ≠ 0%nat ∧ nonneg out ∧ consecutive out ∧ one_piece out.
Proof.
  intros Hs Hsize HT. rewrite (remove_smaller_areas_run _ _ s) by done.
  eexists _, _, _. split_and!; [done|..].
  - rewrite lookup_app_r; rewrite length_insert, length_app; simpl; [|lia].
    by replace (S (length h) - (length h + 1))%nat with 0%nat by lia.
  - lia.
  - rewrite (np_size_shape _ s); [done|].
    rewrite label_shape. apply shape_fmap.
  - apply label_nonneg.
  - apply label_consecutive.
  - apply label_one_piece.
Qed.

(** X9.  On a label image (no negative value, every label one connected region)
    [remove_smaller_areas] is idempotent: a second call with the same
    threshold on the result of the first returns an array with the same
    contents. *)
Theorem remove_smaller_areas_idempotent (h : heap) (seeds : loc) (s : image) (T : Q) :
  h !! seeds = Some s → nonneg s → one_piece s →
  np_size s ≠ 0%nat → (0 <= T)%Q →
  ∃ l out h' l2 h2,
    remove_smaller_areas seeds T h = (inr l, h') ∧ h' !! l = Some out ∧
    remove_smaller_areas l T h' = (inr l2, h2) ∧ h2 !! l2 = Some out ∧ l ≠ l2.
Proof.
  intros Hs Hnn Hone Hsize HT.
  set (out := label (erase (too_small s T) s)).
  rewrite (remove_smaller_areas_run _ _ s) by done. fold out.
  set (h' := <[length h := erase (too_small s T) s]> (h ++ [s]) ++ [out]).
  assert (length h' = S (S (length h))) as Hlen.
  { unfold h'. rewrite length_app, length_insert, length_app. simpl. lia. }
  assert (h' !! S (length h) = Some out) as Hout.
  { unfold h'. rewrite lookup_app_r; rewrite length_insert, length_app; simpl; [|lia].
    by replace (S (length h) - (length h + 1))%nat with 0%nat by lia. }
  assert (np_size out ≠ 0%nat) as Hso.
  { rewrite (np_size_shape _ s); [done|].
    unfold out. rewrite label_shape. apply shape_fmap. }
  assert (erase (too_small out T) out = out) as Hnone.
  { apply erase_none. intros k [Hk Hle].
    destruct (erased_regions _ _ _ Hnn Hone Hk) as (v & Hv & Hnd & Hex & Ha).
    apply Hnd. split; [by apply elem_of_regionprops|].
    fold out in Ha. by rewrite <- Ha. }
  eexists _, out, h', _, _. split_and!; [done|done| | |].
  - rewrite (remove_smaller_areas_run _ _ out) by done. rewrite Hnone. done.
  - rewrite lookup_app_r; rewrite length_insert, length_app; simpl; [|lia].
    replace (S (length h') - (length h' + 1))%nat with 0%nat by lia. simpl.
    unfold out. by rewrite label_idempotent.
  - lia.
Qed.

(** * The overlap query on an image that is already relabelled *)

Lemma scan_overlapping_head (labels : image) (marker : bmask) (c : Q) (ls : list Z) :
  shape marker = shape labels →
  scan_overlapping labels marker c ls
  = inr (match head (filter (λ l, passes labels marker c l = true)
                       (filter (λ v, v ≠ 0) ls)) with
         | Some l => Some (l, np_eq labels l, overlap_ratio labels marker l)
         | None => None
         end).
Proof.
  intros Hs. induction ls as [|l ls IH]; [done|].
  cbn [scan_overlapping]. case_decide as Hl0.
  - rewrite (filter_cons_False (λ v, v ≠ 0)) by (intros ?; done). exact IH.
  - rewrite (filter_cons_True (λ v, v ≠ 0)) by done.
    rewrite np_and_same by (by rewrite shape_np_eq).
    fold (overlap_ratio labels marker l). fold (area labels l).
    fold (passes labels marker c l).
    destruct (passes labels marker c l) eqn:Hpass.
    + by rewrite filter_cons_True by done.
    + rewrite filter_cons_False by congruence. exact IH.
Qed.

(** X16.  On an image that is its own relabelling ([label(a) = a], as every
    result of [measure.label] is) and has fewer than 65536 labels,
    [get_overlapping_components] does what the specification says: it
    returns the first label of the image itself, in ascending order, whose
    region has [0 < ratio <= maximum_cells_overlap] and at least 4000
    pixels, with the mask of that region and the ratio, and all-[None] when
    there is none. *)
Theorem get_overlapping_components_on_relabelled (a : image) (marker : bmask)
    (maximum_cells_overlap : Q) :
  label a = a → shape marker = shape a → labels_below 65536 a →
  get_overlapping_components a (BoolArray marker) maximum_cells_overlap
  = inr (match findOverlappingComponent_spec a marker maximum_cells_overlap with
         | Some l => Some (l, np_eq a l, overlap_ratio a marker l)
         | None => None
         end).
Proof.
  intros Hlab Hs Hbelow.
  assert (few_components a) as Hfew by (unfold few_components; by rewrite Hlab).
  assert (nonneg a) as Hnn by (rewrite <- Hlab; apply label_nonneg).
  unfold get_overlapping_components. rewrite uint16_labels by done. rewrite Hlab.
  rewrite scan_overlapping_head by done.
  unfold findOverlappingComponent_spec, regionprops.
  assert (filter (λ v, v ≠ 0) (np_unique a) = filter (λ v, 0 < v) (np_unique a)) as ->;
    [|done].
  apply filter_ext_in. intros v (p & Hp)%elem_of_np_unique.
  specialize (Hnn _ _ Hp). lia.
Qed.

(** * Post-processing of the distance maps *)

(** ** Arrays without an instance *)





Lemma background_shape (a b : image) :
  shape a = shape b → background a → background b → a = b.
Proof.
  intros Hs Ha Hb. apply array_ext; [done|]. intros p.
  destruct (px a p) as [x|] eqn:Hx, (px b p) as [y|] eqn:Hy.
  - by rewrite (Ha _ _ Hx), (Hb _ _ Hy).
  - assert (is_Some (px b p)) as [? ?] by (apply (shape_px a b); eauto). congruence.
  - assert (is_Some (px a p)) as [? ?] by (apply (shape_px a b); eauto). congruence.
  - done.
Qed.


(** ** The seed recovery *)





(** ** The merging of touching cells keeps the background *)






(** ** [border_cell_post_processing] *)







(** * The further theorems on concrete inputs *)

Lemma apart_b_sound b sc : apart_b b sc = true → apart b sc.
Proof.
  unfold apart_b. intros H p x y Hx Hy Hx0 Hy0.
  assert (px (zip2 (λ x y, bool_decide (0 < x) && bool_decide (0 < y)) b sc) p
          = Some true) as Hp.
  { rewrite px_zip2, Hx, Hy. simpl. by rewrite !bool_decide_true. }
  apply bind_Some in Hp as (row & Hr & Hc).
  rewrite forallb_forall in H.
  apply list_elem_of_lookup_2, list_elem_of_In, H in Hr.
  rewrite forallb_forall in Hr.
  apply list_elem_of_lookup_2, list_elem_of_In, Hr in Hc. done.
Qed.

Lemma get_maximum_label_is_max_witness :
  get_maximum_label []
  = inl (ValueError
           "zero-size array to reduction operation maximum which has no identity") ∧
  ∃ m, get_maximum_label three_regions = inr m ∧
       (∃ p, px three_regions p = Some m) ∧ ∀ p v, px three_regions p = Some v → v ≤ m.
Proof.
  split.
  - apply (proj1 (get_maximum_label_is_max [])). reflexivity.
  - apply (proj2 (get_maximum_label_is_max three_regions)). vm_compute. discriminate.
Defined.

Lemma get_nuclei_connected_components_first_witness :
  3 ∈ regionprops (label three_regions) ∧
  passes_nuclei (label three_regions) (np_gt three_regions 0) 3 3 = true ∧
  ∀ l', l' ∈ regionprops (label three_regions) → l' < 3 →
        passes_nuclei (label three_regions) (np_gt three_regions 0) 3 l' = false.
Proof.
  assert (shape (np_gt three_regions 0) = shape three_regions) as Hs
    by (vm_compute; reflexivity).
  assert (few_components three_regions) as Hf
    by (apply few_components_b_sound; vm_compute; reflexivity).
  pose proof (get_nuclei_connected_components_first three_regions
                (np_gt three_regions 0) 3 Hs Hf) as [H _].
  cbv zeta in H.
  assert (get_nuclei_connected_components three_regions
            (BoolArray (np_gt three_regions 0)) 3
          = inr (Some (3, [[false; false; false; false]; [false; false; false; false];
                           [true; true; true; false]], Fin (3 # 7)%Q))) as E
    by (vm_compute; reflexivity).
  rewrite E in H. destruct H as (H1 & _ & _ & H2 & H3). exact (conj H1 (conj H2 H3)).
Defined.

Lemma overlap_bound_of_one_is_void_witness :
  get_overlapping_components host64 (BoolArray (np_eq speck64 1)) 1%Q
  = get_nuclei_connected_components host64 (BoolArray (np_eq speck64 1)) 4000.
Proof.
  apply (overlap_bound_of_one_is_void host64 (np_eq speck64 1) 1%Q).
  - vm_compute. reflexivity.
  - vm_compute. discriminate.
Defined.

(** Without the same shape the two queries differ: a marker of one pixel is
    broadcast against the image, the ratio of the cell of 4096 pixels is
    4096, and only the query without upper bound finds the cell. *)
Example overlap_queries_differ_under_broadcasting :
  get_overlapping_components host64 (BoolArray [[true]]) 1%Q = inr None ∧
  get_nuclei_connected_components host64 (BoolArray [[true]]) 4000
  = inr (Some (1, full_mask 64 64 true, Fin (4096 # 1)%Q)).
Proof. split; by vm_compute. Qed.

Lemma empty_marker_finds_nothing_witness :
  get_overlapping_components three_regions (BoolArray (full_mask 3 4 false)) 1%Q
  = inr None ∧
  get_nuclei_connected_components three_regions (BoolArray (full_mask 3 4 false)) 1
  = inr None.
Proof.
  apply (empty_marker_finds_nothing three_regions (full_mask 3 4 false) 1%Q 1).
  - vm_compute. reflexivity.
  - vm_compute. reflexivity.
Defined.

Lemma get_partially_covered_regions_first_witness :
  ∃ l, l ≠ 0 ∧
    [[false; false; true]; [false; false; false]] = np_eq [[-1; 0; 2]; [3; 3; 0]] l ∧
    meets [[-1; 0; 2]; [3; 3; 0]] [[false; false; true]; [true; false; false]] l ∧
    ∀ l', l' ≠ 0 →
      meets [[-1; 0; 2]; [3; 3; 0]] [[false; false; true]; [true; false; false]] l' →
      l ≤ l'.
Proof.
  pose proof (get_partially_covered_regions_first [[-1; 0; 2]; [3; 3; 0]]
                [[false; false; true]; [true; false; false]] eq_refl) as H.
  assert (get_partially_covered_regions [[-1; 0; 2]; [3; 3; 0]]
            (BoolArray [[false; false; true]; [true; false; false]])
          = inr (Some [[false; false; true]; [false; false; false]])) as E
    by (vm_compute; reflexivity).
  rewrite E in H. exact H.
Defined.

Lemma filter_regions_by_size_keeps_witness :
  filter_regions_by_size three_regions 0 5
  = inl (ValueError "Minimum dimension must be greater than or equal to 1.") ∧
  filter_regions_by_size three_regions 3 2
  = inl (ValueError
           "Maximum dimension must be greater than or equal to minimum dimension.") ∧
  ∃ out, filter_regions_by_size three_regions 2 5 = inr out ∧
    shape out = shape three_regions ∧
    ∀ p v, px three_regions p = Some v →
      (2 < area three_regions v < 5 → px out p = Some v) ∧
      (area three_regions v ≤ 2 ∨ 5 ≤ area three_regions v → px out p = Some 0).
Proof.
  split_and!.
  - apply (proj1 (filter_regions_by_size_keeps three_regions 0 5)). lia.
  - apply (proj1 (proj2 (filter_regions_by_size_keeps three_regions 3 2))); lia.
  - apply (proj2 (proj2 (filter_regions_by_size_keeps three_regions 2 5))); lia.
Defined.

Lemma filter_regions_by_size_idempotent_witness :
  filter_regions_by_size [[0; 0; 0; 0]; [0; 0; 0; 0]; [3; 3; 3; 0]] 2 5
  = inr [[0; 0; 0; 0]; [0; 0; 0; 0]; [3; 3; 3; 0]].
Proof.
  apply (filter_regions_by_size_idempotent three_regions). vm_compute. reflexivity.
Defined.

Lemma refine_objects_by_overlapping_cuts_witness :
  ∃ out,
    refine_objects_by_overlapping 0 1 1000 [[[1; 1; 0; 2]]; [[0; 5; 0; 0]]]
    = (inr 2%nat, [[[1; 1; 0; 2]]; [[0; 5; 0; 0]]] ++ [out]) ∧
    shape out = shape [[1; 1; 0; 2]] ∧
    ∀ p x y, px [[1; 1; 0; 2]] p = Some x → px [[0; 5; 0; 0]] p = Some y →
      (0 < x → area [[1; 1; 0; 2]] x < 1000 → y ≤ 0 → px out p = Some 0) ∧
      (0 < x → area [[1; 1; 0; 2]] x < 1000 → 0 < y → px out p = Some x) ∧
      (1000 ≤ area [[1; 1; 0; 2]] x → px out p = Some x) ∧
      (x ≤ 0 → px out p = Some x).
Proof.
  apply (refine_objects_by_overlapping_cuts [[[1; 1; 0; 2]]; [[0; 5; 0; 0]]] 0 1
           [[1; 1; 0; 2]] [[0; 5; 0; 0]] 1000);
    [reflexivity|reflexivity|reflexivity|vm_compute; discriminate].
Defined.

Lemma refine_objects_by_overlapping_idempotent_witness :
  ∃ first out h',
    refine_objects_by_overlapping 0 1 1000 [[[1; 1; 0; 2]]; [[0; 5; 0; 0]]]
    = (inr first, h') ∧ h' !! first = Some out ∧
    refine_objects_by_overlapping first 1 1000 h' = (inr (length h'), h' ++ [out]).
Proof.
  apply (refine_objects_by_overlapping_idempotent [[[1; 1; 0; 2]]; [[0; 5; 0; 0]]] 0 1
           [[1; 1; 0; 2]] [[0; 5; 0; 0]] 1000);
    [reflexivity|reflexivity|reflexivity|vm_compute; discriminate].
Defined.

Lemma foi_correction_unknown_cell_type_witness :
  foi_correction 0 "my-cells" [three_regions] = (inr 0%nat, [three_regions]).
Proof.
  apply (foi_correction_unknown_cell_type [three_regions] 0 three_regions "my-cells").
  - reflexivity.
  - vm_compute. reflexivity.
Defined.

Lemma foi_correction_small_image_witness :
  ∃ a', foi_correction 0 "BF-C2DL-HSC" [three_regions]
        = (inr 0%nat, <[0%nat := a']> [three_regions]) ∧
        ∀ p v, px three_regions p = Some v →
               px a' p = Some (if decide (0 < v) then 0 else v).
Proof.
  apply (foi_correction_small_image [three_regions] 0 three_regions "BF-C2DL-HSC").
  - reflexivity.
  - left. vm_compute. discriminate.
Defined.

Lemma foi_correction_idempotent_witness :
  foi_correction 0 "BF-C2DL-HSC" [block (50, 50)%nat 10 1 (full 100 100 0)]
  = (inr 0%nat, [block (50, 50)%nat 10 1 (full 100 100 0)]).
Proof.
  apply (foi_correction_idempotent [foi_example] _ 0 0 foi_example "BF-C2DL-HSC").
  - reflexivity.
  - vm_compute. reflexivity.
Defined.

Lemma remove_smaller_areas_foreground_witness :
  ∃ l out h', remove_smaller_areas 0 2%Q [[[1; 0; -1]; [0; 3; 3]; [0; 3; 0]]] = (inr l, h') ∧
    h' !! l = Some out ∧
    ∀ p v, px [[1; 0; -1]; [0; 3; 3]; [0; 3; 0]] p = Some v →
      ∃ k, px out p = Some k ∧
           (k = 0 ↔ v = 0 ∨
                    (0 < v ∧
                     (inject_Z (area [[1; 0; -1]; [0; 3; 3]; [0; 3; 0]]%Z v) <= 2)%Q)).
Proof.
  apply (remove_smaller_areas_foreground [[[1; 0; -1]; [0; 3; 3]; [0; 3; 0]]] 0
           [[1; 0; -1]; [0; 3; 3]; [0; 3; 0]] 2%Q).
  - reflexivity.
  - vm_compute. discriminate.
  - vm_compute. discriminate.
Defined.

Lemma passes_on_empty_base_witness :
  add_objects_by_overlapping I64 0 1 1%Q 1000 [[]; three_regions]
  = (inl (ValueError
            "zero-size array to reduction operation maximum which has no identity"),
     [[]; three_regions] ++ [[]]) ∧
  refine_objects_by_overlapping 0 1 1000 [[]; three_regions]
  = (inl (ValueError
            "zero-size array to reduction operation maximum which has no identity"),
     [[]; three_regions] ++ [[]]).
Proof.
  destruct (passes_on_empty_base [[]; three_regions] 0 1 [] three_regions
              eq_refl eq_refl eq_refl) as (H1 & _ & H3).
  exact (conj (H1 I64 1%Q 1000) (H3 1000)).
Defined.

Lemma simple_binary_mask_post_processing_law_witness :
  ∃ l out h',
    simple_binary_mask_post_processing
      [[[0%Q; 0%Q]; [0%Q; 0%Q]]; [[1%Q; 1%Q]; [1%Q; 0%Q]]]
      [[[0%Q; 0%Q]; [0%Q; 0%Q]]] tt true 1%Q [] = (inr l, h') ∧
    h' !! l = Some out ∧ (length (@nil image) ≤ l)%nat ∧
    shape out = shape [[1%Q; 1%Q]; [1%Q; 0%Q]] ∧
    (∀ p v, px out p = Some v → 0 ≤ v < 65536) ∧
    (∀ p x, px [[1%Q; 1%Q]; [1%Q; 0%Q]] p = Some x → (x <= 2 # 10)%Q →
            px out p = Some 0) ∧
    (labels_below 65536 (simple_labels [[1%Q; 1%Q]; [1%Q; 0%Q]] 1%Q) →
     ∀ k, k ∈ regionprops out → (1 < inject_Z (area out k))%Q).
Proof.
  apply (simple_binary_mask_post_processing_law []
           [[[0%Q; 0%Q]; [0%Q; 0%Q]]; [[1%Q; 1%Q]; [1%Q; 0%Q]]]
           [[[0%Q; 0%Q]; [0%Q; 0%Q]]] tt [[1%Q; 1%Q]; [1%Q; 0%Q]] 1%Q).
  - reflexivity.
  - vm_compute. reflexivity.
  - vm_compute. discriminate.
  - vm_compute. discriminate.
Defined.

Lemma fusion_missing_key_witness :
  fusion_post_processing ∅ demo_dict demo_dict tt false []
  = (inl (KeyError "original_image"), []) ∧
  fusion_post_processing demo_dict demo_dict
    {[ "original_image"%string := [[[0%Q; 0%Q]; [0%Q; 0%Q]]] ]} tt true []
  = (inl (KeyError "mask"), []).
Proof.
  split.
  - apply (proj1 (fusion_missing_key ∅ demo_dict demo_dict tt false [])).
    left. vm_compute. reflexivity.
  - apply (proj2 (fusion_missing_key demo_dict demo_dict
                    {[ "original_image"%string := [[[0%Q; 0%Q]; [0%Q; 0%Q]]] ]}
                    tt true [])).
    + eexists. vm_compute. reflexivity.
    + eexists. vm_compute. reflexivity.
    + eexists. vm_compute. reflexivity.
    + right. right. vm_compute. reflexivity.
Defined.

Lemma fusion_returns_two_copies_witness :
  ∃ first second h',
    fusion_post_processing demo_dict demo_dict demo_dict tt true []
    = (inr (first, second), h') ∧
    first ≠ second ∧
    ∃ out, h' !! first = Some out ∧ h' !! second = Some out ∧
           ∀ p v, px out p = Some v → 0 ≤ v < 65536.
Proof.
  eexists _, _, _. split; [vm_compute; reflexivity|].
  eapply (fusion_returns_two_copies demo_dict demo_dict demo_dict tt true []).
  vm_compute. reflexivity.
Defined.

Lemma adding_passes_on_apart_images_witness :
  add_objects_by_overlapping U8 0 1 1%Q 1000 [[[253; 0; 0; 0]]; [[0; 0; 7; 2]]]
  = (inr 3%nat,
     [[[253; 0; 0; 0]]; [[0; 0; 7; 2]]]
       ++ [stamped [[253; 0; 0; 0]] [[0; 0; 7; 2]] (253 + 1);
           label (stamped [[253; 0; 0; 0]] [[0; 0; 7; 2]] (253 + 1))]) ∧
  add_nuclei_by_overlapping U8 0 1 100%Q 1000 [[[253; 0; 0; 0]]; [[0; 0; 7; 2]]]
  = (inr 3%nat,
     [[[253; 0; 0; 0]]; [[0; 0; 7; 2]]]
       ++ [stamped [[253; 0; 0; 0]] [[0; 0; 7; 2]] (253 + 1);
           label (stamped [[253; 0; 0; 0]] [[0; 0; 7; 2]] (253 + 1))]).
Proof.
  assert (apart [[253; 0; 0; 0]] [[0; 0; 7; 2]]) as Hap
    by (apply apart_b_sound; vm_compute; reflexivity).
  assert (dtype_min U8 ≤ 253) as Hlo by (vm_compute; discriminate).
  assert (253 + Z.of_nat (length (regionprops [[0; 0; 7; 2]])) ≤ dtype_max U8) as Hhi
    by (vm_compute; discriminate).
  pose proof (adding_passes_on_apart_images U8 [[[253; 0; 0; 0]]; [[0; 0; 7; 2]]] 0 1
                [[253; 0; 0; 0]] [[0; 0; 7; 2]] 253 eq_refl eq_refl eq_refl Hap
                eq_refl Hlo Hhi) as H.
  split.
  - exact (proj1 (H 1%Q 1000)).
  - exact (proj2 (H 100%Q 1000)).
Defined.

(** The two regions 2 and 7 of the single-channel image get the labels 254
    and 255, the last values of [np.uint8]: the labels follow the order of
    the region labels, not the order of the pixels. *)
Example adding_passes_on_apart_images_example :
  add_objects_by_overlapping U8 0 1 1%Q 1000 [[[253; 0; 0; 0]]; [[0; 0; 7; 2]]]
  = (inr 3%nat,
     [[[253; 0; 0; 0]]; [[0; 0; 7; 2]]; [[253; 0; 255; 254]]; [[1; 0; 2; 3]]]).
Proof. by vm_compute. Qed.

(** Without room in the dtype the label wraps around.  The base image of
    [np.uint16] holds 65535: the next usable label is 0, the region of the
    single-channel image is stamped with the background value and is
    lost. *)
Example adding_passes_wrap_at_the_dtype_bound :
  add_objects_by_overlapping U16 0 1 1%Q 1000 [[[65535; 0]]; [[0; 1]]]
  = (inr 3%nat, [[[65535; 0]]; [[0; 1]]; [[65535; 0]]; [[1; 0]]]) ∧
  add_nuclei_by_overlapping U16 0 1 100%Q 1000 [[[65535; 0]]; [[0; 1]]]
  = (inr 3%nat, [[[65535; 0]]; [[0; 1]]; [[65535; 0]]; [[1; 0]]]).
Proof. split; by vm_compute. Qed.

Lemma remove_smaller_areas_returns_label_image_witness :
  ∃ l out h', remove_smaller_areas 0 1%Q [[[1; 0; 1]]] = (inr l, h') ∧
    h' !! l = Some out ∧ (length [[[1; 0; 1]]] ≤ l)%nat ∧
    np_size out ≠ 0%nat ∧ nonneg out ∧ consecutive out ∧ one_piece out.
Proof.
  apply (remove_smaller_areas_returns_label_image [[[1; 0; 1]]] 0 [[1; 0; 1]] 1%Q).
  - reflexivity.
  - vm_compute. discriminate.
  - vm_compute. discriminate.
Defined.

Lemma remove_smaller_areas_idempotent_witness :
  ∃ l out h' l2 h2,
    remove_smaller_areas 0 2%Q [three_regions] = (inr l, h') ∧ h' !! l = Some out ∧
    remove_smaller_areas l 2%Q h' = (inr l2, h2) ∧ h2 !! l2 = Some out ∧ l ≠ l2.
Proof.
  apply (remove_smaller_areas_idempotent [three_regions] 0 three_regions 2%Q).
  - reflexivity.
  - apply nonneg_b_sound. vm_compute. reflexivity.
  - apply one_piece_b_sound. vm_compute. reflexivity.
  - vm_compute. discriminate.
  - vm_compute. discriminate.
Defined.

Lemma get_overlapping_components_on_relabelled_witness :
  get_overlapping_components host64 (BoolArray (np_eq speck64 1)) 1%Q
  = inr (match findOverlappingComponent_spec host64 (np_eq speck64 1) 1%Q with
         | Some l => Some (l, np_eq host64 l, overlap_ratio host64 (np_eq speck64 1) l)
         | None => None
         end).
Proof.
  apply (get_overlapping_components_on_relabelled host64 (np_eq speck64 1) 1%Q).
  - vm_compute. reflexivity.
  - vm_compute. reflexivity.
  - apply labels_below_b_sound. vm_compute. reflexivity.
Defined.

Lemma add_objects_loop_below_witness :
  ∃ cur', [[[1; 1; 0]]; [[0; 0; 3]]; [[1; 1; 2]]] !! 2%nat = Some cur' ∧
          2 ≤ 3 ≤ 2 + Z.of_nat (length [3]) ∧ labels_below 3 cur'.
Proof.
  apply (add_objects_loop_below U8 [3] [[[1; 1; 0]]; [[0; 0; 3]]; [[1; 1; 0]]]
           [[[1; 1; 0]]; [[0; 0; 3]]; [[1; 1; 2]]] [[1; 1; 0]] 2 1
           (np_gt [[1; 1; 0]] 0) 1%Q 1000 2 3).
  - reflexivity.
  - lia.
  - vm_compute. discriminate.
  - apply labels_below_b_sound. vm_compute. reflexivity.
  - vm_compute. reflexivity.
Defined.


(** With the stand-in library, a cell map that holds 0.9 everywhere gives
    one seed of 36 pixels at the first threshold, and the instance mask is
    that one cell; the store holds the seeds, the copy made by
    [remove_smaller_areas], its relabelling and the instance mask. *)
Example border_cell_post_processing_example :
  border_cell_post_processing demo_library 4 (full_map 6 6 0%float)
    (full_map 6 6 0.9%float)
    {| th_seed := 0.45; th_cell := 0.07; apply_merging := true |} []
  = (inr (3%nat, full_map 6 6 0%float),
     [full 6 6 1; full 6 6 1; full 6 6 1; full 6 6 1]).
Proof. by vm_compute. Qed.

(** From 0.45 the threshold passes 0.35, 0.25 and 0.15 and ends below 0.05:
    four passes, and three do not suffice. *)
Example seed_recovery_passes :
  settles 3 0.45%float = false ∧ settles 4 0.45%float = true ∧
  (0.45 - 0.1 - 0.1 - 0.1 - 0.1 <? 0.05)%float = true.
Proof. by vm_compute. Qed.

